(** * merkdir: the Merkle tree engine of [merkle/merkle.go]

    A shallow embedding of the Go package [merkle] (tree construction,
    inclusion proofs and their verification, after RFC 9162 section 2.1)
    together with the properties the specification states about it.

    Conventions of the embedding:
    - [uint64] values are integers of [Z]; every operation that can wrap
      is written with [u64] (reduction modulo [2^64]);
    - [[]byte] is [list byte]; a slice that the code compares with [nil]
      ([Nonce]) is an [option];
    - [*Node] is [option Node], [None] being the nil pointer; dereferencing
      nil is the outcome [Panic];
    - a Go [(value, error)] pair is a [result];
    - BLAKE3 with a 32 byte digest is a parameter of the development (the
      class [Digest]): a hasher is the buffer of what was written to it and
      [Sum] applies the digest function to that buffer.

    After the package come the DOT output of [merkle/dot.go], the file
    header of [codec.go] and the commands of the program ([gen],
    [genInclusionProof], [verifyFile], [verifyInclusion]), each as a
    function of what it reads from its environment, with further
    properties of the package and of the program. *)

From Stdlib Require Import Strings.Ascii Strings.String Strings.Byte.
From Stdlib Require Import ZArith List Lia Bool.
From Stdlib Require Import FMapList FMapFacts OrderedTypeEx.
From Equations Require Import Equations.
Import ListNotations.

Local Open Scope Z_scope.

(** ** Machine integers *)

Definition u64 (z : Z) : Z := z mod 2 ^ 64.

(** ** Errors and results *)

Definition bytes := list byte.

(** [errors.New msg] *)
Inductive error : Type :=
| errors_New (msg : string).

(** The outcome of a call: a value, a returned error, or a runtime panic
    (nil pointer dereference). *)
Inductive result (A : Type) : Type :=
| Ok (a : A)
| Err (e : error)
| Panic.

Arguments Ok {A} a.
Arguments Err {A} e.
Arguments Panic {A}.

Definition bind {A B : Type} (x : result A) (f : A -> result B) : result B :=
  match x with
  | Ok a => f a
  | Err e => Err e
  | Panic => Panic
  end.

Notation "x <- c1 ;; c2" := (bind c1 (fun x => c2))
  (at level 61, c1 at next level, right associativity).

(** The error kinds of the specification, as the messages the code uses. *)
Definition IndexOutOfRange_gen : error :=
  errors_New "given leaf index is impossible"%string.
Definition TreeSizeMismatch : error :=
  errors_New "given number of leaves is incorrect"%string.
Definition IndexOutOfRange_calc : error :=
  errors_New "invalid leaf index"%string.
Definition ProofSizeMismatch : error :=
  errors_New "tree size and leaf index mismatch"%string.

Inductive error_kind : Type :=
| KIndexOutOfRange
| KTreeSizeMismatch
| KProofSizeMismatch
| KOther.

Definition error_eqb (e1 e2 : error) : bool :=
  match e1, e2 with
  | errors_New a, errors_New b => String.eqb a b
  end.

Definition kind_of (e : error) : error_kind :=
  if error_eqb e IndexOutOfRange_gen || error_eqb e IndexOutOfRange_calc
  then KIndexOutOfRange
  else if error_eqb e TreeSizeMismatch then KTreeSizeMismatch
  else if error_eqb e ProofSizeMismatch then KProofSizeMismatch
  else KOther.

(** ** Data model *)

Definition NonceSize : Z := 16.
Definition Blake3Size : Z := 32.

#[local] Set Warnings "-register-all".

Inductive Node : Type :=
| mkNode (Hash : bytes) (Name : string)
         (Left Right : option Node) (Nonce : option bytes).

Definition Hash (n : Node) : bytes :=
  match n with mkNode h _ _ _ _ => h end.
Definition Name (n : Node) : string :=
  match n with mkNode _ s _ _ _ => s end.
Definition Left (n : Node) : option Node :=
  match n with mkNode _ _ l _ _ => l end.
Definition Right (n : Node) : option Node :=
  match n with mkNode _ _ _ r _ => r end.
Definition Nonce (n : Node) : option bytes :=
  match n with mkNode _ _ _ _ c => c end.

Record InclusionProof : Type := mkInclusionProof {
  LeafIndex : Z;
  TreeSize : Z;
  ProofNonce : option bytes;
  Proof_ : list bytes
}.

(** An [io.Reader] read to its end: the bytes it delivers and the error,
    if any, that ends the reading instead of [io.EOF]. *)
Record Reader : Type := mkReader {
  content : bytes;
  failure : option error
}.

Definition bytes_Reader (b : bytes) : Reader := mkReader b None.

(** What [hasher.Write] receives from a possibly nil slice. *)
Definition slice_bytes (s : option bytes) : bytes :=
  match s with
  | Some b => b
  | None => []
  end.

(** ** flp2 *)

Definition flp2 (x : Z) : Z :=
  let x := u64 (x - 1) in
  let x := Z.lor x (Z.shiftr x 1) in
  let x := Z.lor x (Z.shiftr x 2) in
  let x := Z.lor x (Z.shiftr x 4) in
  let x := Z.lor x (Z.shiftr x 8) in
  let x := Z.lor x (Z.shiftr x 16) in
  let x := Z.lor x (Z.shiftr x 32) in
  u64 (x - Z.shiftr x 1).

(** The inner loop of the verifier:
    [for fn&0x1 == 0 && fn != 0 { fn >>= 1; sn >>= 1 }]. *)
Definition shift_cond (fn : Z) : bool :=
  (Z.land fn 1 =? 0) && negb (fn =? 0).

Equations? shift_while (fn sn : Z) : Z * Z by wf (Z.abs_nat fn) lt :=
  shift_while fn sn with bool_dec (shift_cond fn) true := {
    | left _ := shift_while (Z.shiftr fn 1) (Z.shiftr sn 1);
    | right _ := (fn, sn) }.
Proof.
  unfold shift_cond in e.
  apply andb_prop in e. destruct e as [He Hn].
  apply Z.eqb_eq in He. apply negb_true_iff in Hn. apply Z.eqb_neq in Hn.
  change 1 with (Z.ones 1) in He. rewrite Z.land_ones in He by lia.
  rewrite Z.shiftr_div_pow2 by lia.
  change (2 ^ 1) with 2 in *.
  pose proof (Z.div_mod fn 2 ltac:(lia)) as Hd.
  lia.
Qed.

(** ** The package, over the digest function *)

(** [blake3.Sum256], the 32 byte BLAKE3 digest of a byte string. *)
Class Digest : Type := blake3_Sum256 : bytes -> bytes.

Section Merkle.

Context {digest : Digest}.

(** [blake3.New(Blake3Size, nil)], [hasher.Write] and [hasher.Sum(nil)]. *)
Definition Hasher := bytes.
Definition blake3_New : Hasher := [].
Definition Write (h : Hasher) (b : bytes) : Hasher := h ++ b.
Definition Sum (h : Hasher) : bytes := blake3_Sum256 h.

(** [io.Copy(hasher, r)]: what was read is written, the error is returned. *)
Definition io_Copy (h : Hasher) (r : Reader) : Hasher * option error :=
  (Write h (content r), failure r).

Definition HashLeaf (r : Reader) (nonce : option bytes) : result bytes :=
  let hasher := blake3_New in
  let hasher := Write hasher [x00] in
  let hasher := Write hasher (slice_bytes nonce) in
  match io_Copy hasher r with
  | (_, Some err) => Err err
  | (hasher, None) => Ok (Sum hasher)
  end.

(** [CreateLeaf]; [rnd] is the outcome of [rand.Read] on a fresh buffer of
    [NonceSize] bytes, consulted only when [nonce] is nil. *)
Definition CreateLeaf (name : string) (r : Reader) (nonce : option bytes)
    (rnd : result bytes) : result Node :=
  nonce <- match nonce with
           | None => b <- rnd ;; Ok (Some b)
           | Some _ => Ok nonce
           end ;;
  hash <- HashLeaf r nonce ;;
  Ok (mkNode hash name None None nonce).

(** The hash of an internal node over its children's hashes. *)
Definition node_hash (lhash rhash : bytes) : bytes :=
  let hasher := blake3_New in
  let hasher := Write hasher [x01] in
  let hasher := Write hasher lhash in
  let hasher := Write hasher rhash in
  Sum hasher.

(** [p2 := flp2(uint64(len(leaves)))], as the index of the slice
    expressions [leaves[:p2]] and [leaves[p2:]]. *)
Definition split_at (leaves : list Node) : nat :=
  Z.to_nat (flp2 (u64 (Z.of_nat (length leaves)))).

(** [CreateTree]. The recursion is on slices of the argument, so the
    embedding carries a recursion budget: [None] is a call that does not
    return within it. [leaves] holds non-nil pointers, as produced by
    [CreateLeaf]. The slice expressions [leaves[:p2]] and [leaves[p2:]] stay
    in range for every length a Go slice can have ([flp2_bounds] below). *)
Fixpoint CreateTree_fuel (fuel : nat) (leaves : list Node) : option Node :=
  match fuel with
  | O => None
  | S fuel =>
      match leaves with
      | [] => Some (mkNode (blake3_Sum256 []) EmptyString None None None)
      | [leaf] => Some leaf
      | _ =>
          let p2 := split_at leaves in
          match CreateTree_fuel fuel (firstn p2 leaves),
                CreateTree_fuel fuel (skipn p2 leaves) with
          | Some lnode, Some rnode =>
              Some (mkNode (node_hash (Hash lnode) (Hash rnode)) EmptyString
                           (Some lnode) (Some rnode) None)
          | _, _ => None
          end
      end
  end.

(** One level of recursion per leaf is more than any tree needs. *)
Definition CreateTree (leaves : list Node) : option Node :=
  CreateTree_fuel (S (length leaves)) leaves.

(** [GetInclusionProof] on a non-nil [root], after the index check; the
    recursive calls on [root.Left] and [root.Right] are written through
    [call], the function on pointers. *)
Fixpoint GetInclusionProof_at (root : Node) (n m : Z) {struct root}
    : result InclusionProof :=
  let call (p : option Node) (n m : Z) : result InclusionProof :=
    if m >=? n then Err IndexOutOfRange_gen
    else match p with
         | None => Panic
         | Some x => GetInclusionProof_at x n m
         end in
  if n =? 1 then
    Ok {| LeafIndex := m; TreeSize := n;
          ProofNonce := Nonce root; Proof_ := [] |}
  else
    let k := flp2 n in
    if m <? k then
      match Right root with
      | None => Err TreeSizeMismatch
      | Some rnode =>
          ip <- call (Left root) k m ;;
          Ok {| LeafIndex := m; TreeSize := n;
                ProofNonce := ProofNonce ip;
                Proof_ := Proof_ ip ++ [Hash rnode] |}
      end
    else
      match Left root with
      | None => Err TreeSizeMismatch
      | Some lnode =>
          ip <- call (Right root) (u64 (n - k)) (u64 (m - k)) ;;
          Ok {| LeafIndex := m; TreeSize := n;
                ProofNonce := ProofNonce ip;
                Proof_ := Proof_ ip ++ [Hash lnode] |}
      end.

Definition GetInclusionProof (root : option Node) (n m : Z)
    : result InclusionProof :=
  if m >=? n then Err IndexOutOfRange_gen
  else match root with
       | None => Panic
       | Some x => GetInclusionProof_at x n m
       end.

Fixpoint GetLeaf_at (root : Node) (n m : Z) {struct root} : result Node :=
  let call (p : option Node) (n m : Z) : result Node :=
    if m >=? n then Err IndexOutOfRange_gen
    else match p with
         | None => Panic
         | Some x => GetLeaf_at x n m
         end in
  if n =? 1 then Ok root
  else
    let k := flp2 n in
    if m <? k then
      match Right root with
      | None => Err TreeSizeMismatch
      | Some _ => call (Left root) k m
      end
    else
      match Left root with
      | None => Err TreeSizeMismatch
      | Some _ => call (Right root) (u64 (n - k)) (u64 (m - k))
      end.

Definition GetLeaf (root : option Node) (n m : Z) : result Node :=
  if m >=? n then Err IndexOutOfRange_gen
  else match root with
       | None => Panic
       | Some x => GetLeaf_at x n m
       end.

(** The state of the verifier's loop. *)
Record fold_state : Type := mkState {
  st_fn : Z;
  st_sn : Z;
  st_r : bytes
}.

(** One iteration of [for _, p := range proof.Proof]. *)
Definition fold_step (p : bytes) (s : fold_state) : result fold_state :=
  let '(mkState fn sn r) := s in
  if sn =? 0 then Err ProofSizeMismatch
  else
    let '(mkState fn sn r) :=
      if (Z.land fn 1 =? 1) || (fn =? sn) then
        let r := node_hash p r in
        let '(fn, sn) := shift_while fn sn in
        mkState fn sn r
      else
        mkState fn sn (node_hash r p) in
    Ok (mkState (Z.shiftr fn 1) (Z.shiftr sn 1) r).

Fixpoint fold_path (path : list bytes) (s : fold_state) : result fold_state :=
  match path with
  | [] => Ok s
  | p :: path => s <- fold_step p s ;; fold_path path s
  end.

Definition CalcInclusionProof (proof : InclusionProof) (reader : Reader)
    : result bytes :=
  leafHash <- HashLeaf reader (ProofNonce proof) ;;
  if LeafIndex proof >=? TreeSize proof then Err IndexOutOfRange_calc
  else
    let fn := LeafIndex proof in
    let sn := u64 (TreeSize proof - 1) in
    let r := leafHash in
    s <- fold_path (Proof_ proof) (mkState fn sn r) ;;
    if negb (st_sn s =? 0) then Err ProofSizeMismatch
    else Ok (st_r s).

End Merkle.

(** ** Notions the properties are stated with *)

(** [covers x w y]: bit [i] of [y] is set exactly when one of the [w] bits
    of [x] from position [i] upwards is. *)
Definition covers (x w y : Z) : Prop :=
  forall i, 0 <= i ->
    (Z.testbit y i = true <->
     exists d, 0 <= d < w /\ Z.testbit x (i + d) = true).

(** The six shift-and-or steps of [flp2]. *)
Definition smear (x : Z) : Z :=
  let x := Z.lor x (Z.shiftr x 1) in
  let x := Z.lor x (Z.shiftr x 2) in
  let x := Z.lor x (Z.shiftr x 4) in
  let x := Z.lor x (Z.shiftr x 8) in
  let x := Z.lor x (Z.shiftr x 16) in
  Z.lor x (Z.shiftr x 32).

(** Where the verifier stands when it enters the part of the path that
    belongs to a subtree of [n] leaves spanning [e] levels, [a] being the
    number of subtrees of that height to its left: either the subtree ends
    the tree ([sn] is its last leaf), or it is complete and [sn] lies
    beyond it. *)
Definition in_context (e n a sn : Z) : Prop :=
  sn = a * 2 ^ e + n - 1 \/ (n = 2 ^ e /\ a < sn / 2 ^ e).

Section Notions.

Context {digest : Digest}.

(** The internal node [CreateTree] builds over two subtrees. *)
Definition internal (lnode rnode : Node) : Node :=
  mkNode (node_hash (Hash lnode) (Hash rnode)) EmptyString
         (Some lnode) (Some rnode) None.

(** The proof generated for each leaf of a tree built by [CreateTree], and
    what the verifier's loop does with its path in any admissible context:
    it climbs the [e] levels of the subtree and arrives at the subtree's
    hash. *)
Definition audit_ok (leaves : list Node) (root : Node) : Prop :=
  let n := Z.of_nat (length leaves) in
  forall m leaf, nth_error leaves m = Some leaf ->
  exists path,
    GetInclusionProof (Some root) n (Z.of_nat m) =
      Ok {| LeafIndex := Z.of_nat m; TreeSize := n;
            ProofNonce := Nonce leaf; Proof_ := path |} /\
    forall a sn rest,
      0 <= a -> in_context (Z.log2_up n) n a sn ->
      fold_path (path ++ rest)
                (mkState (a * 2 ^ Z.log2_up n + Z.of_nat m) sn (Hash leaf)) =
      fold_path rest (mkState a (sn / 2 ^ Z.log2_up n) (Hash root)).

(** A node without children, as [CreateLeaf] makes them. *)
Definition childless (node : Node) : Prop :=
  Left node = None /\ Right node = None.

(** [descent_mismatch root n m]: the descent for index [m] in a tree of
    claimed size [n], started at [root], comes to a node, [root] or one
    below it, where it takes the left branch and the node has no right
    child, or takes the right branch and the node has no left child. At
    each node the claimed size is at least 2 and the index is below it;
    going left the size becomes [k = flp2 n], going right the size and
    the index become [n - k] and [m - k]. *)
Inductive descent_mismatch : Node -> Z -> Z -> Prop :=
| mismatch_left root n m :
    2 <= n -> m < n -> m < flp2 n ->
    Right root = None ->
    descent_mismatch root n m
| mismatch_right root n m :
    2 <= n -> m < n -> flp2 n <= m ->
    Left root = None ->
    descent_mismatch root n m
| mismatch_below_left root n m lnode rnode :
    2 <= n -> m < n -> m < flp2 n ->
    Left root = Some lnode -> Right root = Some rnode ->
    descent_mismatch lnode (flp2 n) m ->
    descent_mismatch root n m
| mismatch_below_right root n m lnode rnode :
    2 <= n -> m < n -> flp2 n <= m ->
    Left root = Some lnode -> Right root = Some rnode ->
    descent_mismatch rnode (u64 (n - flp2 n)) (u64 (m - flp2 n)) ->
    descent_mismatch root n m.

(** Every node has both children or none. *)
Inductive well_formed : Node -> Prop :=
| wf_childless h name nonce :
    well_formed (mkNode h name None None nonce)
| wf_internal h name lnode rnode nonce :
    well_formed lnode -> well_formed rnode ->
    well_formed (mkNode h name (Some lnode) (Some rnode) nonce).

(** "Repeatedly right-shift both [fn] and [sn] together while the lowest
    bit of [fn] is zero and [fn != 0]": [rfc_shift fn sn fn' sn'] relates
    the counters before and after. *)
Inductive rfc_shift : Z -> Z -> Z -> Z -> Prop :=
| rfc_shift_stop fn sn :
    Z.testbit fn 0 = true \/ fn = 0 ->
    rfc_shift fn sn fn sn
| rfc_shift_step fn sn fn' sn' :
    Z.testbit fn 0 = false -> fn <> 0 ->
    rfc_shift (Z.shiftr fn 1) (Z.shiftr sn 1) fn' sn' ->
    rfc_shift fn sn fn' sn'.

(** The fold as the specification words it: [rfc_fold fn sn r path res]
    holds when folding [path] from the counters [fn], [sn] and the running
    hash [r] ends in [res]. *)
Inductive rfc_fold : Z -> Z -> bytes -> list bytes -> result bytes -> Prop :=
| rfc_too_long fn r p path :
    (* a sibling is left and [sn == 0] *)
    rfc_fold fn 0 r (p :: path) (Err ProofSizeMismatch)
| rfc_sibling_left fn sn r p path fn' sn' res :
    (* the lowest bit of [fn] is set, or [fn == sn] *)
    sn <> 0 ->
    Z.testbit fn 0 = true \/ fn = sn ->
    rfc_shift fn sn fn' sn' ->
    rfc_fold (Z.shiftr fn' 1) (Z.shiftr sn' 1)
             (blake3_Sum256 ([x01] ++ p ++ r)) path res ->
    rfc_fold fn sn r (p :: path) res
| rfc_sibling_right fn sn r p path res :
    (* otherwise *)
    sn <> 0 ->
    Z.testbit fn 0 = false -> fn <> sn ->
    rfc_fold (Z.shiftr fn 1) (Z.shiftr sn 1)
             (blake3_Sum256 ([x01] ++ r ++ p)) path res ->
    rfc_fold fn sn r (p :: path) res
| rfc_too_short fn sn r :
    (* the path is consumed and [sn != 0] *)
    sn <> 0 ->
    rfc_fold fn sn r [] (Err ProofSizeMismatch)
| rfc_root fn r :
    rfc_fold fn 0 r [] (Ok r).

(** What [CalcInclusionProof] does after the index check. *)
Definition fold_and_check (fn sn : Z) (r : bytes) (path : list bytes)
    : result bytes :=
  s <- fold_path path (mkState fn sn r) ;;
  if negb (st_sn s =? 0) then Err ProofSizeMismatch else Ok (st_r s).

End Notions.

(** ** The tree hash and the audit path of RFC 9162

    [rfc_MTH] and [rfc_PATH] are the Merkle tree hash of section 2.1.1 and
    the inclusion path of section 2.1.3.1 as the RFC defines them, by
    recursion on the list, here the list of the leaves' hashes (the RFC's
    [HASH(0x00 || d)] of each entry). [rfc_k n] is the RFC's [k], the
    largest power of two smaller than [n]. *)

Definition rfc_k (n : nat) : nat := Z.to_nat (2 ^ Z.log2 (Z.of_nat n - 1)).

Ltac rfc_k_smaller n :=
  let H1 := fresh in
  let H2 := fresh in
  let H3 := fresh in
  assert (H1 : 0 < Z.of_nat n - 1) by (cbn [length]; lia);
  pose proof (Z.log2_spec _ H1) as H2;
  assert (H3 : 0 < 2 ^ Z.log2 (Z.of_nat n - 1))
    by (apply Z.pow_pos_nonneg; [lia | apply Z.log2_nonneg]);
  unfold rfc_k; cbn [length] in *; lia.

Section Rfc.

Context {digest : Digest}.

Equations? rfc_MTH (hs : list bytes) : bytes by wf (length hs) lt :=
  rfc_MTH [] := blake3_Sum256 [];
  rfc_MTH [h] := h;
  rfc_MTH hs :=
    blake3_Sum256 ([x01] ++ rfc_MTH (firstn (rfc_k (length hs)) hs)
                         ++ rfc_MTH (skipn (rfc_k (length hs)) hs)).
Proof.
  - subst hs. rewrite length_firstn. rfc_k_smaller (length (b :: b0 :: l)).
  - subst hs. rewrite length_skipn. rfc_k_smaller (length (b :: b0 :: l)).
Qed.

Equations? rfc_PATH (m : nat) (hs : list bytes) : list bytes
    by wf (length hs) lt :=
  rfc_PATH m [] := [];
  rfc_PATH m [h] := [];
  rfc_PATH m hs :=
    if (m <? rfc_k (length hs))%nat then
      rfc_PATH m (firstn (rfc_k (length hs)) hs)
        ++ [rfc_MTH (skipn (rfc_k (length hs)) hs)]
    else
      rfc_PATH (m - rfc_k (length hs)) (skipn (rfc_k (length hs)) hs)
        ++ [rfc_MTH (firstn (rfc_k (length hs)) hs)].
Proof.
  - subst hs. rewrite length_firstn. rfc_k_smaller (length (b :: b0 :: l)).
  - subst hs. rewrite length_skipn. rfc_k_smaller (length (b :: b0 :: l)).
Qed.

End Rfc.

(** Two byte strings with one digest. *)
Definition collision {digest : Digest} : Prop :=
  exists x y : bytes, x <> y /\ blake3_Sum256 x = blake3_Sum256 y.

(** A collision that is found in what was hashed: a string of [xs] and a
    different string of [ys] with one digest. *)
Definition collision_between {digest : Digest} (xs ys : list bytes) : Prop :=
  exists x y, In x xs /\ In y ys /\ x <> y /\
    blake3_Sum256 x = blake3_Sum256 y.

(** The strings [CreateTree] hashes for the nodes of a tree: for each node
    with two children, [0x01 || left.Hash || right.Hash]. *)
Fixpoint node_inputs (n : Node) : list bytes :=
  match Left n, Right n with
  | Some lnode, Some rnode =>
      ([x01] ++ Hash lnode ++ Hash rnode)
        :: node_inputs lnode ++ node_inputs rnode
  | _, _ => []
  end.

(** The strings the loop of [CalcInclusionProof] hashes, in order, on a
    path from a state: [0x01 || p || r] or [0x01 || r || p] at each
    sibling [p]. *)
Fixpoint fold_inputs {digest : Digest} (path : list bytes) (s : fold_state)
    : list bytes :=
  match path with
  | [] => []
  | p :: path =>
      match fold_step p s with
      | Ok s' =>
          (if (Z.land (st_fn s) 1 =? 1) || (st_fn s =? st_sn s)
           then [x01] ++ p ++ st_r s
           else [x01] ++ st_r s ++ p)
            :: fold_inputs path s'
      | _ => []
      end
  end.

(** The digest and the hashes of the leaves have [Blake3Size] bytes. *)
Definition digest_sized {digest : Digest} : Prop :=
  forall x, Z.of_nat (length (blake3_Sum256 x)) = Blake3Size.

Definition hash_sized (leaf : Node) : Prop :=
  Z.of_nat (length (Hash leaf)) = Blake3Size.

(** ** [GetLeaf], with the pointer it returns

    With [n == 1], [GetLeaf] returns its argument [root] without looking at
    it: a nil [root] comes back as a nil leaf with a nil error, where
    [GetInclusionProof] dereferences it for the nonce. [GetLeaf_ptr] is
    [GetLeaf] with the returned pointer as its value. [GetLeaf] above gives
    the node behind that pointer and has [Panic] where there is none; the
    two are related by [GetLeaf_ptr_GetLeaf] below. *)

Fixpoint GetLeaf_ptr_at (root : Node) (n m : Z) {struct root}
    : result (option Node) :=
  let call (p : option Node) (n m : Z) : result (option Node) :=
    if m >=? n then Err IndexOutOfRange_gen
    else if n =? 1 then Ok p
    else match p with
         | None => Panic
         | Some x => GetLeaf_ptr_at x n m
         end in
  if n =? 1 then Ok (Some root)
  else
    let k := flp2 n in
    if m <? k then
      match Right root with
      | None => Err TreeSizeMismatch
      | Some _ => call (Left root) k m
      end
    else
      match Left root with
      | None => Err TreeSizeMismatch
      | Some _ => call (Right root) (u64 (n - k)) (u64 (m - k))
      end.

Definition GetLeaf_ptr (root : option Node) (n m : Z)
    : result (option Node) :=
  if m >=? n then Err IndexOutOfRange_gen
  else if n =? 1 then Ok root
  else match root with
       | None => Panic
       | Some x => GetLeaf_ptr_at x n m
       end.

(** ** The tree in the DOT language ([dot.go])

    An [io.Writer] is a state with its [Write]; [fmt.Fprintf] and
    [fmt.Fprint] format their text and hand it to the writer in one
    [Write]. A method on a nil [*Node] that reads a field is [Panic]. *)

Class io_Writer (W : Type) : Type :=
  io_Write : W -> string -> W * option error.

(** A writer that keeps what it is given, one entry for each [Write], and
    never fails. *)
#[export] Instance chunks_Writer : io_Writer (list string) :=
  fun w s => (w ++ [s], None).

Definition dquote : string := String "034"%char EmptyString.
Definition newline : string := String "010"%char EmptyString.

(** The verb [%x] on a byte slice: two lower-case digits for each byte. *)
Definition hex_digit (d : nat) : ascii :=
  match d with
  | 0 => "0" | 1 => "1" | 2 => "2" | 3 => "3" | 4 => "4"
  | 5 => "5" | 6 => "6" | 7 => "7" | 8 => "8" | 9 => "9"
  | 10 => "a" | 11 => "b" | 12 => "c" | 13 => "d" | 14 => "e"
  | _ => "f"
  end%nat%char.

Definition hex_byte (b : byte) : string :=
  let n := Byte.to_nat b in
  String (hex_digit (n / 16)) (String (hex_digit (n mod 16)) EmptyString).

Fixpoint Sprintf_x (b : bytes) : string :=
  match b with
  | [] => EmptyString
  | x :: b => (hex_byte x ++ Sprintf_x b)%string
  end.

(** The text of [`"%s" -> "%s"`+"\n"] and of [`digraph "%x" {`+"\n"]. *)
Definition edge_line (a b : string) : string :=
  (dquote ++ a ++ dquote ++ " -> " ++ dquote ++ b ++ dquote ++ newline)%string.

Definition digraph_line (h : bytes) : string :=
  ("digraph " ++ dquote ++ Sprintf_x h ++ dquote ++ " {" ++ newline)%string.

Section Dot.

Context {W : Type} {writer : io_Writer W}.

(** The slice expression [h[:3]] on a hash of fewer than three bytes is
    decided by the capacity of [h], which a list does not have: it is a
    panic or three bytes that begin with [h]. [short_slice h] stands for
    it. *)
Variable short_slice : bytes -> result bytes.

Definition dotNodeName (n : Node) : result string :=
  h3 <- (if (3 <=? length (Hash n))%nat then Ok (firstn 3 (Hash n))
         else short_slice (Hash n)) ;;
  let name := Sprintf_x h3 in
  if (0 <? String.length (Name n))%nat then Ok (Name n) else Ok name.

(** [fmt.Fprintf(w, `"%s" -> "%s"`+"\n", n.dotNodeName(),
    child.dotNodeName())] and the check of its error. *)
Definition write_edge (n child : Node) (w : W) : W * result unit :=
  match dotNodeName n with
  | Panic => (w, Panic)
  | Err e => (w, Err e)
  | Ok a =>
      match dotNodeName child with
      | Panic => (w, Panic)
      | Err e => (w, Err e)
      | Ok b =>
          match io_Write w (edge_line a b) with
          | (w, Some err) => (w, Err err)
          | (w, None) => (w, Ok tt)
          end
      end
  end.

(** [if err != nil { return err }] between two steps. *)
Definition and_then (x : W * result unit) (f : W -> W * result unit)
    : W * result unit :=
  match x with
  | (w, Ok _) => f w
  | other => other
  end.

Fixpoint getDot (n : Node) (w : W) {struct n} : W * result unit :=
  and_then
    match Left n with
    | Some lnode => and_then (write_edge n lnode w) (getDot lnode)
    | None => (w, Ok tt)
    end
    (fun w =>
       match Right n with
       | Some rnode => and_then (write_edge n rnode w) (getDot rnode)
       | None => (w, Ok tt)
       end).

Definition DotGraph (n : option Node) (w : W) : W * result unit :=
  match n with
  | None => (w, Panic)
  | Some n =>
      match io_Write w (digraph_line (Hash n)) with
      | (w, Some err) => (w, Err err)
      | (w, None) =>
          and_then (getDot n w)
            (fun w =>
               match io_Write w "}"%string with
               | (w, Some err) => (w, Err err)
               | (w, None) => (w, Ok tt)
               end)
      end
  end.

End Dot.

(** What the graph is to show. [dot_name n] is the name of a node as the
    comment of [dotNodeName] has it: "a bit of the hash, unless it has a
    filename", the bit being the first three bytes in hexadecimal.
    [edges_of n] lists the pairs of a parent and a child in the tree under
    [n], depth first: the edge to the left child, the edges of the left
    subtree, the edge to the right child, the edges of the right subtree.
    [descendants n] lists the nodes below [n] in the same order. *)
Definition dot_name (n : Node) : string :=
  if (0 <? String.length (Name n))%nat then Name n
  else Sprintf_x (firstn 3 (Hash n)).

Fixpoint edges_of (n : Node) : list (Node * Node) :=
  match Left n with
  | Some lnode => (n, lnode) :: edges_of lnode
  | None => []
  end ++
  match Right n with
  | Some rnode => (n, rnode) :: edges_of rnode
  | None => []
  end.

Fixpoint descendants (n : Node) : list Node :=
  match Left n with
  | Some lnode => lnode :: descendants lnode
  | None => []
  end ++
  match Right n with
  | Some rnode => rnode :: descendants rnode
  | None => []
  end.

(** The line written for an edge. *)
Definition edge_text (e : Node * Node) : string :=
  edge_line (dot_name (fst e)) (dot_name (snd e)).

(** ** The command-line program (package [main])

    The commands of the program as functions of what they read from their
    environment: the tree or proof decoded from a file, the file a path
    opens, the values received from the workers' channels. *)

(** [map[string]uint64]: [m[k] = v] is [StringMap.add], [v, ok := m[k]] is
    [StringMap.find] and [len(m)] is [StringMap.cardinal]. *)
Module StringMap := FMapList.Make String_as_OT.
Module StringMapFacts := FMapFacts.WFacts_fun String_as_OT StringMap.
Module StringMapProps := FMapFacts.WProperties_fun String_as_OT StringMap.

(** [fmt.Errorf(prefix + "%w", err)]: the message of the error it makes. *)
Definition fmt_Errorf_w (prefix : string) (err : error) : error :=
  match err with
  | errors_New msg => errors_New (prefix ++ msg)
  end.

(** [bytes.Equal] *)
Definition bytes_Equal (a b : bytes) : bool :=
  if list_eq_dec byte_eq_dec a b then true else false.

(** [tree]; [CreatedAt] is an instant, as a number. *)
Record tree : Type := mkTree {
  Path : string;
  Files : StringMap.t Z;
  CreatedAt : Z;
  Root : option Node
}.

(** The files of trees and of proofs ([codec.go]): a header, then the
    CBOR encoding. *)
Definition fileVersion : byte := x01.
Definition fileMagicNumber : bytes := list_byte_of_string "merkdir".
Definition fileHeader : bytes := fileMagicNumber ++ [fileVersion].

Definition io_EOF : error := errors_New "EOF"%string.
Definition io_ErrUnexpectedEOF : error := errors_New "unexpected EOF"%string.

(** [io.ReadFull(f, buf)] for a buffer of [n] bytes: the bytes read and the
    reader after them; or the error of a reader that fails before it has
    delivered [n] bytes, [io.EOF] for one that ends with nothing read and
    [io.ErrUnexpectedEOF] for one that ends too early. *)
Definition io_ReadFull (f : Reader) (n : nat) : result (bytes * Reader) :=
  if (n <=? length (content f))%nat then
    Ok (firstn n (content f),
        {| content := skipn n (content f); failure := failure f |})
  else
    match failure f with
    | Some err => Err err
    | None =>
        match content f with
        | [] => Err io_EOF
        | _ => Err io_ErrUnexpectedEOF
        end
    end.

Section Codec.

(** The type written ([tree], or [merkle.InclusionProof] for
    [writeInclusionProof] and [readInclusionProof], which are the same
    code), and the CBOR encoder and decoder on it: [Encode t] is what the
    encoder writes to the file, [Decode f] what the decoder makes of the
    rest of the file. *)
Variable A : Type.
Variable Encode : A -> result bytes.
Variable Decode : Reader -> result A.

(** [writeTree]: [open] is the outcome of [os.OpenFile], [write] that of
    writing the header; the value is the content of the file written. *)
Definition writeTree (t : A) (open write : option error) : result bytes :=
  match open with
  | Some err => Err err
  | None =>
      match write with
      | Some err => Err err
      | None => enc <- Encode t ;; Ok (fileHeader ++ enc)
      end
  end.

(** [readTree]: [open] is the outcome of [os.Open]. *)
Definition readTree (open : result Reader) : result A :=
  f <- open ;;
  read <- io_ReadFull f (length fileHeader) ;;
  let '(header, f) := read in
  if negb (bytes_Equal header fileHeader) then
    Err (errors_New "invalid file header"%string)
  else Decode f.

End Codec.

Arguments writeTree {A} Encode t open write.
Arguments readTree {A} Decode open.

Definition writeInclusionProof := @writeTree InclusionProof.
Definition readInclusionProof := @readTree InclusionProof.

Definition genInclusionProof (t : tree) (name : string)
    : result InclusionProof :=
  match StringMap.find name (Files t) with
  | None => Err (errors_New "filename not found in tree"%string)
  | Some leafN =>
      let treeSize := u64 (Z.of_nat (StringMap.cardinal (Files t))) in
      match GetInclusionProof (Root t) treeSize leafN with
      | Err err => Err (fmt_Errorf_w "error calculating proof: "%string err)
      | Panic => Panic
      | Ok ip => Ok ip
      end
  end.

(** What the loop of [gen] receives in one turn of its [select]: a value
    from [errCh] (nil when all workers are done) or a leaf from [leafCh]. *)
Inductive received : Type :=
| from_errCh (err : option error)
| from_leafCh (leaf : Node).

(** The loop [outer] of [gen] over the values it receives, in the order it
    receives them, from the [leaves] and [files] it has so far. [None] is
    the loop waiting in [select] when the values end. *)
Fixpoint gen_outer (rs : list received) (leaves : list Node)
    (files : StringMap.t Z) : option (result (list Node * StringMap.t Z)) :=
  match rs with
  | [] => None
  | from_errCh None :: _ => Some (Ok (leaves, files))
  | from_errCh (Some err) :: _ => Some (Err err)
  | from_leafCh leaf :: rs =>
      let files :=
        StringMap.add (Name leaf) (u64 (Z.of_nat (length leaves))) files in
      let leaves := leaves ++ [leaf] in
      gen_outer rs leaves files
  end.

(** [indexes files leaves]: the keys of [files] are the names of [leaves];
    a name is mapped to the index of the last leaf that has it; so [files]
    has at most as many entries as there are leaves, and as many exactly
    when no two leaves share a name. *)
Definition indexes (files : StringMap.t Z) (leaves : list Node) : Prop :=
  (forall name, StringMap.In name files <-> In name (map Name leaves)) /\
  (forall name v, StringMap.find name files = Some v ->
     exists i, v = Z.of_nat i /\
       nth_error (map Name leaves) i = Some name /\
       forall j, (i < j)%nat -> nth_error (map Name leaves) j <> Some name) /\
  (StringMap.cardinal files <= length leaves)%nat /\
  (StringMap.cardinal files = length leaves <-> NoDup (map Name leaves)).

(** What a command prints. *)
Inductive printed : Type :=
| Println (line : string)
| Printf_x (b : bytes)
| Stdout_Write (b : bytes).

Section Main.

Context {digest : Digest}.

(** [gen], from the outcome [walk] of [fs.WalkDir] to the tree it hands to
    [writeTree]: [rs] are the values the loop receives, [abs] is the
    outcome of [filepath.Abs] and [startTime] the time of the start. *)
Definition gen (walk : option error) (rs : list received)
    (abs : result string) (startTime : Z) : option (result tree) :=
  match walk with
  | Some err => Some (Err err)
  | None =>
      match gen_outer rs [] (StringMap.empty Z) with
      | None => None
      | Some (Err err) => Some (Err err)
      | Some Panic => Some Panic
      | Some (Ok (leaves, files)) =>
          match abs with
          | Err err => Some (Err err)
          | Panic => Some Panic
          | Ok absPath =>
              match CreateTree leaves with
              | None => None
              | Some root =>
                  Some (Ok {| Path := absPath; Files := files;
                              CreatedAt := startTime; Root := Some root |})
              end
          end
      end
  end.

(** [verifyFile]: [t] is the outcome of [readTree], [open] the outcome of
    [os.Open] on the file of that name; the value is the line printed. *)
Definition verifyFile (t : result tree) (name : string)
    (open : result Reader) : result printed :=
  match t with
  | Err err => Err (fmt_Errorf_w "error reading or decoding file: "%string err)
  | Panic => Panic
  | Ok t =>
      match StringMap.find name (Files t) with
      | None =>
          Err (errors_New
                 "file with that name not found in Merkle tree"%string)
      | Some leafN =>
          match GetLeaf_ptr (Root t)
                  (u64 (Z.of_nat (StringMap.cardinal (Files t)))) leafN with
          | Err err =>
              Err (fmt_Errorf_w "error finding leaf in tree: "%string err)
          | Panic => Panic
          | Ok leaf =>
              f <- open ;;
              match leaf with
              | None => Panic
              | Some leaf =>
                  hash <- HashLeaf f (Nonce leaf) ;;
                  if bytes_Equal hash (Hash leaf) then
                    Ok (Println
                          "OK: file is still verified by this Merkle tree"%string)
                  else
                    Ok (Println
                          "NOT OK: file has changed and is not part of the Merkle tree"%string)
              end
          end
      end
  end.

(** [verifyInclusion]: [ip] is the outcome of [readInclusionProof], [open]
    the outcome of [os.Open], [hash] the outcome of [hex.DecodeString] on
    the flag [hash] when that flag is not empty, [hex] the flag [hex]. *)
Definition verifyInclusion (ip : result InclusionProof)
    (open : result Reader) (hash : option (result bytes)) (hex : bool)
    : result printed :=
  match ip with
  | Err err => Err (fmt_Errorf_w "error reading or decoding file: "%string err)
  | Panic => Panic
  | Ok ip =>
      f <- open ;;
      match CalcInclusionProof ip f with
      | Err err =>
          Err (fmt_Errorf_w "unexpected verification failure: "%string err)
      | Panic => Panic
      | Ok rootHash =>
          match hash with
          | Some (Err err) =>
              Err (fmt_Errorf_w
                     "failed to decode given hexadecimal hash: "%string err)
          | Some Panic => Panic
          | Some (Ok givenRootHash) =>
              if bytes_Equal givenRootHash rootHash then
                Ok (Println "OK: proof and file match given root hash"%string)
              else
                Ok (Println
                      "NOT OK: proof and file don't match given root hash"%string)
          | None =>
              if hex then Ok (Printf_x rootHash) else Ok (Stdout_Write rootHash)
          end
      end
  end.

End Main.

(** ** Sample data

    A stand-in digest (the identity, so that a hash shows what was hashed)
    and three files, to evaluate the definitions on concrete inputs. The
    theorems hold for every digest function. *)

Definition sample_digest : Digest := fun b => b.

Definition sample_leaf (name : string) (data nonce : bytes) : Node :=
  mkNode ([x00] ++ nonce ++ data) name None None (Some nonce).

Definition leaf_a : Node := sample_leaf "a"%string [x61] [x11].
Definition leaf_b : Node := sample_leaf "b"%string [x62] [x22].
Definition leaf_c : Node := sample_leaf "c"%string [x63] [x33].

Definition sample_leaves : list Node := [leaf_a; leaf_b; leaf_c].

Definition sample_tree : Node :=
  @internal sample_digest (@internal sample_digest leaf_a leaf_b) leaf_c.

(** A tree of two leaves, to be walked with a claimed size of four. *)
Definition two_leaf_tree : Node := @internal sample_digest leaf_a leaf_b.

(** The proof for "c" in [sample_tree], a proof whose index is out of
    range, and a reader that fails. *)
Definition sample_proof : InclusionProof :=
  {| LeafIndex := 2; TreeSize := 3; ProofNonce := Some [x33];
     Proof_ := [Hash (@internal sample_digest leaf_a leaf_b)] |}.


Definition failing_reader : Reader :=
  {| content := []; failure := Some (errors_New "unexpected EOF"%string) |}.

(** The leaves of [sample_leaves] without their names and nonces, and the
    tree over them; a fourth leaf under the name of the first. *)
Definition anonymous_leaves : list Node :=
  map (fun leaf => mkNode (Hash leaf) EmptyString None None None)
      sample_leaves.

Definition anonymous_tree : Node :=
  @internal sample_digest
    (@internal sample_digest
       (mkNode (Hash leaf_a) EmptyString None None None)
       (mkNode (Hash leaf_b) EmptyString None None None))
    (mkNode (Hash leaf_c) EmptyString None None None).

Definition leaf_a_again : Node := sample_leaf "a"%string [x64] [x44].

(** A digest of [Blake3Size] bytes that has collisions (it maps every
    input to zeros), leaves with hashes of that size, and the proof for
    the only leaf of a tree of one leaf. *)
Definition zero_digest : Digest := fun _ => repeat x00 32.

Definition zero_leaf (name : string) : Node :=
  mkNode (repeat x00 32) name None None (Some [x11]).

Definition single_proof : InclusionProof :=
  {| LeafIndex := 0; TreeSize := 1; ProofNonce := None; Proof_ := [] |}.

(** Under [zero_digest]: two leaves, their tree, and the proof for the
    first of them. *)
Definition zero_leaves : list Node :=
  [zero_leaf "a"%string; zero_leaf "b"%string].

Definition zero_tree : Node :=
  @internal zero_digest (zero_leaf "a"%string) (zero_leaf "b"%string).

Definition zero_proof : InclusionProof :=
  {| LeafIndex := 0; TreeSize := 2; ProofNonce := Some [x11];
     Proof_ := [repeat x00 32] |}.

(** * Properties *)

Example shift_while_12 : shift_while 12 29 = (3, 7).
Proof. reflexivity. Qed.

(** ** flp2 *)

Lemma covers_init x : covers x 1 x.
Proof.
  intros i Hi. split.
  - intros H. exists 0. split; [lia|]. now rewrite Z.add_0_r.
  - intros (d & Hd & H). replace (i + d) with i in H by lia. exact H.
Qed.

Lemma covers_double x w y :
  0 < w -> covers x w y -> covers x (2 * w) (Z.lor y (Z.shiftr y w)).
Proof.
  intros Hw Hc i Hi.
  rewrite Z.lor_spec, Z.shiftr_spec by lia.
  rewrite orb_true_iff, (Hc i Hi), (Hc (i + w)) by lia.
  split.
  - intros [(d & Hd & H) | (d & Hd & H)].
    + exists d. split; [lia | exact H].
    + exists (w + d). split; [lia|]. now rewrite Z.add_assoc.
  - intros (d & Hd & H).
    destruct (Z.lt_ge_cases d w) as [Hlt | Hge].
    + left. exists d. split; [lia | exact H].
    + right. exists (d - w). split; [lia|].
      now replace (i + w + (d - w)) with (i + d) by lia.
Qed.

Lemma smear_covers x : covers x 64 (smear x).
Proof.
  unfold smear.
  pose proof (covers_init x) as H0.
  apply (covers_double _ 1) in H0; [|lia].
  apply (covers_double _ 2) in H0; [|lia].
  apply (covers_double _ 4) in H0; [|lia].
  apply (covers_double _ 8) in H0; [|lia].
  apply (covers_double _ 16) in H0; [|lia].
  apply (covers_double _ 32) in H0; [|lia].
  exact H0.
Qed.

Lemma smear_ones x :
  1 <= x < 2 ^ 64 -> smear x = Z.ones (Z.log2 x + 1).
Proof.
  intros Hx.
  assert (HL : 0 <= Z.log2 x < 64).
  { split; [apply Z.log2_nonneg|]. apply Z.log2_lt_pow2; lia. }
  apply Z.bits_inj'. intros i Hi.
  pose proof (smear_covers x i Hi) as Hc.
  destruct (Z.le_gt_cases i (Z.log2 x)) as [Hle | Hgt].
  - rewrite Z.ones_spec_low by lia.
    apply Hc. exists (Z.log2 x - i). split; [lia|].
    replace (i + (Z.log2 x - i)) with (Z.log2 x) by lia.
    apply Z.bit_log2. lia.
  - rewrite Z.ones_spec_high by lia.
    destruct (Z.testbit (smear x) i) eqn:E; [|reflexivity].
    destruct Hc as [Hc _]. destruct (Hc eq_refl) as (d & Hd & Hb).
    rewrite Z.bits_above_log2 in Hb by lia. discriminate.
Qed.

Lemma flp2_smear x : flp2 x = u64 (smear (u64 (x - 1)) - Z.shiftr (smear (u64 (x - 1))) 1).
Proof. reflexivity. Qed.

Lemma flp2_eq n :
  2 <= n < 2 ^ 64 -> flp2 n = 2 ^ Z.log2 (n - 1).
Proof.
  intros Hn. rewrite flp2_smear.
  assert (Hx : u64 (n - 1) = n - 1) by (unfold u64; apply Z.mod_small; lia).
  rewrite Hx, smear_ones by lia.
  set (L := Z.log2 (n - 1)).
  assert (HL : 0 <= L < 64).
  { split; [apply Z.log2_nonneg|]. apply Z.log2_lt_pow2; lia. }
  rewrite Z.shiftr_div_pow2, !Z.ones_equiv, Z.pow_add_r by lia.
  change (2 ^ 1) with 2.
  assert (Hp : 0 < 2 ^ L) by (apply Z.pow_pos_nonneg; lia).
  assert (Hd : Z.pred (2 ^ L * 2) / 2 = 2 ^ L - 1).
  { symmetry. apply (Z.div_unique _ _ _ 1); lia. }
  rewrite Hd. unfold u64. rewrite Z.mod_small.
  - lia.
  - split; [lia|].
    assert (2 ^ L < 2 ^ 64) by (apply Z.pow_lt_mono_r; lia). lia.
Qed.

Lemma flp2_bounds n :
  2 <= n < 2 ^ 64 -> 0 < flp2 n /\ flp2 n < n /\ n <= 2 * flp2 n.
Proof.
  intros Hn. rewrite flp2_eq by exact Hn.
  pose proof (Z.log2_spec (n - 1) ltac:(lia)) as Hs.
  rewrite Z.pow_succ_r in Hs by apply Z.log2_nonneg.
  lia.
Qed.

(** C4. For every 64-bit [n >= 2], [flp2 n] is a power of two, lies
    strictly below [n] with [n <= 2 * flp2 n], is the largest power of two
    strictly below [n], is half of [n] when [n] is itself a power of two,
    and [flp2 3 = 2], [flp2 5 = 4]. *)
Theorem flp2_previous_power_of_two (n : Z) :
  2 <= n < 2 ^ 64 ->
  (exists j, 0 <= j /\ flp2 n = 2 ^ j) /\
  flp2 n < n <= 2 * flp2 n /\
  (forall j, 0 <= j -> 2 ^ j < n -> 2 ^ j <= flp2 n) /\
  (forall j, 0 <= j -> n = 2 ^ j -> 2 * flp2 n = n) /\
  flp2 3 = 2 /\ flp2 5 = 4.
Proof.
  intros Hn.
  pose proof (flp2_bounds n Hn) as Hb.
  pose proof (flp2_eq n Hn) as He.
  repeat split; try lia; try reflexivity.
  - exists (Z.log2 (n - 1)). split; [apply Z.log2_nonneg | exact He].
  - intros j Hj Hlt. rewrite He.
    apply Z.pow_le_mono_r; [lia|].
    apply Z.log2_le_pow2; lia.
  - intros j Hj Hp. rewrite He. subst n.
    assert (1 <= j).
    { destruct (Z.eq_dec j 0) as [-> | Hne]; [simpl in Hn; lia | lia]. }
    replace (2 ^ j - 1) with (Z.pred (2 ^ j)) by lia.
    rewrite Z.log2_pred_pow2 by lia.
    replace j with (Z.succ (Z.pred j)) at 2 by lia.
    rewrite Z.pow_succ_r by lia. reflexivity.
Qed.

Lemma flp2_previous_power_of_two_witness :
  (exists j, 0 <= j /\ flp2 8 = 2 ^ j) /\
  flp2 8 < 8 <= 2 * flp2 8 /\
  (forall j, 0 <= j -> 2 ^ j < 8 -> 2 ^ j <= flp2 8) /\
  (forall j, 0 <= j -> 8 = 2 ^ j -> 2 * flp2 8 = 8) /\
  flp2 3 = 2 /\ flp2 5 = 4.
Proof. apply (flp2_previous_power_of_two 8). lia. Defined.

(** ** CreateTree *)

Section Properties.

Context {digest : Digest}.

Lemma CreateTree_fuel_step fuel a b leaves :
  CreateTree_fuel (S fuel) (a :: b :: leaves) =
  match CreateTree_fuel fuel (firstn (split_at (a :: b :: leaves)) (a :: b :: leaves)),
        CreateTree_fuel fuel (skipn (split_at (a :: b :: leaves)) (a :: b :: leaves)) with
  | Some lnode, Some rnode => Some (internal lnode rnode)
  | _, _ => None
  end.
Proof. reflexivity. Qed.

Lemma split_at_bounds leaves :
  2 <= Z.of_nat (length leaves) < 2 ^ 64 ->
  Z.of_nat (split_at leaves) = flp2 (Z.of_nat (length leaves)) /\
  (0 < split_at leaves < length leaves)%nat.
Proof.
  intros Hn. unfold split_at, u64.
  rewrite Z.mod_small by lia.
  pose proof (flp2_bounds _ Hn) as Hb.
  split; lia.
Qed.

Lemma CreateTree_fuel_mono fuel :
  forall leaves t fuel',
    CreateTree_fuel fuel leaves = Some t -> (fuel <= fuel')%nat ->
    CreateTree_fuel fuel' leaves = Some t.
Proof.
  induction fuel as [|fuel IH]; intros leaves t fuel' Ht Hle; [discriminate|].
  destruct fuel' as [|fuel']; [lia|].
  destruct leaves as [|a [|b leaves]]; try exact Ht.
  rewrite CreateTree_fuel_step in *.
  destruct (CreateTree_fuel fuel (firstn _ _)) as [lnode|] eqn:El; [|discriminate].
  destruct (CreateTree_fuel fuel (skipn _ _)) as [rnode|] eqn:Er; [|discriminate].
  rewrite (IH _ _ fuel' El), (IH _ _ fuel' Er) by lia.
  exact Ht.
Qed.

Lemma CreateTree_fuel_total fuel :
  forall leaves,
    Z.of_nat (length leaves) < 2 ^ 64 -> (length leaves < fuel)%nat ->
    exists t, CreateTree_fuel fuel leaves = Some t.
Proof.
  induction fuel as [|fuel IH]; intros leaves Hn Hf; [lia|].
  destruct leaves as [|a [|b leaves]]; [eexists; reflexivity ..|].
  rewrite CreateTree_fuel_step.
  set (ls := a :: b :: leaves) in *.
  assert (H2 : 2 <= Z.of_nat (length ls) < 2 ^ 64) by (subst ls; cbn [length] in *; lia).
  destruct (split_at_bounds ls H2) as [_ Hk].
  destruct (IH (firstn (split_at ls) ls)) as [lnode ->].
  { rewrite length_firstn. lia. }
  { rewrite length_firstn. lia. }
  destruct (IH (skipn (split_at ls) ls)) as [rnode ->].
  { rewrite length_skipn. lia. }
  { rewrite length_skipn. lia. }
  eexists; reflexivity.
Qed.

(** With a slice of a length Go can represent, [CreateTree] returns, and a
    larger budget does not change what it returns. *)
Lemma CreateTree_total leaves :
  Z.of_nat (length leaves) < 2 ^ 64 -> exists t, CreateTree leaves = Some t.
Proof. intros Hn. apply CreateTree_fuel_total; [exact Hn | lia]. Qed.

Lemma CreateTree_fuel_enough fuel leaves :
  Z.of_nat (length leaves) < 2 ^ 64 -> (length leaves < fuel)%nat ->
  CreateTree_fuel fuel leaves = CreateTree leaves.
Proof.
  intros Hn Hf. destruct (CreateTree_total leaves Hn) as [t Ht].
  rewrite Ht. apply (CreateTree_fuel_mono _ _ _ _ Ht). lia.
Qed.

Lemma CreateTree_split leaves :
  2 <= Z.of_nat (length leaves) < 2 ^ 64 ->
  exists lnode rnode,
    CreateTree (firstn (split_at leaves) leaves) = Some lnode /\
    CreateTree (skipn (split_at leaves) leaves) = Some rnode /\
    CreateTree leaves = Some (internal lnode rnode).
Proof.
  intros Hn.
  destruct (split_at_bounds leaves Hn) as [_ Hk].
  assert (Hl : (length (firstn (split_at leaves) leaves) < length leaves)%nat)
    by (rewrite length_firstn; lia).
  assert (Hr : (length (skipn (split_at leaves) leaves) < length leaves)%nat)
    by (rewrite length_skipn; lia).
  destruct (CreateTree_total (firstn (split_at leaves) leaves)) as [lnode El]; [lia|].
  destruct (CreateTree_total (skipn (split_at leaves) leaves)) as [rnode Er]; [lia|].
  exists lnode, rnode. repeat split; try assumption.
  unfold CreateTree at 1.
  destruct leaves as [|a [|b leaves]]; [simpl in Hn; lia ..|].
  rewrite CreateTree_fuel_step.
  rewrite !CreateTree_fuel_enough by lia.
  rewrite El, Er. reflexivity.
Qed.

(** Induction over the trees [CreateTree] builds from non-empty slices. *)
Lemma CreateTree_built_ind (P : list Node -> Node -> Prop) :
  (forall leaf, P [leaf] leaf) ->
  (forall leaves lnode rnode,
      2 <= Z.of_nat (length leaves) < 2 ^ 64 ->
      CreateTree (firstn (split_at leaves) leaves) = Some lnode ->
      CreateTree (skipn (split_at leaves) leaves) = Some rnode ->
      P (firstn (split_at leaves) leaves) lnode ->
      P (skipn (split_at leaves) leaves) rnode ->
      P leaves (internal lnode rnode)) ->
  forall leaves root,
    1 <= Z.of_nat (length leaves) < 2 ^ 64 ->
    CreateTree leaves = Some root -> P leaves root.
Proof.
  intros Hleaf Hnode leaves.
  remember (length leaves) as len eqn:Hlen.
  revert leaves Hlen.
  induction len as [len IH] using lt_wf_ind.
  intros leaves Hlen root Hn Hroot.
  destruct leaves as [|a [|b leaves]].
  - simpl in Hlen. lia.
  - injection Hroot as <-. apply Hleaf.
  - set (ls := a :: b :: leaves) in *.
    assert (H2 : 2 <= Z.of_nat (length ls) < 2 ^ 64) by (subst ls; cbn [length] in *; lia).
    destruct (CreateTree_split ls H2) as (lnode & rnode & El & Er & E).
    destruct (split_at_bounds ls H2) as [_ Hk].
    rewrite E in Hroot. injection Hroot as <-.
    apply Hnode; try assumption.
    + apply (IH (length (firstn (split_at ls) ls))); try reflexivity; try assumption;
        rewrite length_firstn; lia.
    + apply (IH (length (skipn (split_at ls) ls))); try reflexivity; try assumption;
        rewrite length_skipn; lia.
Qed.

(** ** The verifier's loop *)

Lemma shift_while_eq fn sn :
  shift_while fn sn =
  if shift_cond fn then shift_while (Z.shiftr fn 1) (Z.shiftr sn 1)
  else (fn, sn).
Proof.
  rewrite shift_while_equation_1.
  destruct (bool_dec (shift_cond fn) true) as [H | H]; simpl.
  - rewrite H. reflexivity.
  - apply not_true_is_false in H. rewrite H. reflexivity.
Qed.

Lemma land_1_mod fn : Z.land fn 1 = fn mod 2.
Proof. change 1 with (Z.ones 1). rewrite Z.land_ones by lia. reflexivity. Qed.

Lemma shiftr_1_div x : Z.shiftr x 1 = x / 2.
Proof. rewrite Z.shiftr_div_pow2 by lia. reflexivity. Qed.

Lemma shift_cond_odd fn : fn mod 2 = 1 -> shift_cond fn = false.
Proof.
  intros H. unfold shift_cond. rewrite land_1_mod, H. reflexivity.
Qed.

Lemma shift_cond_even fn :
  fn mod 2 = 0 -> fn <> 0 -> shift_cond fn = true.
Proof.
  intros H Hn. unfold shift_cond. rewrite land_1_mod, H.
  apply Z.eqb_neq in Hn. rewrite Hn. reflexivity.
Qed.

Lemma shift_while_odd fn sn : fn mod 2 = 1 -> shift_while fn sn = (fn, sn).
Proof.
  intros H. rewrite shift_while_eq, shift_cond_odd by exact H. reflexivity.
Qed.

(** From [q * 2^t] with [q] odd the inner loop removes exactly the [t]
    trailing zero bits, from both counters. *)
Lemma shift_while_pow2 t :
  0 <= t -> forall q sn, q mod 2 = 1 ->
  shift_while (q * 2 ^ t) sn = (q, sn / 2 ^ t).
Proof.
  intros Ht. pattern t. apply natlike_ind; [| | exact Ht]; clear t Ht.
  - intros q sn Hq. rewrite Z.pow_0_r, Z.mul_1_r, Z.div_1_r.
    apply shift_while_odd, Hq.
  - intros t Ht IH q sn Hq.
    rewrite Z.pow_succ_r by exact Ht.
    assert (Hp : 0 < 2 ^ t) by (apply Z.pow_pos_nonneg; lia).
    assert (Hq0 : q <> 0) by (intros ->; discriminate Hq).
    rewrite shift_while_eq, shift_cond_even.
    + rewrite !shiftr_1_div.
      replace (q * (2 * 2 ^ t)) with (q * 2 ^ t * 2) by ring.
      rewrite Z.div_mul by lia.
      rewrite IH by exact Hq.
      rewrite Z.div_div by lia. reflexivity.
    + replace (q * (2 * 2 ^ t)) with (q * 2 ^ t * 2) by ring.
      apply Z.mod_mul. lia.
    + nia.
Qed.

Lemma fold_path_app p1 p2 s :
  fold_path (p1 ++ p2) s = (s' <- fold_path p1 s ;; fold_path p2 s').
Proof.
  revert s. induction p1 as [|p p1 IH]; intros s; simpl.
  - reflexivity.
  - destruct (fold_step p s) as [s'| |]; simpl; [apply IH | reflexivity ..].
Qed.

(** The sibling is on the right: [fn] is even and is not the last node. *)
Lemma fold_step_right p fn sn r :
  fn mod 2 = 0 -> fn <> sn -> sn <> 0 ->
  fold_step p (mkState fn sn r) = Ok (mkState (fn / 2) (sn / 2) (node_hash r p)).
Proof.
  intros He Hne Hs. unfold fold_step.
  apply Z.eqb_neq in Hs. rewrite Hs.
  apply Z.eqb_neq in Hne. rewrite Hne.
  rewrite land_1_mod, He. simpl.
  rewrite !shiftr_1_div. reflexivity.
Qed.

(** The sibling is on the left and [fn] is odd: no level is skipped. *)
Lemma fold_step_left_odd p fn sn r :
  fn mod 2 = 1 -> sn <> 0 ->
  fold_step p (mkState fn sn r) = Ok (mkState (fn / 2) (sn / 2) (node_hash p r)).
Proof.
  intros Ho Hs. unfold fold_step.
  apply Z.eqb_neq in Hs. rewrite Hs.
  rewrite land_1_mod, Ho. simpl.
  rewrite shift_while_odd by exact Ho.
  rewrite !shiftr_1_div. reflexivity.
Qed.

(** The node is the last one of its level, [fn = sn = q * 2^t] with [q]
    odd: it is combined with the sibling on its left and the [t] levels
    on which it has no sibling are skipped. *)
Lemma fold_step_left_last p q t r :
  0 <= t -> q mod 2 = 1 -> 0 <= q ->
  fold_step p (mkState (q * 2 ^ t) (q * 2 ^ t) r) =
  Ok (mkState (q / 2) (q / 2) (node_hash p r)).
Proof.
  intros Ht Ho Hq. unfold fold_step.
  assert (Hp : 0 < 2 ^ t) by (apply Z.pow_pos_nonneg; lia).
  assert (Hq0 : q <> 0) by (intros ->; discriminate Ho).
  assert (Hs : q * 2 ^ t <> 0) by nia.
  apply Z.eqb_neq in Hs. rewrite Hs.
  rewrite Z.eqb_refl, orb_true_r.
  rewrite shift_while_pow2 by assumption.
  rewrite Z.div_mul by lia.
  rewrite !shiftr_1_div. reflexivity.
Qed.

(** ** The descents *)

(** The body of [GetInclusionProof] as the source has it, its recursive
    calls being calls of [GetInclusionProof] on the child pointers. *)
Lemma GetInclusionProof_at_eq root n m :
  GetInclusionProof_at root n m =
  if n =? 1 then
    Ok {| LeafIndex := m; TreeSize := n;
          ProofNonce := Nonce root; Proof_ := [] |}
  else
    let k := flp2 n in
    if m <? k then
      match Right root with
      | None => Err TreeSizeMismatch
      | Some rnode =>
          ip <- GetInclusionProof (Left root) k m ;;
          Ok {| LeafIndex := m; TreeSize := n;
                ProofNonce := ProofNonce ip;
                Proof_ := Proof_ ip ++ [Hash rnode] |}
      end
    else
      match Left root with
      | None => Err TreeSizeMismatch
      | Some lnode =>
          ip <- GetInclusionProof (Right root) (u64 (n - k)) (u64 (m - k)) ;;
          Ok {| LeafIndex := m; TreeSize := n;
                ProofNonce := ProofNonce ip;
                Proof_ := Proof_ ip ++ [Hash lnode] |}
      end.
Proof. destruct root; reflexivity. Qed.

Lemma GetLeaf_at_eq root n m :
  GetLeaf_at root n m =
  if n =? 1 then Ok root
  else
    let k := flp2 n in
    if m <? k then
      match Right root with
      | None => Err TreeSizeMismatch
      | Some _ => GetLeaf (Left root) k m
      end
    else
      match Left root with
      | None => Err TreeSizeMismatch
      | Some _ => GetLeaf (Right root) (u64 (n - k)) (u64 (m - k))
      end.
Proof. destruct root; reflexivity. Qed.

Lemma GetInclusionProof_Some root n m :
  m < n -> GetInclusionProof (Some root) n m = GetInclusionProof_at root n m.
Proof.
  intros H. unfold GetInclusionProof.
  destruct (Z.geb_spec m n); [lia | reflexivity].
Qed.

Lemma GetLeaf_Some root n m :
  m < n -> GetLeaf (Some root) n m = GetLeaf_at root n m.
Proof.
  intros H. unfold GetLeaf.
  destruct (Z.geb_spec m n); [lia | reflexivity].
Qed.

(** What the slices of a split hold. *)
Lemma nth_error_split (leaves : list Node) (k m : nat) (leaf : Node) :
  nth_error leaves m = Some leaf ->
  ((m < k)%nat -> nth_error (firstn k leaves) m = Some leaf) /\
  ((k <= m)%nat -> nth_error (skipn k leaves) (m - k) = Some leaf).
Proof.
  intros H. split; intros Hk.
  - rewrite nth_error_firstn.
    destruct (Nat.ltb_spec m k); [exact H | lia].
  - rewrite nth_error_skipn. replace (k + (m - k))%nat with m by lia. exact H.
Qed.

(** The descent of [GetLeaf] over a tree built by [CreateTree]. *)
Lemma GetLeaf_built leaves root :
  1 <= Z.of_nat (length leaves) < 2 ^ 64 ->
  CreateTree leaves = Some root ->
  forall m leaf, nth_error leaves m = Some leaf ->
    GetLeaf (Some root) (Z.of_nat (length leaves)) (Z.of_nat m) = Ok leaf.
Proof.
  intros Hn Hroot. revert leaves root Hn Hroot.
  apply (CreateTree_built_ind
           (fun leaves root => forall m leaf, nth_error leaves m = Some leaf ->
              GetLeaf (Some root) (Z.of_nat (length leaves)) (Z.of_nat m) = Ok leaf)).
  - intros leaf0 m leaf H.
    destruct m as [|m]; [|destruct m; discriminate H].
    injection H as <-.
    rewrite GetLeaf_Some, GetLeaf_at_eq by (cbn; lia). reflexivity.
  - intros leaves lnode rnode Hn El Er IHl IHr m leaf Hm.
    assert (Hlt : (m < length leaves)%nat) by (apply nth_error_Some; congruence).
    destruct (split_at_bounds leaves Hn) as [Hk Hkb].
    destruct (nth_error_split leaves (split_at leaves) m leaf Hm) as [Hfst Hskp].
    rewrite GetLeaf_Some, GetLeaf_at_eq by lia.
    destruct (Z.eqb_spec (Z.of_nat (length leaves)) 1) as [E1 | _]; [lia|].
    cbv zeta. rewrite <- Hk. cbn [Left Right internal].
    destruct (Z.ltb_spec (Z.of_nat m) (Z.of_nat (split_at leaves))) as [Hlo | Hhi].
    + specialize (IHl m leaf (Hfst ltac:(lia))).
      rewrite length_firstn in IHl.
      replace (Nat.min (split_at leaves) (length leaves)) with (split_at leaves) in IHl by lia.
      exact IHl.
    + specialize (IHr (m - split_at leaves)%nat leaf (Hskp ltac:(lia))).
      rewrite length_skipn in IHr.
      unfold u64. rewrite !Z.mod_small by lia.
      rewrite !Nat2Z.inj_sub in IHr by lia.
      exact IHr.
Qed.

(** ** Audit paths *)

Lemma pow2_pos e : 0 <= e -> 0 < 2 ^ e.
Proof. intros H. apply Z.pow_pos_nonneg; lia. Qed.

Lemma div_pow2_block a e c :
  0 <= e -> 0 <= c < 2 ^ e -> (a * 2 ^ e + c) / 2 ^ e = a.
Proof.
  intros He Hc. pose proof (pow2_pos e He).
  rewrite Z.add_comm, Z.div_add by lia.
  rewrite Z.div_small by lia. lia.
Qed.

Lemma div_pow2_succ x j : 0 <= j -> x / 2 ^ j / 2 = x / 2 ^ (j + 1).
Proof.
  intros Hj. pose proof (pow2_pos j Hj).
  rewrite Z.div_div by lia.
  rewrite Z.pow_add_r by lia. reflexivity.
Qed.

(** The levels of a tree of [n >= 2] leaves: one more than those of its
    left subtree, which has [flp2 n = 2^j] leaves. *)
Lemma levels_split n :
  2 <= n < 2 ^ 64 ->
  exists j, 0 <= j /\ flp2 n = 2 ^ j /\ Z.log2_up n = j + 1 /\
            2 ^ j < n <= 2 ^ (j + 1).
Proof.
  intros Hn. exists (Z.log2 (n - 1)).
  pose proof (Z.log2_nonneg (n - 1)) as Hj.
  pose proof (Z.log2_spec (n - 1) ltac:(lia)) as Hs.
  rewrite <- Z.add_1_r in Hs.
  repeat split; try lia.
  - apply flp2_eq, Hn.
  - rewrite Z.log2_up_eqn by lia.
    replace (Z.pred n) with (n - 1) by lia. lia.
Qed.

Lemma levels_bound n : 1 <= n -> 0 <= Z.log2_up n /\ n <= 2 ^ Z.log2_up n.
Proof.
  intros Hn. split; [apply Z.log2_up_nonneg|].
  apply Z.log2_log2_up_spec. lia.
Qed.

Lemma in_context_left j n a sn :
  0 <= j -> 0 <= a -> 2 ^ j < n <= 2 ^ (j + 1) ->
  in_context (j + 1) n a sn -> 2 * a < sn / 2 ^ j.
Proof.
  intros Hj Ha Hn Hc. pose proof (pow2_pos j Hj) as Hp.
  unfold in_context in Hc.
  rewrite Z.pow_add_r, Z.pow_1_r in * by lia.
  assert (Hlow : 2 ^ j * (2 * a + 1) <= sn).
  { destruct Hc as [-> | [_ Hlt]]; [nia|].
    pose proof (Z.mul_div_le sn (2 ^ j * 2) ltac:(lia)). nia. }
  apply Z.div_le_lower_bound in Hlow; lia.
Qed.

Lemma in_context_right_complete j a sn :
  0 <= j -> 0 <= a -> a < sn / 2 ^ (j + 1) -> 2 * a + 1 < sn / 2 ^ j.
Proof.
  intros Hj Ha Hlt. pose proof (pow2_pos j Hj) as Hp.
  rewrite Z.pow_add_r, Z.pow_1_r in * by lia.
  assert (Hlow : 2 ^ j * (2 * a + 2) <= sn).
  { pose proof (Z.mul_div_le sn (2 ^ j * 2) ltac:(lia)). nia. }
  apply Z.div_le_lower_bound in Hlow; lia.
Qed.

Lemma audit_ok_leaf leaf : audit_ok [leaf] leaf.
Proof.
  unfold audit_ok. intros m leaf' H.
  destruct m as [|m]; [|destruct m; discriminate H].
  injection H as <-. exists []. split.
  - rewrite GetInclusionProof_Some, GetInclusionProof_at_eq by (cbn; lia).
    reflexivity.
  - intros a sn rest Ha Hc. cbn [length app].
    change (Z.log2_up (Z.of_nat 1)) with 0.
    rewrite Z.pow_0_r, Z.div_1_r. f_equal. f_equal. cbn. lia.
Qed.

Lemma audit_ok_node leaves lnode rnode :
  2 <= Z.of_nat (length leaves) < 2 ^ 64 ->
  audit_ok (firstn (split_at leaves) leaves) lnode ->
  audit_ok (skipn (split_at leaves) leaves) rnode ->
  audit_ok leaves (internal lnode rnode).
Proof.
  intros Hn IHl IHr. unfold audit_ok. intros m leaf Hm.
  set (n := Z.of_nat (length leaves)) in *.
  assert (Hlt : (m < length leaves)%nat) by (apply nth_error_Some; congruence).
  destruct (split_at_bounds leaves Hn) as [Hk Hkb].
  destruct (nth_error_split leaves (split_at leaves) m leaf Hm) as [Hfst Hskp].
  destruct (levels_split n Hn) as (j & Hj & Hf & He & Hjn).
  pose proof (pow2_pos j Hj) as Hp.
  assert (Hlenl : Z.of_nat (length (firstn (split_at leaves) leaves)) = 2 ^ j).
  { rewrite length_firstn. fold n in Hk. lia. }
  assert (Hlenr : Z.of_nat (length (skipn (split_at leaves) leaves)) = n - 2 ^ j).
  { rewrite length_skipn. fold n in Hk. subst n. lia. }
  unfold audit_ok in IHl, IHr. cbv zeta in IHl, IHr.
  rewrite Hlenl in IHl. rewrite Hlenr in IHr.
  rewrite Z.log2_up_pow2 in IHl by exact Hj.
  fold n in Hk. rewrite Hf in Hk.
  rewrite GetInclusionProof_Some, GetInclusionProof_at_eq by (subst n; lia).
  destruct (Z.eqb_spec n 1) as [E1 | _]; [lia|].
  cbv zeta. rewrite Hf. cbn [Left Right internal].
  destruct (Z.ltb_spec (Z.of_nat m) (2 ^ j)) as [Hlo | Hhi].
  - (* the leaf is in the left subtree *)
    destruct (IHl m leaf (Hfst ltac:(lia))) as (pl & Hpl & Hfold).
    rewrite Hpl. cbn [bind ProofNonce Proof_].
    eexists. split; [reflexivity|].
    intros a sn rest Ha Hc. rewrite He in *.
    rewrite <- app_assoc.
    replace (a * 2 ^ (j + 1) + Z.of_nat m) with (2 * a * 2 ^ j + Z.of_nat m)
      by (rewrite Z.pow_add_r, Z.pow_1_r by lia; ring).
    pose proof (in_context_left j n a sn Hj Ha Hjn Hc) as Hsn.
    rewrite Hfold; [| lia | right; split; [reflexivity | exact Hsn]].
    cbn [app fold_path].
    rewrite fold_step_right; [| | lia | lia].
    + cbn [bind]. rewrite div_pow2_succ by exact Hj.
      replace (2 * a / 2) with a by (rewrite Z.mul_comm, Z.div_mul; lia).
      reflexivity.
    + rewrite Z.mul_comm. apply Z.mod_mul. lia.
  - (* the leaf is in the right subtree *)
    unfold u64. rewrite !Z.mod_small by (subst n; lia).
    assert (Hn' : 1 <= n - 2 ^ j) by lia.
    destruct (levels_bound (n - 2 ^ j) Hn') as [He0 Hle].
    set (e' := Z.log2_up (n - 2 ^ j)) in *.
    assert (He'j : e' <= j).
    { apply Z.log2_up_le_pow2; rewrite Z.pow_add_r, Z.pow_1_r in Hjn; lia. }
    specialize (IHr (m - split_at leaves)%nat leaf (Hskp ltac:(lia))).
    rewrite Nat2Z.inj_sub, Hk in IHr by lia.
    destruct IHr as (pr & Hpr & Hfold).
    rewrite Hpr. cbn [bind ProofNonce Proof_].
    eexists. split; [reflexivity|].
    intros a sn rest Ha Hc. rewrite He in *.
    rewrite <- app_assoc.
    assert (Hsplit : 2 ^ (j - e') * 2 ^ e' = 2 ^ j).
    { rewrite <- Z.pow_add_r by lia. f_equal. lia. }
    pose proof (pow2_pos e' He0) as Hpe.
    pose proof (pow2_pos (j - e') ltac:(lia)) as Hpt.
    assert (Hpj : 2 ^ (j + 1) = 2 * 2 ^ j)
      by (rewrite Z.pow_add_r, Z.pow_1_r by lia; ring).
    replace (a * 2 ^ (j + 1) + Z.of_nat m)
      with ((2 * a + 1) * 2 ^ (j - e') * 2 ^ e' + (Z.of_nat m - 2 ^ j)) by nia.
    destruct Hc as [Hlast | [Hfull Hbeyond]].
    + (* the subtree ends the tree *)
      rewrite Hfold; [| nia | left; nia].
      assert (Hdiv : sn / 2 ^ e' = (2 * a + 1) * 2 ^ (j - e')).
      { replace sn with ((2 * a + 1) * 2 ^ (j - e') * 2 ^ e' + (n - 2 ^ j - 1)) by nia.
        apply div_pow2_block; lia. }
      rewrite Hdiv. cbn [app fold_path].
      rewrite fold_step_left_last; [| lia | | lia].
      * cbn [bind].
        replace ((2 * a + 1) / 2) with a
          by (apply (Z.div_unique _ _ _ 1); lia).
        replace (sn / 2 ^ (j + 1)) with a; [reflexivity|].
        symmetry. subst sn. replace (a * 2 ^ (j + 1) + n - 1)
          with (a * 2 ^ (j + 1) + (n - 1)) by lia.
        apply div_pow2_block; lia.
      * rewrite Z.add_comm, Z.mul_comm, Z.mod_add by lia. reflexivity.
    + (* the subtree is complete and the tree goes on *)
      assert (Hej : e' = j).
      { subst e'. replace (n - 2 ^ j) with (2 ^ j) by lia.
        apply Z.log2_up_pow2, Hj. }
      rewrite Hej in *. rewrite Z.sub_diag, Z.pow_0_r, Z.mul_1_r in *.
      pose proof (in_context_right_complete j a sn Hj Ha Hbeyond) as Hsn.
      rewrite Hfold; [| lia | right; split; [lia | exact Hsn]].
      cbn [app fold_path].
      rewrite fold_step_left_odd; [| | lia].
      * cbn [bind]. rewrite div_pow2_succ by exact Hj.
        replace ((2 * a + 1) / 2) with a
          by (apply (Z.div_unique _ _ _ 1); lia).
        reflexivity.
      * rewrite Z.add_comm, Z.mul_comm, Z.mod_add by lia. reflexivity.
Qed.

Lemma audit_path_built leaves root :
  1 <= Z.of_nat (length leaves) < 2 ^ 64 ->
  CreateTree leaves = Some root -> audit_ok leaves root.
Proof.
  revert leaves root. apply CreateTree_built_ind.
  - apply audit_ok_leaf.
  - intros leaves lnode rnode Hn _ _. apply audit_ok_node, Hn.
Qed.

(** ** The claims about construction, location and round trip *)

Lemma node_hash_eq (lhash rhash : bytes) :
  node_hash lhash rhash = blake3_Sum256 ([x01] ++ lhash ++ rhash).
Proof. reflexivity. Qed.

(** C3. [CreateTree] is a function of the ordered leaf list alone (the
    recursion budget of the embedding does not show in its result), and it
    is the RFC 9162 construction: no leaf gives the empty-tree node, one leaf
    is its own root, and [n >= 2] leaves give the node over the trees of the
    first [flp2 n] leaves and of the others, hashed as
    [0x01 || left.hash || right.hash]. *)
Theorem CreateTree_spec (leaves : list Node) :
  Z.of_nat (length leaves) < 2 ^ 64 ->
  (forall fuel, (length leaves < fuel)%nat ->
     CreateTree_fuel fuel leaves = CreateTree leaves) /\
  match leaves with
  | [] =>
      CreateTree leaves =
      Some (mkNode (blake3_Sum256 []) EmptyString None None None)
  | [leaf] => CreateTree leaves = Some leaf
  | _ =>
      let k := Z.to_nat (flp2 (Z.of_nat (length leaves))) in
      exists lnode rnode,
        CreateTree (firstn k leaves) = Some lnode /\
        CreateTree (skipn k leaves) = Some rnode /\
        CreateTree leaves =
        Some (mkNode (blake3_Sum256 ([x01] ++ Hash lnode ++ Hash rnode))
                     EmptyString (Some lnode) (Some rnode) None)
  end.
Proof.
  intros Hn. split.
  - intros fuel Hf. apply CreateTree_fuel_enough; assumption.
  - destruct leaves as [|a [|b leaves]]; [reflexivity ..|].
    set (ls := a :: b :: leaves) in *.
    assert (H2 : 2 <= Z.of_nat (length ls) < 2 ^ 64)
      by (subst ls; cbn [length] in *; lia).
    destruct (CreateTree_split ls H2) as (lnode & rnode & El & Er & E).
    destruct (split_at_bounds ls H2) as [Hk _].
    cbv zeta. rewrite <- Hk, Nat2Z.id.
    exists lnode, rnode. repeat split; assumption.
Qed.

(** C5. On the tree built from [leaves], [GetLeaf] with the true size and
    an index [m] in range returns the [m]-th leaf itself, and the proof
    generated for [m] carries that leaf's nonce. *)
Theorem GetLeaf_CreateTree (leaves : list Node) (m : nat) (leaf : Node) :
  Z.of_nat (length leaves) < 2 ^ 64 ->
  nth_error leaves m = Some leaf ->
  exists root,
    CreateTree leaves = Some root /\
    GetLeaf (Some root) (Z.of_nat (length leaves)) (Z.of_nat m) = Ok leaf /\
    exists ip,
      GetInclusionProof (Some root) (Z.of_nat (length leaves)) (Z.of_nat m)
        = Ok ip /\
      ProofNonce ip = Nonce leaf.
Proof.
  intros Hn Hm.
  assert (Hlt : (m < length leaves)%nat) by (apply nth_error_Some; congruence).
  destruct (CreateTree_total leaves Hn) as [root Hroot].
  exists root. split; [exact Hroot|]. split.
  - apply GetLeaf_built; [lia | exact Hroot | exact Hm].
  - destruct (audit_path_built leaves root ltac:(lia) Hroot m leaf Hm)
      as (path & Hip & _).
    eexists. split; [exact Hip | reflexivity].
Qed.

(** C1. Round trip: for a slice of leaves and an index [m] in range, the
    proof generated on the built tree with the true size, verified against
    a reader that delivers the bytes the [m]-th leaf was hashed from,
    yields the root hash. *)
Theorem round_trip (leaves : list Node) (m : nat) (leaf : Node)
    (reader : Reader) :
  Z.of_nat (length leaves) < 2 ^ 64 ->
  nth_error leaves m = Some leaf ->
  HashLeaf reader (Nonce leaf) = Ok (Hash leaf) ->
  exists root ip,
    CreateTree leaves = Some root /\
    GetInclusionProof (Some root) (Z.of_nat (length leaves)) (Z.of_nat m)
      = Ok ip /\
    CalcInclusionProof ip reader = Ok (Hash root).
Proof.
  intros Hn Hm Hleaf.
  assert (Hlt : (m < length leaves)%nat) by (apply nth_error_Some; congruence).
  destruct (CreateTree_total leaves Hn) as [root Hroot].
  destruct (audit_path_built leaves root ltac:(lia) Hroot m leaf Hm)
    as (path & Hip & Hfold).
  exists root. eexists. split; [exact Hroot|]. split; [exact Hip|].
  unfold CalcInclusionProof. cbn [ProofNonce LeafIndex TreeSize Proof_].
  rewrite Hleaf. cbn [bind].
  destruct (Z.geb_spec (Z.of_nat m) (Z.of_nat (length leaves))); [lia|].
  unfold u64. rewrite Z.mod_small by lia.
  set (n := Z.of_nat (length leaves)) in *.
  destruct (levels_bound n ltac:(lia)) as [He Hle].
  specialize (Hfold 0 (n - 1) [] ltac:(lia)).
  rewrite app_nil_r, Z.mul_0_l, Z.add_0_l in Hfold.
  rewrite Hfold by (left; lia).
  cbn [fold_path bind st_sn st_r].
  rewrite Z.div_small by lia. reflexivity.
Qed.

(** ** The claims about errors *)


(** C7. With a claimed size [n >= 2] and an index in range, when the
    descent comes to a node, at any depth, that lacks the child on the
    other side (the right child when the descent goes left there, the left
    child when it goes right), both [GetInclusionProof] and [GetLeaf] fail
    with the size mismatch error: the error of the level where the child
    is missing is returned through every call above it. *)
Theorem tree_size_mismatch (root : Node) (n m : Z) :
  descent_mismatch root n m ->
  GetInclusionProof (Some root) n m = Err TreeSizeMismatch /\
  GetLeaf (Some root) n m = Err TreeSizeMismatch /\
  kind_of TreeSizeMismatch = KTreeSizeMismatch.
Proof.
  intros H. split; [|split; [|reflexivity]].
  - induction H as [root n m Hn Hm Hk Hnil | root n m Hn Hm Hk Hnil
                   | root n m lnode rnode Hn Hm Hk Hl Hr _ IH
                   | root n m lnode rnode Hn Hm Hk Hl Hr _ IH];
      rewrite GetInclusionProof_Some, GetInclusionProof_at_eq by exact Hm;
      (destruct (Z.eqb_spec n 1) as [E | _]; [lia|]); cbv zeta;
      (destruct (Z.ltb_spec m (flp2 n)); try lia).
    + rewrite Hnil. reflexivity.
    + rewrite Hnil. reflexivity.
    + rewrite Hr, Hl, IH. reflexivity.
    + rewrite Hl, Hr, IH. reflexivity.
  - induction H as [root n m Hn Hm Hk Hnil | root n m Hn Hm Hk Hnil
                   | root n m lnode rnode Hn Hm Hk Hl Hr _ IH
                   | root n m lnode rnode Hn Hm Hk Hl Hr _ IH];
      rewrite GetLeaf_Some, GetLeaf_at_eq by exact Hm;
      (destruct (Z.eqb_spec n 1) as [E | _]; [lia|]); cbv zeta;
      (destruct (Z.ltb_spec m (flp2 n)); try lia).
    + rewrite Hnil. reflexivity.
    + rewrite Hnil. reflexivity.
    + rewrite Hr, Hl, IH. reflexivity.
    + rewrite Hl, Hr, IH. reflexivity.
Qed.

(** C9. With a claimed size of 1 (and index 0) [GetInclusionProof] does
    not look at the shape of the node it is given: on every node, an
    internal node included, it returns the proof with an empty path and the
    node's own nonce field, which is nil on the internal nodes [CreateTree]
    makes. *)
Theorem claimed_size_one (root lnode rnode : Node) :
  GetInclusionProof (Some root) 1 0 =
    Ok {| LeafIndex := 0; TreeSize := 1;
          ProofNonce := Nonce root; Proof_ := [] |} /\
  GetInclusionProof (Some (internal lnode rnode)) 1 0 =
    Ok {| LeafIndex := 0; TreeSize := 1;
          ProofNonce := None; Proof_ := [] |}.
Proof.
  split; rewrite GetInclusionProof_Some, GetInclusionProof_at_eq by lia;
    reflexivity.
Qed.

(** C8. Three leaves [a], [b], [c]: the tree splits at [flp2 3 = 2], the
    left subtree being the tree of [a; b] and the right one the leaf [c];
    its root hash is [hash(0x01 || hash(0x01 || a.hash || b.hash) || c.hash)],
    the path for index 2 has the left subtree's hash as its single element,
    and the path for index 0 has two elements ([b]'s hash, then [c]'s). *)
Theorem three_leaves (a b c : Node) :
  flp2 3 = 2 /\
  exists root lnode path2 path0,
    CreateTree [a; b; c] = Some root /\
    CreateTree [a; b] = Some lnode /\
    Left root = Some lnode /\ Right root = Some c /\
    Hash lnode = blake3_Sum256 ([x01] ++ Hash a ++ Hash b) /\
    Hash root =
      blake3_Sum256
        ([x01] ++ blake3_Sum256 ([x01] ++ Hash a ++ Hash b) ++ Hash c) /\
    GetInclusionProof (Some root) 3 2 =
      Ok {| LeafIndex := 2; TreeSize := 3;
            ProofNonce := Nonce c; Proof_ := path2 |} /\
    path2 = [Hash lnode] /\ length path2 = 1%nat /\
    GetInclusionProof (Some root) 3 0 =
      Ok {| LeafIndex := 0; TreeSize := 3;
            ProofNonce := Nonce a; Proof_ := path0 |} /\
    path0 = [Hash b; Hash c] /\ length path0 = 2%nat.
Proof.
  split; [reflexivity|].
  exists (internal (internal a b) c), (internal a b).
  exists [Hash (internal a b)], [Hash b; Hash c].
  assert (H3 : flp2 3 = 2) by reflexivity.
  assert (H2 : flp2 2 = 1) by reflexivity.
  repeat split.
  - rewrite GetInclusionProof_Some, GetInclusionProof_at_eq by lia.
    change (3 =? 1) with false. cbv zeta. rewrite H3.
    change (2 <? 2) with false. cbn [Left Right internal].
    change (u64 (3 - 2)) with 1. change (u64 (2 - 2)) with 0.
    rewrite GetInclusionProof_Some, GetInclusionProof_at_eq by lia.
    reflexivity.
  - rewrite GetInclusionProof_Some, GetInclusionProof_at_eq by lia.
    change (3 =? 1) with false. cbv zeta. rewrite H3.
    change (0 <? 2) with true. cbn [Left Right internal].
    rewrite GetInclusionProof_Some, GetInclusionProof_at_eq by lia.
    change (2 =? 1) with false. cbv zeta. rewrite H2.
    change (0 <? 1) with true. cbn [Left Right internal].
    rewrite GetInclusionProof_Some, GetInclusionProof_at_eq by lia.
    reflexivity.
Qed.

(** ** Well-formed trees *)

Lemma well_formed_no_panic root :
  well_formed root ->
  forall n m,
    GetInclusionProof_at root n m <> Panic /\ GetLeaf_at root n m <> Panic.
Proof.
  induction 1 as [h name nonce | h name lnode rnode nonce Hl IHl Hr IHr];
    intros n m; rewrite GetInclusionProof_at_eq, GetLeaf_at_eq;
    cbn [Left Right]; cbv zeta.
  - destruct (n =? 1); [split; discriminate|].
    destruct (m <? flp2 n); split; discriminate.
  - destruct (n =? 1); [split; discriminate|].
    unfold GetInclusionProof, GetLeaf.
    destruct (m <? flp2 n).
    + destruct (m >=? flp2 n); [split; discriminate|].
      destruct (IHl (flp2 n) m) as [Hp Hg]. split; [|exact Hg].
      destruct (GetInclusionProof_at lnode (flp2 n) m); cbn [bind];
        [discriminate | discriminate | exact Hp].
    + destruct (u64 (m - flp2 n) >=? u64 (n - flp2 n)); [split; discriminate|].
      destruct (IHr (u64 (n - flp2 n)) (u64 (m - flp2 n))) as [Hp Hg].
      split; [|exact Hg].
      destruct (GetInclusionProof_at rnode (u64 (n - flp2 n)) (u64 (m - flp2 n)));
        cbn [bind]; [discriminate | discriminate | exact Hp].
Qed.

Lemma Forall_split {A : Type} (P : A -> Prop) (k : nat) (l : list A) :
  Forall P l -> Forall P (firstn k l) /\ Forall P (skipn k l).
Proof.
  intros H. rewrite <- (firstn_skipn k l) in H.
  apply Forall_app in H. exact H.
Qed.

Lemma CreateTree_fuel_well_formed fuel :
  forall leaves root,
    Forall childless leaves ->
    CreateTree_fuel fuel leaves = Some root -> well_formed root.
Proof.
  induction fuel as [|fuel IH]; intros leaves root Hall Hroot; [discriminate|].
  destruct leaves as [|a [|b leaves]].
  - injection Hroot as <-. constructor.
  - injection Hroot as <-. inversion Hall as [|x l [Hl Hr] _]; subst.
    destruct a as [h name lc rc nonce]. cbn in Hl, Hr. subst. constructor.
  - rewrite CreateTree_fuel_step in Hroot.
    destruct (CreateTree_fuel fuel (firstn _ _)) as [lnode|] eqn:El; [|discriminate].
    destruct (CreateTree_fuel fuel (skipn _ _)) as [rnode|] eqn:Er; [|discriminate].
    injection Hroot as <-. constructor.
    + apply (IH _ _ (proj1 (Forall_split _ _ _ Hall)) El).
    + apply (IH _ _ (proj2 (Forall_split _ _ _ Hall)) Er).
Qed.

(** C10. On a well-formed tree (every node has both children or none)
    neither [GetInclusionProof] nor [GetLeaf] ever dereferences a nil child,
    whatever [n] and [m] are: each call returns a proof, a leaf or an error.
    The trees [CreateTree] builds from childless leaves are well-formed. *)
Theorem descent_never_panics (root : Node) (n m : Z) (leaves : list Node) :
  (well_formed root ->
     GetInclusionProof (Some root) n m <> Panic /\
     GetLeaf (Some root) n m <> Panic) /\
  (Forall childless leaves -> CreateTree leaves = Some root ->
     well_formed root).
Proof.
  split.
  - intros Hwf. unfold GetInclusionProof, GetLeaf.
    destruct (m >=? n); [split; discriminate|].
    apply well_formed_no_panic, Hwf.
  - intros Hall Hroot.
    apply (CreateTree_fuel_well_formed _ _ _ Hall Hroot).
Qed.

(** ** The verifier against the fold of RFC 9162, section 2.1.3.2 *)

Lemma land_1_testbit fn : (Z.land fn 1 =? 1) = Z.testbit fn 0.
Proof.
  rewrite land_1_mod, Z.bit0_odd, Zmod_odd.
  destruct (Z.odd fn); reflexivity.
Qed.

Lemma shift_cond_testbit fn :
  shift_cond fn = negb (Z.testbit fn 0) && negb (fn =? 0).
Proof.
  unfold shift_cond. rewrite land_1_mod, Z.bit0_odd, Zmod_odd.
  destruct (Z.odd fn); reflexivity.
Qed.

Lemma shift_while_rfc fn sn :
  rfc_shift fn sn (fst (shift_while fn sn)) (snd (shift_while fn sn)).
Proof.
  remember (Z.abs_nat fn) as k eqn:Hk. revert fn sn Hk.
  induction k as [k IH] using lt_wf_ind. intros fn sn Hk.
  rewrite shift_while_eq.
  destruct (shift_cond fn) eqn:Hc.
  - rewrite shift_cond_testbit in Hc.
    apply andb_prop in Hc. destruct Hc as [Hb Hz].
    apply negb_true_iff in Hb. apply negb_true_iff in Hz.
    apply Z.eqb_neq in Hz.
    apply rfc_shift_step; [exact Hb | exact Hz |].
    apply (IH (Z.abs_nat (Z.shiftr fn 1))); [|reflexivity].
    subst k. rewrite shiftr_1_div.
    rewrite Z.bit0_odd in Hb.
    pose proof (Zmod_odd fn) as Hm. rewrite Hb in Hm.
    pose proof (Z.div_mod fn 2 ltac:(lia)). lia.
  - cbn [fst snd]. apply rfc_shift_stop.
    rewrite shift_cond_testbit in Hc.
    apply andb_false_iff in Hc. destruct Hc as [Hb | Hz].
    + left. apply negb_false_iff, Hb.
    + right. apply negb_false_iff in Hz. apply Z.eqb_eq, Hz.
Qed.

Lemma rfc_shift_fun fn sn fn' sn' :
  rfc_shift fn sn fn' sn' -> shift_while fn sn = (fn', sn').
Proof.
  induction 1 as [fn sn Hstop | fn sn fn' sn' Hb Hz _ IH];
    rewrite shift_while_eq, shift_cond_testbit.
  - destruct Hstop as [Hb | ->]; [rewrite Hb | rewrite andb_false_r]; reflexivity.
  - apply Z.eqb_neq in Hz. rewrite Hb, Hz. exact IH.
Qed.

Lemma fold_and_check_cons fn sn r p path :
  fold_and_check fn sn r (p :: path) =
  if sn =? 0 then Err ProofSizeMismatch
  else if Z.testbit fn 0 || (fn =? sn) then
    fold_and_check (Z.shiftr (fst (shift_while fn sn)) 1)
                   (Z.shiftr (snd (shift_while fn sn)) 1)
                   (blake3_Sum256 ([x01] ++ p ++ r)) path
  else
    fold_and_check (Z.shiftr fn 1) (Z.shiftr sn 1)
                   (blake3_Sum256 ([x01] ++ r ++ p)) path.
Proof.
  unfold fold_and_check. cbn [fold_path]. unfold fold_step.
  rewrite land_1_testbit.
  destruct (sn =? 0); [reflexivity|].
  destruct (Z.testbit fn 0 || (fn =? sn)).
  - destruct (shift_while fn sn) as [fn' sn']. reflexivity.
  - reflexivity.
Qed.

Lemma fold_and_check_rfc path :
  forall fn sn r, rfc_fold fn sn r path (fold_and_check fn sn r path).
Proof.
  induction path as [|p path IH]; intros fn sn r.
  - unfold fold_and_check. cbn [fold_path bind st_sn st_r].
    destruct (Z.eqb_spec sn 0) as [-> | Hs]; cbn [negb].
    + apply rfc_root.
    + apply rfc_too_short, Hs.
  - rewrite fold_and_check_cons.
    destruct (Z.eqb_spec sn 0) as [-> | Hs]; [apply rfc_too_long|].
    destruct (Z.testbit fn 0 || (fn =? sn)) eqn:Hc.
    + apply orb_prop in Hc.
      eapply rfc_sibling_left; [exact Hs | | apply shift_while_rfc | apply IH].
      destruct Hc as [Hb | He]; [left; exact Hb | right; apply Z.eqb_eq, He].
    + apply orb_false_elim in Hc. destruct Hc as [Hb He].
      apply rfc_sibling_right; [exact Hs | exact Hb | apply Z.eqb_neq, He | apply IH].
Qed.

Lemma rfc_fold_fun fn sn r path res :
  rfc_fold fn sn r path res -> res = fold_and_check fn sn r path.
Proof.
  induction 1 as [fn r p path
                 | fn sn r p path fn' sn' res Hs Hc Hsh _ IH
                 | fn sn r p path res Hs Hb Hne _ IH
                 | fn sn r Hs
                 | fn r].
  - rewrite fold_and_check_cons. reflexivity.
  - rewrite fold_and_check_cons.
    apply Z.eqb_neq in Hs. rewrite Hs.
    replace (Z.testbit fn 0 || (fn =? sn)) with true.
    + rewrite (rfc_shift_fun _ _ _ _ Hsh). exact IH.
    + symmetry. apply orb_true_iff.
      destruct Hc as [Hb | ->]; [left; exact Hb | right; apply Z.eqb_refl].
  - rewrite fold_and_check_cons.
    apply Z.eqb_neq in Hs. rewrite Hs.
    apply Z.eqb_neq in Hne. rewrite Hb, Hne. exact IH.
  - unfold fold_and_check. cbn [fold_path bind st_sn].
    apply Z.eqb_neq in Hs. rewrite Hs. reflexivity.
  - reflexivity.
Qed.

(** C2. Once the leaf is hashed and the index check is passed,
    [CalcInclusionProof] returns exactly what the fold of the specification
    determines from [fn = leaf_index], [sn = tree_size - 1] and the leaf
    hash: the same root, or the same size mismatch error. *)
Theorem CalcInclusionProof_rfc_fold (proof : InclusionProof)
    (reader : Reader) (leafHash : bytes) (res : result bytes) :
  0 <= LeafIndex proof < TreeSize proof ->
  TreeSize proof < 2 ^ 64 ->
  HashLeaf reader (ProofNonce proof) = Ok leafHash ->
  (CalcInclusionProof proof reader = res <->
   rfc_fold (LeafIndex proof) (TreeSize proof - 1) leafHash
            (Proof_ proof) res).
Proof.
  intros Hidx Hsz Hleaf.
  assert (Hcode : CalcInclusionProof proof reader =
                  fold_and_check (LeafIndex proof) (TreeSize proof - 1)
                                 leafHash (Proof_ proof)).
  { unfold CalcInclusionProof. rewrite Hleaf. cbn [bind].
    destruct (Z.geb_spec (LeafIndex proof) (TreeSize proof)); [lia|].
    unfold u64. rewrite Z.mod_small by lia. reflexivity. }
  rewrite Hcode. split.
  - intros <-. apply fold_and_check_rfc.
  - intros H. symmetry. apply rfc_fold_fun, H.
Qed.

End Properties.

(** * Further properties of the package and of the program *)

(** ** The two descents compared *)

(** Induction on a tree through its child pointers. *)
Lemma Node_children_ind (P : Node -> Prop) :
  (forall h name lnode rnode nonce,
      (forall x, lnode = Some x -> P x) ->
      (forall x, rnode = Some x -> P x) ->
      P (mkNode h name lnode rnode nonce)) ->
  forall node, P node.
Proof.
  intros H. fix IH 1. intros [h name lnode rnode nonce]. apply H.
  - destruct lnode as [x|]; intros y E; [|discriminate].
    injection E as <-. apply IH.
  - destruct rnode as [x|]; intros y E; [|discriminate].
    injection E as <-. apply IH.
Qed.

(** The size mismatch error has no other cause: for an index that is not
    negative, [GetInclusionProof] returns it only when the descent comes to
    a node that lacks the child on the other side. *)
Lemma tree_size_mismatch_only (root : Node) :
  forall n m,
    0 <= m ->
    GetInclusionProof (Some root) n m = Err TreeSizeMismatch ->
    descent_mismatch root n m.
Proof.
  induction root as [h name lnode rnode nonce IHl IHr]
    using Node_children_ind.
  intros n m Hm0. unfold GetInclusionProof.
  destruct (Z.geb_spec m n) as [|Hm]; [discriminate|].
  rewrite GetInclusionProof_at_eq.
  destruct (Z.eqb_spec n 1) as [|Hn1]; [discriminate|].
  assert (Hn : 2 <= n) by lia.
  cbv zeta. cbn [Left Right].
  destruct (Z.ltb_spec m (flp2 n)) as [Hk|Hk].
  - destruct rnode as [rn|];
      [|intros _; apply mismatch_left; [lia | lia | lia | reflexivity]].
    destruct lnode as [ln|].
    + destruct (GetInclusionProof (Some ln) (flp2 n) m) as [ip|e|] eqn:E;
        cbn [bind]; [discriminate| |discriminate].
      intros [= ->].
      apply (mismatch_below_left _ n m ln rn);
        [lia | lia | lia | reflexivity | reflexivity |].
      apply (IHl ln eq_refl); [exact Hm0 | exact E].
    + unfold GetInclusionProof.
      destruct (m >=? flp2 n); cbn [bind]; discriminate.
  - destruct lnode as [ln|];
      [|intros _; apply mismatch_right; [lia | lia | lia | reflexivity]].
    destruct rnode as [rn|].
    + destruct (GetInclusionProof (Some rn) (u64 (n - flp2 n))
                  (u64 (m - flp2 n))) as [ip|e|] eqn:E;
        cbn [bind]; [discriminate| |discriminate].
      intros [= ->].
      apply (mismatch_below_right _ n m ln rn);
        [lia | lia | lia | reflexivity | reflexivity |].
      apply (IHr rn eq_refl); [|exact E].
      unfold u64. apply Z.mod_pos_bound. lia.
    + unfold GetInclusionProof.
      destruct (u64 (m - flp2 n) >=? u64 (n - flp2 n)); cbn [bind];
        discriminate.
Qed.

Lemma GetLeaf_ptr_at_eq root n m :
  GetLeaf_ptr_at root n m =
  if n =? 1 then Ok (Some root)
  else
    let k := flp2 n in
    if m <? k then
      match Right root with
      | None => Err TreeSizeMismatch
      | Some _ => GetLeaf_ptr (Left root) k m
      end
    else
      match Left root with
      | None => Err TreeSizeMismatch
      | Some _ => GetLeaf_ptr (Right root) (u64 (n - k)) (u64 (m - k))
      end.
Proof. destruct root; reflexivity. Qed.

Lemma GetLeaf_ptr_Some root n m :
  GetLeaf_ptr (Some root) n m =
  if m >=? n then Err IndexOutOfRange_gen else GetLeaf_ptr_at root n m.
Proof.
  unfold GetLeaf_ptr. destruct (m >=? n); [reflexivity|].
  rewrite GetLeaf_ptr_at_eq. destruct (n =? 1); reflexivity.
Qed.

(** [GetLeaf] is [GetLeaf_ptr] read through the returned pointer. *)
Lemma GetLeaf_ptr_GetLeaf (root : option Node) (n m : Z) :
  GetLeaf root n m =
  match GetLeaf_ptr root n m with
  | Ok (Some leaf) => Ok leaf
  | Ok None => Panic
  | Err e => Err e
  | Panic => Panic
  end.
Proof.
  assert (Hat : forall x n m,
             GetLeaf (Some x) n m =
             match GetLeaf_ptr (Some x) n m with
             | Ok (Some leaf) => Ok leaf
             | Ok None => Panic
             | Err e => Err e
             | Panic => Panic
             end).
  { induction x as [h name lnode rnode nonce IHl IHr] using Node_children_ind.
    intros n0 m0. rewrite GetLeaf_ptr_Some. unfold GetLeaf.
    destruct (m0 >=? n0); [reflexivity|].
    rewrite GetLeaf_at_eq, GetLeaf_ptr_at_eq.
    destruct (n0 =? 1); [reflexivity|]. cbv zeta.
    cbn [Left Right].
    destruct (m0 <? flp2 n0).
    - destruct rnode as [rn|]; [|reflexivity].
      destruct lnode as [ln|]; [apply (IHl ln eq_refl)|].
      unfold GetLeaf, GetLeaf_ptr.
      destruct (m0 >=? flp2 n0); [reflexivity|].
      destruct (flp2 n0 =? 1); reflexivity.
    - destruct lnode as [ln|]; [|reflexivity].
      destruct rnode as [rn|]; [apply (IHr rn eq_refl)|].
      unfold GetLeaf, GetLeaf_ptr.
      destruct (u64 (m0 - flp2 n0) >=? u64 (n0 - flp2 n0)); [reflexivity|].
      destruct (u64 (n0 - flp2 n0) =? 1); reflexivity. }
  destruct root as [x|]; [apply Hat|].
  unfold GetLeaf, GetLeaf_ptr.
  destruct (m >=? n); [reflexivity|]. destruct (n =? 1); reflexivity.
Qed.

(** X3. [GetInclusionProof] and [GetLeaf] make the same descent, for every
    tree, claimed size and index: they return the same error; when one
    returns a value so does the other, and the proof then carries the index
    and size it was asked for and the nonce of the leaf [GetLeaf] returns.
    They differ at a nil pointer reached with claimed size 1, which
    [GetLeaf] returns as a nil leaf and [GetInclusionProof] dereferences. *)
Theorem GetInclusionProof_GetLeaf_agree (root : option Node) (n m : Z) :
  match GetInclusionProof root n m, GetLeaf_ptr root n m with
  | Ok ip, Ok (Some leaf) =>
      LeafIndex ip = m /\ TreeSize ip = n /\ ProofNonce ip = Nonce leaf
  | Err e1, Err e2 => e1 = e2
  | Panic, Panic => True
  | Panic, Ok None => True
  | _, _ => False
  end.
Proof.
  revert n m.
  assert (Hat : forall x n m,
             match GetInclusionProof (Some x) n m,
                   GetLeaf_ptr (Some x) n m with
             | Ok ip, Ok (Some leaf) =>
                 LeafIndex ip = m /\ TreeSize ip = n /\
                 ProofNonce ip = Nonce leaf
             | Err e1, Err e2 => e1 = e2
             | Panic, Panic => True
             | Panic, Ok None => True
             | _, _ => False
             end).
  { induction x as [h name lnode rnode nonce IHl IHr] using Node_children_ind.
    intros n m. rewrite GetLeaf_ptr_Some. unfold GetInclusionProof.
    destruct (m >=? n); [reflexivity|].
    rewrite GetInclusionProof_at_eq, GetLeaf_ptr_at_eq.
    destruct (n =? 1); [cbn; auto|]. cbv zeta. cbn [Left Right].
    destruct (m <? flp2 n).
    - destruct rnode as [rn|]; [|reflexivity].
      destruct lnode as [ln|].
      + specialize (IHl ln eq_refl (flp2 n) m).
        destruct (GetInclusionProof (Some ln) (flp2 n) m) as [ip|e|],
                 (GetLeaf_ptr (Some ln) (flp2 n) m) as [[leaf|]|e'|];
          cbn [bind LeafIndex TreeSize ProofNonce] in *; intuition.
      + unfold GetInclusionProof, GetLeaf_ptr.
        destruct (m >=? flp2 n); [reflexivity|].
        destruct (flp2 n =? 1); exact I.
    - destruct lnode as [ln|]; [|reflexivity].
      destruct rnode as [rn|].
      + specialize (IHr rn eq_refl (u64 (n - flp2 n)) (u64 (m - flp2 n))).
        destruct (GetInclusionProof (Some rn) (u64 (n - flp2 n))
                                    (u64 (m - flp2 n))) as [ip|e|],
                 (GetLeaf_ptr (Some rn) (u64 (n - flp2 n))
                              (u64 (m - flp2 n))) as [[leaf|]|e'|];
          cbn [bind LeafIndex TreeSize ProofNonce] in *; intuition.
      + unfold GetInclusionProof, GetLeaf_ptr.
        destruct (u64 (m - flp2 n) >=? u64 (n - flp2 n)); [reflexivity|].
        destruct (u64 (n - flp2 n) =? 1); exact I. }
  intros n m. destruct root as [x|]; [apply Hat|].
  unfold GetInclusionProof, GetLeaf_ptr.
  destruct (m >=? n); [reflexivity|]. destruct (n =? 1); exact I.
Qed.


(** ** The length of a generated path *)

Lemma pow2_exponent j e n :
  0 <= j -> 0 <= e -> 2 ^ j < n <= 2 ^ (j + 1) -> n = 2 ^ e -> e = j + 1.
Proof.
  intros Hj He [Hlo Hhi] ->.
  apply Z.pow_lt_mono_r_iff in Hlo; [|lia|lia].
  apply Z.pow_le_mono_r_iff in Hhi; [|lia|lia].
  lia.
Qed.

(** X5. The path of a proof [GetInclusionProof] returns has a length that
    the claimed size alone bounds, whatever the tree: at most
    [ceil(log2 n)] hashes, at least one when [n >= 2], and exactly [e]
    when [n = 2^e]. *)
Theorem proof_length (root : option Node) (n m : Z) (ip : InclusionProof) :
  1 <= n < 2 ^ 64 ->
  GetInclusionProof root n m = Ok ip ->
  Z.of_nat (length (Proof_ ip)) <= Z.log2_up n /\
  (2 <= n -> 1 <= Z.of_nat (length (Proof_ ip))) /\
  (forall e, 0 <= e -> n = 2 ^ e -> Z.of_nat (length (Proof_ ip)) = e).
Proof.
  revert n m ip.
  assert (Hat : forall x n m ip,
             1 <= n < 2 ^ 64 ->
             GetInclusionProof (Some x) n m = Ok ip ->
             Z.of_nat (length (Proof_ ip)) <= Z.log2_up n /\
             (2 <= n -> 1 <= Z.of_nat (length (Proof_ ip))) /\
             (forall e, 0 <= e -> n = 2 ^ e ->
                        Z.of_nat (length (Proof_ ip)) = e)).
  { induction x as [h name lnode rnode nonce IHl IHr] using Node_children_ind.
    intros n m ip Hn. unfold GetInclusionProof.
    destruct (m >=? n); [discriminate|].
    rewrite GetInclusionProof_at_eq.
    destruct (Z.eqb_spec n 1) as [->|Hn1].
    { intros [= <-]. cbn [Proof_ length]. rewrite Z.log2_up_1.
      split; [lia|]. split; [lia|].
      intros e He H1. destruct (Z.eq_dec e 0) as [->|Hne]; [reflexivity|].
      assert (2 ^ 1 <= 2 ^ e) by (apply Z.pow_le_mono_r; lia). lia. }
    destruct (levels_split n ltac:(lia)) as (j & Hj & Hk & Hlog & Hrange).
    cbv zeta. cbn [Left Right]. rewrite Hk, Hlog.
    assert (Hpj : 0 < 2 ^ j) by (apply pow2_pos; exact Hj).
    assert (Hp2 : 2 ^ (j + 1) = 2 * 2 ^ j) by (rewrite Z.pow_add_r by lia; lia).
    destruct (m <? 2 ^ j).
    - destruct rnode as [rn|]; [|discriminate].
      destruct lnode as [ln|].
      2:{ unfold GetInclusionProof. destruct (m >=? 2 ^ j); [discriminate|].
          discriminate. }
      destruct (GetInclusionProof (Some ln) (2 ^ j) m) as [ip'|e|] eqn:E;
        cbn [bind]; [|discriminate ..].
      intros [= <-]. cbn [Proof_]. rewrite length_app. cbn [length].
      destruct (IHl ln eq_refl (2 ^ j) m ip' ltac:(lia) E) as (Hle & _ & Hex).
      rewrite Z.log2_up_pow2 in Hle by exact Hj.
      split; [lia|]. split; [lia|].
      intros e He Hne.
      rewrite (pow2_exponent j e n Hj He Hrange Hne).
      specialize (Hex j Hj eq_refl). lia.
    - destruct lnode as [ln|]; [|discriminate].
      assert (Hu : u64 (n - 2 ^ j) = n - 2 ^ j)
        by (unfold u64; apply Z.mod_small; lia).
      rewrite Hu.
      destruct rnode as [rn|].
      2:{ unfold GetInclusionProof.
          destruct (u64 (m - 2 ^ j) >=? n - 2 ^ j); [discriminate|].
          discriminate. }
      destruct (GetInclusionProof (Some rn) (n - 2 ^ j) (u64 (m - 2 ^ j)))
        as [ip'|e|] eqn:E; cbn [bind]; [|discriminate ..].
      intros [= <-]. cbn [Proof_]. rewrite length_app. cbn [length].
      destruct (IHr rn eq_refl (n - 2 ^ j) (u64 (m - 2 ^ j)) ip'
                    ltac:(lia) E) as (Hle & _ & Hex).
      assert (Hlog' : Z.log2_up (n - 2 ^ j) <= j).
      { rewrite <- (Z.log2_up_pow2 j) at 2 by exact Hj.
        apply Z.log2_up_le_mono. lia. }
      split; [lia|]. split; [lia|].
      intros e He Hne.
      rewrite (pow2_exponent j e n Hj He Hrange Hne).
      rewrite (pow2_exponent j e n Hj He Hrange Hne) in Hne.
      specialize (Hex j Hj ltac:(lia)). lia. }
  intros n m ip Hn. destruct root as [x|]; [apply Hat; exact Hn|].
  unfold GetInclusionProof. destruct (m >=? n); discriminate.
Qed.


Section Further.

Context {digest : Digest}.

(** ** Leaves made by [CreateLeaf] *)

Lemma CreateLeaf_Ok name r nonce rnd leaf :
  CreateLeaf name r nonce rnd = Ok leaf ->
  exists b,
    leaf = mkNode (blake3_Sum256 ([x00] ++ b ++ content r)) name
                  None None (Some b) /\
    failure r = None /\
    (nonce = Some b \/ (nonce = None /\ rnd = Ok b)).
Proof.
  unfold CreateLeaf, HashLeaf, io_Copy, Sum, Write, blake3_New.
  destruct nonce as [b|].
  - cbn [bind slice_bytes]. destruct (failure r); [discriminate|].
    intros [= <-]. exists b. repeat split. left. reflexivity.
  - destruct rnd as [b|e|]; cbn [bind slice_bytes]; [|discriminate ..].
    destruct (failure r); [discriminate|].
    intros [= <-]. exists b. repeat split. right. split; reflexivity.
Qed.

Lemma CreateLeaf_HashLeaf name r nonce rnd leaf :
  CreateLeaf name r nonce rnd = Ok leaf ->
  HashLeaf r (Nonce leaf) = Ok (Hash leaf) /\ childless leaf /\
  Name leaf = name.
Proof.
  intros H. destruct (CreateLeaf_Ok _ _ _ _ _ H) as (b & -> & Hf & _).
  unfold HashLeaf, io_Copy, childless. rewrite Hf. repeat split.
Qed.

(** The proof generated on a built tree, and the verifier's loop on its
    path from the leaf's hash. *)
Lemma built_path_folds leaves root m leaf :
  1 <= Z.of_nat (length leaves) < 2 ^ 64 ->
  CreateTree leaves = Some root ->
  nth_error leaves m = Some leaf ->
  exists path,
    GetInclusionProof (Some root) (Z.of_nat (length leaves)) (Z.of_nat m) =
      Ok {| LeafIndex := Z.of_nat m; TreeSize := Z.of_nat (length leaves);
            ProofNonce := Nonce leaf; Proof_ := path |} /\
    fold_path path (mkState (Z.of_nat m) (Z.of_nat (length leaves) - 1)
                            (Hash leaf)) =
      Ok (mkState 0 0 (Hash root)).
Proof.
  intros Hn Hroot Hm.
  assert (Hlt : (m < length leaves)%nat) by (apply nth_error_Some; congruence).
  destruct (audit_path_built leaves root Hn Hroot m leaf Hm)
    as (path & Hip & Hfold).
  set (n := Z.of_nat (length leaves)) in *.
  destruct (levels_bound n ltac:(lia)) as [He Hle].
  specialize (Hfold 0 (n - 1) [] ltac:(lia)).
  rewrite app_nil_r, Z.mul_0_l, Z.add_0_l in Hfold.
  rewrite Z.div_small in Hfold by lia.
  specialize (Hfold ltac:(left; lia)). cbn [fold_path] in Hfold.
  exists path. split; [exact Hip | exact Hfold].
Qed.

(** That proof verified against the bytes its leaf was hashed from. *)
Lemma verify_built leaves root m leaf reader :
  1 <= Z.of_nat (length leaves) < 2 ^ 64 ->
  CreateTree leaves = Some root ->
  nth_error leaves m = Some leaf ->
  HashLeaf reader (Nonce leaf) = Ok (Hash leaf) ->
  exists path,
    GetInclusionProof (Some root) (Z.of_nat (length leaves)) (Z.of_nat m) =
      Ok {| LeafIndex := Z.of_nat m; TreeSize := Z.of_nat (length leaves);
            ProofNonce := Nonce leaf; Proof_ := path |} /\
    CalcInclusionProof
      {| LeafIndex := Z.of_nat m; TreeSize := Z.of_nat (length leaves);
         ProofNonce := Nonce leaf; Proof_ := path |} reader =
      Ok (Hash root).
Proof.
  intros Hn Hroot Hm Hleaf.
  assert (Hlt : (m < length leaves)%nat) by (apply nth_error_Some; congruence).
  destruct (built_path_folds leaves root m leaf Hn Hroot Hm)
    as (path & Hip & Hfold).
  exists path. split; [exact Hip|].
  unfold CalcInclusionProof. cbn [ProofNonce LeafIndex TreeSize Proof_].
  rewrite Hleaf. cbn [bind].
  destruct (Z.geb_spec (Z.of_nat m) (Z.of_nat (length leaves))); [lia|].
  unfold u64. rewrite Z.mod_small by lia.
  rewrite Hfold. reflexivity.
Qed.

(** X1. From [CreateLeaf] to [CalcInclusionProof]: a leaf that
    [CreateLeaf] made from a reader, at any place of any slice of leaves,
    has on the built tree a proof that carries the leaf's nonce (never nil)
    and that verifies against the same bytes to the root hash. *)
Theorem CreateLeaf_round_trip (name : string) (r : Reader)
    (nonce : option bytes) (rnd : result bytes)
    (leaves : list Node) (m : nat) (leaf : Node) :
  Z.of_nat (length leaves) < 2 ^ 64 ->
  CreateLeaf name r nonce rnd = Ok leaf ->
  nth_error leaves m = Some leaf ->
  exists root ip,
    CreateTree leaves = Some root /\
    GetInclusionProof (Some root) (Z.of_nat (length leaves)) (Z.of_nat m)
      = Ok ip /\
    ProofNonce ip = Nonce leaf /\ ProofNonce ip <> None /\
    CalcInclusionProof ip (bytes_Reader (content r)) = Ok (Hash root).
Proof.
  intros Hn Hmade Hm.
  assert (Hlt : (m < length leaves)%nat) by (apply nth_error_Some; congruence).
  destruct (CreateTree_total leaves Hn) as [root Hroot].
  destruct (CreateLeaf_Ok _ _ _ _ _ Hmade) as (b & Hleaf & Hf & _).
  assert (Hh : HashLeaf (bytes_Reader (content r)) (Nonce leaf) =
               Ok (Hash leaf)) by (rewrite Hleaf; reflexivity).
  destruct (verify_built leaves root m leaf _ ltac:(lia) Hroot Hm Hh)
    as (path & Hip & Hcalc).
  exists root. eexists. split; [exact Hroot|]. split; [exact Hip|].
  cbn [ProofNonce]. split; [reflexivity|]. split; [|exact Hcalc].
  rewrite Hleaf. discriminate.
Qed.

(** X2. The errors of [CreateLeaf] are those of its environment: an error
    it returns was raised by the random number generator, consulted only
    for a nil nonce, or else was returned by the reader; and it returns a
    leaf exactly when neither fails. *)
Theorem CreateLeaf_errors (name : string) (r : Reader)
    (nonce : option bytes) (rnd : result bytes) :
  (forall e, CreateLeaf name r nonce rnd = Err e ->
     (nonce = None /\ rnd = Err e) \/
     ((nonce <> None \/ exists b, rnd = Ok b) /\ failure r = Some e)) /\
  ((exists leaf, CreateLeaf name r nonce rnd = Ok leaf) <->
   (nonce <> None \/ exists b, rnd = Ok b) /\ failure r = None) /\
  (forall b rnd', CreateLeaf name r (Some b) rnd =
                  CreateLeaf name r (Some b) rnd').
Proof.
  unfold CreateLeaf, HashLeaf, io_Copy.
  split; [|split].
  - intros e. destruct nonce as [b|].
    + cbn [bind]. destruct (failure r); [|discriminate].
      intros [= <-]. right. split; [left; discriminate | reflexivity].
    + destruct rnd as [b|e'|]; cbn [bind].
      * destruct (failure r); [|discriminate].
        intros [= <-]. right. split; [right; eauto | reflexivity].
      * intros [= <-]. left. split; reflexivity.
      * discriminate.
  - split.
    + intros [leaf H]. destruct nonce as [b|].
      * cbn [bind] in H. destruct (failure r); [discriminate|].
        split; [left; discriminate | reflexivity].
      * destruct rnd as [b|e'|]; cbn [bind] in H; [|discriminate ..].
        destruct (failure r); [discriminate|].
        split; [right; eauto | reflexivity].
    + intros [Hsrc Hf]. rewrite Hf. destruct nonce as [b|].
      * cbn [bind]. eauto.
      * destruct Hsrc as [Hsrc|[b ->]]; [congruence|]. cbn [bind]. eauto.
  - reflexivity.
Qed.

(** X4. A tree built from leaves that [CreateLeaf] made is walked without
    a nil dereference: for every claimed size and index the two descents
    return a value or an error, and [GetLeaf] never returns a nil leaf. *)
Theorem CreateLeaf_tree_descents (leaves : list Node) (root : Node)
    (n m : Z) :
  Forall (fun leaf => exists name r nonce rnd,
              CreateLeaf name r nonce rnd = Ok leaf) leaves ->
  CreateTree leaves = Some root ->
  GetInclusionProof (Some root) n m <> Panic /\
  GetLeaf_ptr (Some root) n m <> Panic /\
  GetLeaf_ptr (Some root) n m <> Ok None.
Proof.
  intros Hmade Hroot.
  assert (Hwf : well_formed root).
  { apply (CreateTree_fuel_well_formed (S (length leaves)) leaves root);
      [|exact Hroot].
    eapply Forall_impl; [|exact Hmade].
    intros leaf (name & r & nonce & rnd & H).
    apply CreateLeaf_HashLeaf in H. apply H. }
  destruct (well_formed_no_panic root Hwf n m) as [Hip Hleaf].
  split.
  - unfold GetInclusionProof. destruct (m >=? n); [discriminate | exact Hip].
  - assert (Hl : GetLeaf (Some root) n m <> Panic).
    { unfold GetLeaf. destruct (m >=? n); [discriminate | exact Hleaf]. }
    rewrite GetLeaf_ptr_GetLeaf in Hl.
    split; intros E; rewrite E in Hl; apply Hl; reflexivity.
Qed.


(** ** What the verifier's loop does with the counters and with the hash *)

(** One iteration: the counters move without regard to the hashes. *)
Lemma fold_step_shape p fn sn r :
  fold_step p (mkState fn sn r) =
  if sn =? 0 then Err ProofSizeMismatch
  else if (Z.land fn 1 =? 1) || (fn =? sn) then
    Ok (mkState (Z.shiftr (fst (shift_while fn sn)) 1)
                (Z.shiftr (snd (shift_while fn sn)) 1) (node_hash p r))
  else
    Ok (mkState (Z.shiftr fn 1) (Z.shiftr sn 1) (node_hash r p)).
Proof.
  unfold fold_step. destruct (sn =? 0); [reflexivity|].
  destruct ((Z.land fn 1 =? 1) || (fn =? sn)); [|reflexivity].
  destruct (shift_while fn sn); reflexivity.
Qed.

Lemma rfc_shift_sn fn sn fn' sn' :
  rfc_shift fn sn fn' sn' -> 0 <= sn -> 0 <= sn' <= sn.
Proof.
  induction 1 as [fn sn _|fn sn fn' sn' _ _ _ IH]; intros Hsn; [lia|].
  rewrite shiftr_1_div in IH.
  assert (0 <= sn / 2 <= sn).
  { split; [apply Z.div_pos; lia|]. apply Z.div_le_upper_bound; lia. }
  lia.
Qed.

Lemma fold_step_sn p fn sn r s :
  fold_step p (mkState fn sn r) = Ok s -> 0 <= sn ->
  1 <= sn /\ 0 <= st_sn s /\ 2 * st_sn s <= sn.
Proof.
  rewrite fold_step_shape. intros H Hsn.
  destruct (Z.eqb_spec sn 0); [discriminate|].
  split; [lia|].
  destruct ((Z.land fn 1 =? 1) || (fn =? sn)); injection H as <-;
    cbn [st_sn]; rewrite shiftr_1_div.
  - pose proof (rfc_shift_sn _ _ _ _ (shift_while_rfc fn sn) Hsn) as Hs.
    set (sn' := snd (shift_while fn sn)) in *.
    pose proof (Z.mul_div_le sn' 2 ltac:(lia)).
    split; [apply Z.div_pos; lia | lia].
  - pose proof (Z.mul_div_le sn 2 ltac:(lia)).
    split; [apply Z.div_pos; lia | lia].
Qed.

Lemma fold_path_sn path :
  forall fn sn r s,
    fold_path path (mkState fn sn r) = Ok s -> 0 <= sn ->
    0 <= st_sn s /\
    (path <> [] -> 2 ^ (Z.of_nat (length path) - 1) <= sn).
Proof.
  induction path as [|p path IH]; intros fn sn r s H Hsn.
  - injection H as <-. cbn [st_sn]. split; [lia | congruence].
  - cbn [fold_path] in H.
    destruct (fold_step p (mkState fn sn r)) as [[fn1 sn1 r1]|e|] eqn:E;
      cbn [bind] in H; [|discriminate ..].
    destruct (fold_step_sn _ _ _ _ _ E Hsn) as (H1 & H0 & H2).
    cbn [st_sn] in H0, H2.
    destruct (IH _ _ _ _ H H0) as [Hs Hlen].
    split; [exact Hs|]. intros _.
    cbn [length]. rewrite Nat2Z.inj_succ.
    replace (Z.succ (Z.of_nat (length path)) - 1)
      with (Z.of_nat (length path)) by lia.
    destruct path as [|q path]; [cbn; lia|].
    specialize (Hlen ltac:(discriminate)).
    replace (Z.of_nat (length (q :: path)))
      with (Z.succ (Z.of_nat (length (q :: path)) - 1)) by lia.
    rewrite Z.pow_succ_r by (cbn [length]; lia).
    lia.
Qed.

Lemma fold_path_outcome path :
  forall s, (exists s', fold_path path s = Ok s') \/
            fold_path path s = Err ProofSizeMismatch.
Proof.
  induction path as [|p path IH]; intros [fn sn r];
    [left; eexists; reflexivity|].
  cbn [fold_path]. rewrite fold_step_shape.
  destruct (sn =? 0); [right; reflexivity|].
  destruct ((Z.land fn 1 =? 1) || (fn =? sn)); cbn [bind]; apply IH.
Qed.

(** The loop from another hash: the same counters. *)
Lemma fold_path_any_hash path :
  forall fn sn r1 r2 s1,
    fold_path path (mkState fn sn r1) = Ok s1 ->
    exists r, fold_path path (mkState fn sn r2) =
              Ok (mkState (st_fn s1) (st_sn s1) r).
Proof.
  induction path as [|p path IH]; intros fn sn r1 r2 s1 H.
  - injection H as <-. exists r2. reflexivity.
  - cbn [fold_path] in *. rewrite fold_step_shape in *.
    destruct (sn =? 0); [discriminate|].
    destruct ((Z.land fn 1 =? 1) || (fn =? sn)); cbn [bind] in *;
      eapply IH; exact H.
Qed.

(** Equal hashes at the end of the loop come from equal hashes at its
    start, or there is a collision. *)
Lemma fold_path_collision path :
  forall fn sn r1 r2 s1 s2,
    fold_path path (mkState fn sn r1) = Ok s1 ->
    fold_path path (mkState fn sn r2) = Ok s2 ->
    st_r s1 = st_r s2 -> r1 = r2 \/ collision.
Proof.
  induction path as [|p path IH]; intros fn sn r1 r2 s1 s2 H1 H2 Heq.
  - injection H1 as <-. injection H2 as <-. left. exact Heq.
  - cbn [fold_path] in H1, H2. rewrite fold_step_shape in H1, H2.
    destruct (sn =? 0); [discriminate|].
    destruct (list_eq_dec byte_eq_dec r1 r2) as [|Hne]; [left; assumption|].
    right.
    destruct ((Z.land fn 1 =? 1) || (fn =? sn)); cbn [bind] in H1, H2;
      destruct (IH _ _ _ _ _ _ H1 H2 Heq) as [Hh|Hc]; try exact Hc.
    + exists ([x01] ++ p ++ r1), ([x01] ++ p ++ r2). split; [|exact Hh].
      intros E. apply app_inv_head in E. apply app_inv_head in E.
      contradiction.
    + exists ([x01] ++ r1 ++ p), ([x01] ++ r2 ++ p). split; [|exact Hh].
      intros E. apply app_inv_head in E. apply app_inv_tail in E.
      contradiction.
Qed.

Lemma CalcInclusionProof_Ok proof reader h :
  CalcInclusionProof proof reader = Ok h ->
  failure reader = None /\
  LeafIndex proof < TreeSize proof /\
  exists s,
    fold_path (Proof_ proof)
      (mkState (LeafIndex proof) (u64 (TreeSize proof - 1))
         (blake3_Sum256
            ([x00] ++ slice_bytes (ProofNonce proof) ++ content reader))) =
      Ok s /\
    st_sn s = 0 /\ st_r s = h.
Proof.
  unfold CalcInclusionProof, HashLeaf, io_Copy, Sum, Write, blake3_New.
  destruct (failure reader); [discriminate|]. cbn [bind].
  destruct (Z.geb_spec (LeafIndex proof) (TreeSize proof)); [discriminate|].
  destruct (fold_path _ _) as [s|e|]; cbn [bind]; [|discriminate ..].
  destruct (Z.eqb_spec (st_sn s) 0); cbn [negb]; [|discriminate].
  intros [= <-]. split; [reflexivity|]. split; [lia|].
  exists s. repeat split. assumption.
Qed.

(** X6. With a file that reads to its end and an index in range,
    [CalcInclusionProof] returns a hash or ProofSizeMismatch, nothing
    else; and it returns a hash only for a path of at most
    [ceil(log2 TreeSize)] hashes, which is empty exactly when the tree
    size is 1. *)
Theorem path_length_checked (proof : InclusionProof) (reader : Reader) :
  failure reader = None ->
  0 <= LeafIndex proof < TreeSize proof ->
  TreeSize proof < 2 ^ 64 ->
  ((exists h, CalcInclusionProof proof reader = Ok h) \/
   CalcInclusionProof proof reader = Err ProofSizeMismatch) /\
  ((exists h, CalcInclusionProof proof reader = Ok h) ->
   Z.of_nat (length (Proof_ proof)) <= Z.log2_up (TreeSize proof) /\
   (Proof_ proof = [] <-> TreeSize proof = 1)).
Proof.
  intros Hf Hm Hn. split.
  - unfold CalcInclusionProof, HashLeaf, io_Copy. rewrite Hf. cbn [bind].
    destruct (Z.geb_spec (LeafIndex proof) (TreeSize proof)); [lia|].
    match goal with
    | |- context [fold_path ?p ?s] =>
        destruct (fold_path_outcome p s) as [[s' ->]| ->]
    end; cbn [bind]; [|right; reflexivity].
    destruct (negb (st_sn s' =? 0)); [right; reflexivity | left; eauto].
  - intros [h H].
    destruct (CalcInclusionProof_Ok _ _ _ H) as (_ & _ & s & Hfold & Hsn & _).
    unfold u64 in Hfold. rewrite Z.mod_small in Hfold by lia.
    destruct (fold_path_sn _ _ _ _ _ Hfold ltac:(lia)) as [_ Hlen].
    destruct (levels_bound (TreeSize proof) ltac:(lia)) as [He Hle].
    destruct (Proof_ proof) as [|p path] eqn:Epath.
    + cbn [length]. split; [lia|].
      injection Hfold as <-. cbn [st_sn] in Hsn.
      split; [lia | reflexivity].
    + specialize (Hlen ltac:(discriminate)).
      assert (Hlt : 2 ^ (Z.of_nat (length (p :: path)) - 1) <
                    2 ^ Z.log2_up (TreeSize proof)) by lia.
      apply Z.pow_lt_mono_r_iff in Hlt; [|lia|lia].
      split; [lia|]. split; [discriminate|].
      intros H1. rewrite H1 in *. cbn [length] in Hlen.
      assert (0 < 2 ^ (Z.of_nat (S (length path)) - 1))
        by (apply pow2_pos; lia).
      lia.
Qed.

(** X7. A proof binds the file: if [CalcInclusionProof] returns the same
    hash for one proof and two files of different content, the digest
    function has a collision. *)
Theorem content_binding (proof : InclusionProof) (r1 r2 : Reader)
    (h : bytes) :
  CalcInclusionProof proof r1 = Ok h ->
  CalcInclusionProof proof r2 = Ok h ->
  content r1 <> content r2 ->
  collision.
Proof.
  intros H1 H2 Hne.
  destruct (CalcInclusionProof_Ok _ _ _ H1) as (_ & _ & s1 & Hf1 & _ & Hr1).
  destruct (CalcInclusionProof_Ok _ _ _ H2) as (_ & _ & s2 & Hf2 & _ & Hr2).
  destruct (fold_path_collision _ _ _ _ _ _ _ Hf1 Hf2 ltac:(congruence))
    as [Hh|Hc]; [|exact Hc].
  eexists _, _. split; [|exact Hh].
  intros E. apply app_inv_head in E. apply app_inv_head in E.
  contradiction.
Qed.

(** X8. Leaves and internal nodes are hashed apart: a leaf hash that is
    also the hash [CreateTree] gives a node over two children is a
    collision of the digest function. *)
Theorem leaf_node_separation (r : Reader) (nonce : option bytes)
    (lhash rhash : bytes) :
  HashLeaf r nonce = Ok (node_hash lhash rhash) ->
  collision.
Proof.
  unfold HashLeaf, io_Copy, node_hash, Sum, Write, blake3_New.
  destruct (failure r); [discriminate|].
  intros [= H].
  eexists _, _. split; [|exact H]. cbn. discriminate.
Qed.

(** X9. A proof generated on a built tree never makes
    [CalcInclusionProof] fail by itself: against any file that reads to
    its end, whatever its content, the outcome is a hash. *)
Theorem generated_proof_no_error (leaves : list Node) (m : nat)
    (root : Node) (ip : InclusionProof) (reader : Reader) :
  Z.of_nat (length leaves) < 2 ^ 64 ->
  CreateTree leaves = Some root ->
  GetInclusionProof (Some root) (Z.of_nat (length leaves)) (Z.of_nat m)
    = Ok ip ->
  failure reader = None ->
  exists h, CalcInclusionProof ip reader = Ok h.
Proof.
  intros Hn Hroot Hip Hf.
  assert (Hm : (m < length leaves)%nat).
  { unfold GetInclusionProof in Hip.
    destruct (Z.geb_spec (Z.of_nat m) (Z.of_nat (length leaves)));
      [discriminate | lia]. }
  destruct (nth_error leaves m) as [leaf|] eqn:Hleaf;
    [|apply nth_error_None in Hleaf; lia].
  destruct (built_path_folds leaves root m leaf ltac:(lia) Hroot Hleaf)
    as (path & Hip' & Hfold).
  rewrite Hip in Hip'. injection Hip' as ->.
  unfold CalcInclusionProof, HashLeaf, io_Copy. rewrite Hf.
  cbn [bind LeafIndex TreeSize ProofNonce Proof_].
  destruct (Z.geb_spec (Z.of_nat m) (Z.of_nat (length leaves))); [lia|].
  unfold u64. rewrite Z.mod_small by lia.
  match goal with
  | |- context [mkState _ _ ?r] =>
      destruct (fold_path_any_hash _ _ _ _ r _ Hfold) as [r' ->]
  end.
  cbn. eauto.
Qed.


(** ** What the root hash depends on, and what it binds *)

Lemma split_at_length (l1 l2 : list Node) :
  length l1 = length l2 -> split_at l1 = split_at l2.
Proof. unfold split_at. intros ->. reflexivity. Qed.

Lemma root_hash_fuel fuel :
  forall l1 l2 r1 r2,
    map Hash l1 = map Hash l2 ->
    CreateTree_fuel fuel l1 = Some r1 ->
    CreateTree_fuel fuel l2 = Some r2 ->
    Hash r1 = Hash r2.
Proof.
  induction fuel as [|fuel IH]; intros l1 l2 r1 r2 Hmap H1 H2;
    [discriminate|].
  destruct l1 as [|a1 [|b1 l1]], l2 as [|a2 [|b2 l2]];
    try discriminate Hmap.
  - cbn [CreateTree_fuel] in H1, H2. congruence.
  - cbn [CreateTree_fuel] in H1, H2. cbn [map] in Hmap. congruence.
  - rewrite CreateTree_fuel_step in H1, H2.
    assert (Hlen : length (a1 :: b1 :: l1) = length (a2 :: b2 :: l2)).
    { rewrite <- (length_map Hash (a1 :: b1 :: l1)), Hmap.
      apply length_map. }
    rewrite <- (split_at_length _ _ Hlen) in H2.
    set (k := split_at (a1 :: b1 :: l1)) in *.
    destruct (CreateTree_fuel fuel (firstn k (a1 :: b1 :: l1)))
      as [ln1|] eqn:El1; [|discriminate].
    destruct (CreateTree_fuel fuel (skipn k (a1 :: b1 :: l1)))
      as [rn1|] eqn:Er1; [|discriminate].
    destruct (CreateTree_fuel fuel (firstn k (a2 :: b2 :: l2)))
      as [ln2|] eqn:El2; [|discriminate].
    destruct (CreateTree_fuel fuel (skipn k (a2 :: b2 :: l2)))
      as [rn2|] eqn:Er2; [|discriminate].
    injection H1 as <-. injection H2 as <-. cbn [internal Hash].
    assert (Hf : map Hash (firstn k (a1 :: b1 :: l1)) =
                 map Hash (firstn k (a2 :: b2 :: l2)))
      by (rewrite <- !firstn_map; f_equal; exact Hmap).
    assert (Hs : map Hash (skipn k (a1 :: b1 :: l1)) =
                 map Hash (skipn k (a2 :: b2 :: l2)))
      by (rewrite <- !skipn_map; f_equal; exact Hmap).
    rewrite (IH _ _ _ _ Hf El1 El2), (IH _ _ _ _ Hs Er1 Er2).
    reflexivity.
Qed.

(** X10. The root hash is a function of the leaves' hashes, in their
    order: slices of leaves with the same hashes, whatever their names
    and nonces, give trees with the same root hash. *)
Theorem root_hash_of_leaf_hashes (l1 l2 : list Node) (r1 r2 : Node) :
  map Hash l1 = map Hash l2 ->
  CreateTree l1 = Some r1 -> CreateTree l2 = Some r2 ->
  Hash r1 = Hash r2.
Proof.
  intros Hmap H1 H2. unfold CreateTree in *.
  assert (Hlen : length l1 = length l2).
  { rewrite <- (length_map Hash l1), Hmap. apply length_map. }
  rewrite <- Hlen in H2.
  exact (root_hash_fuel _ _ _ _ _ Hmap H1 H2).
Qed.

Lemma built_hash_sized fuel leaves root :
  digest_sized -> Forall hash_sized leaves ->
  CreateTree_fuel fuel leaves = Some root -> hash_sized root.
Proof.
  intros Hd Hl H. destruct fuel as [|fuel]; [discriminate|].
  destruct leaves as [|a [|b leaves]].
  - injection H as <-. apply Hd.
  - injection H as <-. inversion Hl. assumption.
  - rewrite CreateTree_fuel_step in H.
    destruct (CreateTree_fuel fuel _); [|discriminate].
    destruct (CreateTree_fuel fuel _); [|discriminate].
    injection H as <-. apply Hd.
Qed.

Lemma CreateTree_hash_sized leaves root :
  digest_sized -> Forall hash_sized leaves ->
  CreateTree leaves = Some root -> hash_sized root.
Proof.
  intros Hd Hl. unfold CreateTree.
  exact (built_hash_sized (S (length leaves)) leaves root Hd Hl).
Qed.

Lemma app_inj_length {A : Type} (a a' b b' : list A) :
  length a = length a' -> a ++ b = a' ++ b' -> a = a' /\ b = b'.
Proof.
  revert a'. induction a as [|x a IH]; intros [|x' a'] Hlen H;
    try discriminate.
  - split; [reflexivity | exact H].
  - injection H as -> H. injection Hlen as Hlen.
    destruct (IH _ Hlen H) as [-> ->]. split; reflexivity.
Qed.

Lemma node_inputs_internal (lnode rnode : Node) :
  node_inputs (internal lnode rnode) =
  ([x01] ++ Hash lnode ++ Hash rnode)
    :: node_inputs lnode ++ node_inputs rnode.
Proof. reflexivity. Qed.

Lemma collision_between_incl (xs ys xs' ys' : list bytes) :
  incl xs xs' -> incl ys ys' ->
  collision_between xs ys -> collision_between xs' ys'.
Proof.
  intros Hx Hy (x & y & Ix & Iy & Hne & Heq).
  exists x, y. repeat split; auto.
Qed.

Lemma root_binds_fuel fuel :
  digest_sized ->
  forall l1 l2 r1 r2,
    Forall hash_sized l1 -> Forall hash_sized l2 ->
    length l1 = length l2 ->
    CreateTree_fuel fuel l1 = Some r1 ->
    CreateTree_fuel fuel l2 = Some r2 ->
    Hash r1 = Hash r2 ->
    map Hash l1 = map Hash l2 \/
    collision_between (node_inputs r1) (node_inputs r2).
Proof.
  intros Hd.
  induction fuel as [|fuel IH]; intros l1 l2 r1 r2 Hs1 Hs2 Hlen H1 H2 Heq;
    [discriminate|].
  destruct l1 as [|a1 [|b1 l1]], l2 as [|a2 [|b2 l2]];
    try discriminate Hlen.
  - left. reflexivity.
  - cbn [CreateTree_fuel] in H1, H2.
    injection H1 as <-. injection H2 as <-. left. cbn [map]. congruence.
  - rewrite CreateTree_fuel_step in H1, H2.
    rewrite <- (split_at_length _ _ Hlen) in H2.
    set (k := split_at (a1 :: b1 :: l1)) in *.
    set (ls1 := a1 :: b1 :: l1) in *. set (ls2 := a2 :: b2 :: l2) in *.
    destruct (CreateTree_fuel fuel (firstn k ls1)) as [ln1|] eqn:El1;
      [|discriminate].
    destruct (CreateTree_fuel fuel (skipn k ls1)) as [rn1|] eqn:Er1;
      [|discriminate].
    destruct (CreateTree_fuel fuel (firstn k ls2)) as [ln2|] eqn:El2;
      [|discriminate].
    destruct (CreateTree_fuel fuel (skipn k ls2)) as [rn2|] eqn:Er2;
      [|discriminate].
    injection H1 as <-. injection H2 as <-. cbn [internal Hash] in Heq.
    rewrite !node_hash_eq in Heq. rewrite !node_inputs_internal.
    destruct (Forall_split hash_sized k ls1 Hs1) as [Hf1 Hk1].
    destruct (Forall_split hash_sized k ls2 Hs2) as [Hf2 Hk2].
    destruct (list_eq_dec byte_eq_dec ([x01] ++ Hash ln1 ++ Hash rn1)
                          ([x01] ++ Hash ln2 ++ Hash rn2)) as [E|Hne].
    2:{ right. eexists _, _.
        split; [left; reflexivity|]. split; [left; reflexivity|].
        split; [exact Hne | exact Heq]. }
    apply app_inv_head in E.
    pose proof (built_hash_sized _ _ _ Hd Hf1 El1) as Hz1.
    pose proof (built_hash_sized _ _ _ Hd Hf2 El2) as Hz2.
    unfold hash_sized in Hz1, Hz2.
    apply app_inj_length in E; [|lia]. destruct E as [EL ER].
    assert (Hlf : length (firstn k ls1) = length (firstn k ls2))
      by (rewrite !length_firstn, Hlen; reflexivity).
    assert (Hlk : length (skipn k ls1) = length (skipn k ls2))
      by (rewrite !length_skipn, Hlen; reflexivity).
    destruct (IH _ _ _ _ Hf1 Hf2 Hlf El1 El2 EL) as [ML|C].
    2:{ right. revert C. apply collision_between_incl;
          intros x Hx; right; apply in_or_app; left; exact Hx. }
    destruct (IH _ _ _ _ Hk1 Hk2 Hlk Er1 Er2 ER) as [MR|C].
    2:{ right. revert C. apply collision_between_incl;
          intros x Hx; right; apply in_or_app; right; exact Hx. }
    left.
    rewrite <- (firstn_skipn k ls1), <- (firstn_skipn k ls2), !map_app.
    rewrite ML, MR. reflexivity.
Qed.

(** X11. The root hash binds the leaves' hashes: when the digest and the
    leaves' hashes have [Blake3Size] bytes, two slices of the same number
    of leaves whose trees have the same root hash have the same hashes,
    leaf by leaf; or else a collision of the digest function is found in
    what [CreateTree] hashed: a string [0x01 || left.Hash || right.Hash]
    of a node of the first tree and a different one of a node of the
    second tree have the same digest. *)
Theorem root_binds_leaf_hashes (l1 l2 : list Node) (r1 r2 : Node) :
  digest_sized ->
  Forall hash_sized l1 -> Forall hash_sized l2 ->
  length l1 = length l2 ->
  CreateTree l1 = Some r1 -> CreateTree l2 = Some r2 ->
  Hash r1 = Hash r2 ->
  map Hash l1 = map Hash l2 \/
  collision_between (node_inputs r1) (node_inputs r2).
Proof.
  intros Hd Hs1 Hs2 Hlen H1 H2 Heq. unfold CreateTree in *.
  rewrite <- Hlen in H2.
  exact (root_binds_fuel (S (length l1)) Hd l1 l2 r1 r2
                         Hs1 Hs2 Hlen H1 H2 Heq).
Qed.


(** ** The loop of [gen] and the map of file names *)

Lemma NoDup_snoc {A : Type} (l : list A) (x : A) :
  NoDup (l ++ [x]) <-> NoDup l /\ ~ In x l.
Proof.
  induction l as [|a l IH]; cbn [app].
  - split.
    + intros _. split; [constructor | intros []].
    + intros _. constructor; [intros [] | constructor].
  - split.
    + intros H. inversion H as [|? ? Hn Hd]; subst.
      apply IH in Hd. destruct Hd as [Hd Hx].
      rewrite in_app_iff in Hn. split.
      * constructor; [tauto | exact Hd].
      * intros [->|Hin]; [apply Hn; right; left; reflexivity | tauto].
    + intros [H Hx]. inversion H as [|? ? Hn Hd]; subst.
      constructor.
      * rewrite in_app_iff. intros [Hin|[->|[]]]; [tauto|].
        apply Hx. left. reflexivity.
      * apply IH. split; [exact Hd|]. intros Hin. apply Hx. right. exact Hin.
Qed.

Lemma indexes_empty : indexes (StringMap.empty Z) [].
Proof.
  assert (Hc : StringMap.cardinal (StringMap.empty Z) = 0%nat)
    by (apply StringMapProps.cardinal_1, StringMap.empty_1).
  unfold indexes. rewrite Hc. cbn [map length].
  split; [|split; [|split]].
  - intros name. rewrite StringMapFacts.empty_in_iff. reflexivity.
  - intros name v H. rewrite StringMapFacts.empty_o in H. discriminate.
  - lia.
  - split; [intros _; constructor | reflexivity].
Qed.

(** One turn of the loop on a leaf keeps the map in step. *)
Lemma indexes_add files leaves leaf :
  Z.of_nat (length leaves) < 2 ^ 64 ->
  indexes files leaves ->
  indexes (StringMap.add (Name leaf) (u64 (Z.of_nat (length leaves))) files)
          (leaves ++ [leaf]).
Proof.
  intros Hlen (Hkeys & Hidx & Hle & Hcard).
  assert (Hu : u64 (Z.of_nat (length leaves)) = Z.of_nat (length leaves))
    by (unfold u64; apply Z.mod_small; lia).
  rewrite Hu. unfold indexes.
  rewrite map_app, length_app. cbn [map length].
  assert (Hnl : length (map Name leaves) = length leaves)
    by apply length_map.
  split; [|split].
  - intros name. rewrite StringMapFacts.add_in_iff, Hkeys, in_app_iff.
    cbn [In]. intuition.
  - intros name v H.
    destruct (string_dec (Name leaf) name) as [E|Hne].
    + subst name. rewrite StringMapFacts.add_eq_o in H by reflexivity.
      injection H as <-. exists (length leaves). split; [reflexivity|]. split.
      * rewrite nth_error_app2 by lia.
        rewrite Hnl, Nat.sub_diag. reflexivity.
      * intros j Hj. rewrite (proj2 (nth_error_None _ _)); [discriminate|].
        rewrite length_app, Hnl. cbn [length]. lia.
    + rewrite StringMapFacts.add_neq_o in H by exact Hne.
      destruct (Hidx name v H) as (i & -> & Hi & Hlast).
      assert (Hilt : (i < length leaves)%nat)
        by (rewrite <- Hnl; apply nth_error_Some; congruence).
      exists i. split; [reflexivity|]. split.
      * rewrite nth_error_app1 by lia. exact Hi.
      * intros j Hj.
        destruct (Nat.lt_ge_cases j (length leaves)) as [Hjl|Hjl].
        -- rewrite nth_error_app1 by lia. apply Hlast. exact Hj.
        -- rewrite nth_error_app2 by lia. rewrite Hnl.
           destruct (j - length leaves)%nat as [|d]; cbn.
           ++ congruence.
           ++ destruct d; discriminate.
  - rewrite NoDup_snoc, <- Hkeys.
    destruct (StringMapFacts.In_dec files (Name leaf)) as [Hin|Hnin].
    + rewrite (StringMapProps.cardinal_Add_In (m := files)
                 (x := Name leaf) (e := Z.of_nat (length leaves)) Hin)
        by (intros y; reflexivity).
      split; [lia|]. split; [lia | tauto].
    + rewrite (StringMapProps.cardinal_2 (m := files)
                 (x := Name leaf) (e := Z.of_nat (length leaves)) Hnin)
        by (intros y; reflexivity).
      split; [lia|]. rewrite <- Hcard. split; [intros; split; [lia|tauto]|].
      intros [H _]. lia.
Qed.

Lemma gen_outer_leaves ls :
  forall leaves files rest,
    Z.of_nat (length (leaves ++ ls)) < 2 ^ 64 ->
    indexes files leaves ->
    exists files',
      gen_outer (map from_leafCh ls ++ rest) leaves files =
      gen_outer rest (leaves ++ ls) files' /\
      indexes files' (leaves ++ ls).
Proof.
  induction ls as [|leaf ls IH]; intros leaves files rest Hlen Hidx.
  - exists files. rewrite app_nil_r. split; [reflexivity | exact Hidx].
  - rewrite length_app in Hlen. cbn [length] in Hlen.
    cbn [map app gen_outer].
    destruct (IH (leaves ++ [leaf])
                 (StringMap.add (Name leaf)
                    (u64 (Z.of_nat (length leaves))) files) rest)
      as (files' & Hrun & Hidx').
    + rewrite !length_app. cbn [length]. lia.
    + apply indexes_add; [lia | exact Hidx].
    + rewrite <- app_assoc in Hrun, Hidx'. cbn [app] in Hrun, Hidx'.
      exists files'. split; assumption.
Qed.

(** With distinct names, the map gives each leaf its index. *)
Lemma indexes_find files leaves m leaf :
  indexes files leaves -> NoDup (map Name leaves) ->
  nth_error leaves m = Some leaf ->
  StringMap.find (Name leaf) files = Some (Z.of_nat m) /\
  StringMap.cardinal files = length leaves.
Proof.
  intros (Hkeys & Hidx & _ & Hcard) Hnd Hm.
  split; [|apply Hcard; exact Hnd].
  assert (Hnm : nth_error (map Name leaves) m = Some (Name leaf))
    by (rewrite nth_error_map, Hm; reflexivity).
  assert (Hin : StringMap.In (Name leaf) files).
  { apply Hkeys. apply nth_error_In with m. exact Hnm. }
  apply StringMapFacts.in_find_iff in Hin.
  destruct (StringMap.find (Name leaf) files) as [v|] eqn:E; [|congruence].
  destruct (Hidx _ _ E) as (i & -> & Hi & _).
  rewrite NoDup_nth_error in Hnd.
  rewrite (Hnd i m); [reflexivity | | rewrite Hi, Hnm; reflexivity].
  apply nth_error_Some. rewrite Hi. discriminate.
Qed.

(** X12. The loop of [gen], when it receives leaves and then nil from
    [errCh], ends with the leaves in the order received and with a map
    whose keys are their names, each mapped to the index of the last leaf
    received with that name. [len(files)] is the number of leaves exactly
    when no two leaves share a name; otherwise it is smaller. *)
Theorem gen_outer_files (ls : list Node) (rest : list received) :
  Z.of_nat (length ls) < 2 ^ 64 ->
  exists files,
    gen_outer (map from_leafCh ls ++ from_errCh None :: rest)
              [] (StringMap.empty Z) = Some (Ok (ls, files)) /\
    indexes files ls /\
    (NoDup (map Name ls) ->
     forall m leaf, nth_error ls m = Some leaf ->
       StringMap.find (Name leaf) files = Some (Z.of_nat m)).
Proof.
  intros Hlen.
  destruct (gen_outer_leaves ls [] (StringMap.empty Z)
              (from_errCh None :: rest) Hlen indexes_empty)
    as (files & Hrun & Hidx).
  exists files. split; [exact Hrun|]. split; [exact Hidx|].
  intros Hnd m leaf Hm. apply (indexes_find files ls m leaf Hidx Hnd Hm).
Qed.


(** ** From [gen] to the verifying commands *)

Lemma bytes_Equal_eq (a b : bytes) : bytes_Equal a b = true <-> a = b.
Proof.
  unfold bytes_Equal. destruct (list_eq_dec byte_eq_dec a b); split;
    congruence.
Qed.

Lemma gen_made ls rest absPath startTime :
  Z.of_nat (length ls) < 2 ^ 64 ->
  exists files root,
    gen None (map from_leafCh ls ++ from_errCh None :: rest)
        (Ok absPath) startTime =
      Some (Ok {| Path := absPath; Files := files;
                  CreatedAt := startTime; Root := Some root |}) /\
    CreateTree ls = Some root /\ indexes files ls.
Proof.
  intros Hlen.
  destruct (gen_outer_leaves ls [] (StringMap.empty Z)
              (from_errCh None :: rest) Hlen indexes_empty)
    as (files & Hrun & Hidx).
  destruct (CreateTree_total ls Hlen) as [root Hroot].
  exists files, root. unfold gen. rewrite Hrun. cbn [app gen_outer].
  rewrite Hroot. split; [reflexivity|]. split; [reflexivity | exact Hidx].
Qed.

Lemma GetLeaf_ptr_built leaves root m leaf :
  1 <= Z.of_nat (length leaves) < 2 ^ 64 ->
  CreateTree leaves = Some root ->
  nth_error leaves m = Some leaf ->
  GetLeaf_ptr (Some root) (Z.of_nat (length leaves)) (Z.of_nat m) =
    Ok (Some leaf).
Proof.
  intros Hn Hroot Hm.
  pose proof (GetLeaf_built leaves root Hn Hroot m leaf Hm) as Hget.
  rewrite GetLeaf_ptr_GetLeaf in Hget.
  destruct (GetLeaf_ptr (Some root) (Z.of_nat (length leaves)) (Z.of_nat m))
    as [[leaf'|]|e|]; try discriminate.
  injection Hget as ->. reflexivity.
Qed.

Lemma tree_size_u64 files (ls : list Node) :
  Z.of_nat (length ls) < 2 ^ 64 ->
  StringMap.cardinal files = length ls ->
  u64 (Z.of_nat (StringMap.cardinal (elt:=Z) files)) = Z.of_nat (length ls).
Proof.
  intros Hlen ->. unfold u64. apply Z.mod_small. lia.
Qed.

(** X13. [gen], then [inclusion], then [verify-inclusion]: for files with
    distinct names, the tree [gen] makes from the leaves it received gives,
    for the name of the [m]-th leaf received, a proof with index [m] and
    the number of files as tree size; [GetLeaf] with that size and index,
    as [info] calls it, finds the leaf of that name; [CalcInclusionProof]
    on that proof and the bytes the leaf was hashed from returns the root
    hash, and [verifyInclusion] with that root hash as the expected one
    prints OK. *)
Theorem gen_inclusion_verify (ls : list Node) (rest : list received)
    (absPath : string) (startTime : Z) (m : nat) (leaf : Node)
    (reader : Reader) (hex : bool) :
  Z.of_nat (length ls) < 2 ^ 64 ->
  NoDup (map Name ls) ->
  nth_error ls m = Some leaf ->
  HashLeaf reader (Nonce leaf) = Ok (Hash leaf) ->
  exists t root ip,
    gen None (map from_leafCh ls ++ from_errCh None :: rest)
        (Ok absPath) startTime = Some (Ok t) /\
    Root t = Some root /\
    genInclusionProof t (Name leaf) = Ok ip /\
    LeafIndex ip = Z.of_nat m /\ TreeSize ip = Z.of_nat (length ls) /\
    GetLeaf_ptr (Root t) (TreeSize ip) (LeafIndex ip) = Ok (Some leaf) /\
    CalcInclusionProof ip reader = Ok (Hash root) /\
    verifyInclusion (Ok ip) (Ok reader) (Some (Ok (Hash root))) hex =
      Ok (Println "OK: proof and file match given root hash"%string).
Proof.
  intros Hlen Hnd Hm Hleaf.
  assert (Hlt : (m < length ls)%nat) by (apply nth_error_Some; congruence).
  destruct (gen_made ls rest absPath startTime Hlen)
    as (files & root & Hgen & Hroot & Hidx).
  destruct (indexes_find files ls m leaf Hidx Hnd Hm) as [Hfind Hcard].
  destruct (verify_built ls root m leaf reader ltac:(lia) Hroot Hm Hleaf)
    as (path & Hip & Hcalc).
  eexists _, root, _. split; [exact Hgen|]. split; [reflexivity|].
  unfold genInclusionProof. cbn [Files Root].
  rewrite Hfind. cbv zeta. rewrite (tree_size_u64 files ls Hlen Hcard), Hip.
  split; [reflexivity|]. cbn [LeafIndex TreeSize Root].
  split; [reflexivity|]. split; [reflexivity|].
  split; [apply GetLeaf_ptr_built; [lia | exact Hroot | exact Hm]|].
  split; [exact Hcalc|].
  unfold verifyInclusion. cbn [bind]. rewrite Hcalc.
  rewrite (proj2 (bytes_Equal_eq _ _) eq_refl). reflexivity.
Qed.

(** X14. [verify-file] on a tree made by [gen] from files with distinct
    names: for the name of a received leaf it prints OK exactly when the
    file now hashes, with the leaf's nonce, to the hash stored in the leaf,
    and NOT OK exactly when it hashes to another value; a name that no
    received leaf has is reported as not found. *)
Theorem gen_verifyFile (ls : list Node) (rest : list received)
    (absPath : string) (startTime : Z) (m : nat) (leaf : Node)
    (reader : Reader) :
  Z.of_nat (length ls) < 2 ^ 64 ->
  NoDup (map Name ls) ->
  nth_error ls m = Some leaf ->
  exists t,
    gen None (map from_leafCh ls ++ from_errCh None :: rest)
        (Ok absPath) startTime = Some (Ok t) /\
    (verifyFile (Ok t) (Name leaf) (Ok reader) =
       Ok (Println "OK: file is still verified by this Merkle tree"%string)
     <-> HashLeaf reader (Nonce leaf) = Ok (Hash leaf)) /\
    (verifyFile (Ok t) (Name leaf) (Ok reader) =
       Ok (Println
             "NOT OK: file has changed and is not part of the Merkle tree"%string)
     <-> exists h, HashLeaf reader (Nonce leaf) = Ok h /\ h <> Hash leaf) /\
    (forall name open,
       ~ In name (map Name ls) ->
       verifyFile (Ok t) name open =
       Err (errors_New
              "file with that name not found in Merkle tree"%string)).
Proof.
  intros Hlen Hnd Hm.
  assert (Hlt : (m < length ls)%nat) by (apply nth_error_Some; congruence).
  destruct (gen_made ls rest absPath startTime Hlen)
    as (files & root & Hgen & Hroot & Hidx).
  destruct (indexes_find files ls m leaf Hidx Hnd Hm) as [Hfind Hcard].
  pose proof (GetLeaf_built ls root ltac:(lia) Hroot m leaf Hm) as Hget.
  rewrite GetLeaf_ptr_GetLeaf in Hget.
  eexists. split; [exact Hgen|].
  assert (Hrun : forall r,
             verifyFile
               (Ok {| Path := absPath; Files := files;
                      CreatedAt := startTime; Root := Some root |})
               (Name leaf) (Ok r) =
             (hash <- HashLeaf r (Nonce leaf) ;;
              if bytes_Equal hash (Hash leaf) then
                Ok (Println
                      "OK: file is still verified by this Merkle tree"%string)
              else
                Ok (Println
                      "NOT OK: file has changed and is not part of the Merkle tree"%string))).
  { intros r. unfold verifyFile. cbn [Files Root]. rewrite Hfind.
    rewrite (tree_size_u64 files ls Hlen Hcard).
    destruct (GetLeaf_ptr (Some root) (Z.of_nat (length ls)) (Z.of_nat m))
      as [[leaf'|]|e|]; try discriminate.
    injection Hget as ->. reflexivity. }
  split; [|split].
  - rewrite Hrun.
    destruct (HashLeaf reader (Nonce leaf)) as [h|e|]; cbn [bind].
    + destruct (bytes_Equal h (Hash leaf)) eqn:E.
      * apply bytes_Equal_eq in E. subst h. split; reflexivity.
      * split; [discriminate|]. intros [= ->].
        rewrite (proj2 (bytes_Equal_eq _ _) eq_refl) in E. discriminate.
    + split; discriminate.
    + split; discriminate.
  - rewrite Hrun.
    destruct (HashLeaf reader (Nonce leaf)) as [h|e|]; cbn [bind].
    + destruct (bytes_Equal h (Hash leaf)) eqn:E.
      * apply bytes_Equal_eq in E. subst h.
        split; [discriminate|]. intros (h & [= <-] & Hne). congruence.
      * split; [|reflexivity]. intros _. exists h. split; [reflexivity|].
        intros ->. rewrite (proj2 (bytes_Equal_eq _ _) eq_refl) in E.
        discriminate.
    + split; [discriminate|]. intros (h & H & _). discriminate.
    + split; [discriminate|]. intros (h & H & _). discriminate.
  - intros name open Hnin. unfold verifyFile. cbn [Files].
    destruct Hidx as (Hkeys & _).
    rewrite <- Hkeys in Hnin.
    apply StringMapFacts.not_find_in_iff in Hnin. rewrite Hnin. reflexivity.
Qed.


(** ** [genInclusionProof] on any tree *)

Lemma descent_errors :
  forall root n m e,
    GetInclusionProof root n m = Err e ->
    e = IndexOutOfRange_gen \/ e = TreeSizeMismatch.
Proof.
  assert (Hat : forall x n m e,
             GetInclusionProof (Some x) n m = Err e ->
             e = IndexOutOfRange_gen \/ e = TreeSizeMismatch).
  { induction x as [h name lnode rnode nonce IHl IHr] using Node_children_ind.
    intros n m e. unfold GetInclusionProof.
    destruct (m >=? n); [intros [= <-]; left; reflexivity|].
    rewrite GetInclusionProof_at_eq.
    destruct (n =? 1); [discriminate|]. cbv zeta. cbn [Left Right].
    destruct (m <? flp2 n).
    - destruct rnode as [rn|]; [|intros [= <-]; right; reflexivity].
      destruct lnode as [ln|].
      + destruct (GetInclusionProof (Some ln) (flp2 n) m) as [ip|e'|] eqn:E;
          cbn [bind]; [discriminate| |discriminate].
        intros [= <-]. exact (IHl ln eq_refl _ _ _ E).
      + unfold GetInclusionProof.
        destruct (m >=? flp2 n); cbn [bind];
          [intros [= <-]; left; reflexivity | discriminate].
    - destruct lnode as [ln|]; [|intros [= <-]; right; reflexivity].
      destruct rnode as [rn|].
      + destruct (GetInclusionProof (Some rn) (u64 (n - flp2 n))
                    (u64 (m - flp2 n))) as [ip|e'|] eqn:E;
          cbn [bind]; [discriminate| |discriminate].
        intros [= <-]. exact (IHr rn eq_refl _ _ _ E).
      + unfold GetInclusionProof.
        destruct (u64 (m - flp2 n) >=? u64 (n - flp2 n)); cbn [bind];
          [intros [= <-]; left; reflexivity | discriminate]. }
  intros [x|] n m e; [apply Hat|].
  unfold GetInclusionProof.
  destruct (m >=? n); [intros [= <-]; left; reflexivity | discriminate].
Qed.

Lemma GetInclusionProof_fields root n m ip :
  GetInclusionProof root n m = Ok ip ->
  LeafIndex ip = m /\ TreeSize ip = n /\ m < n.
Proof.
  unfold GetInclusionProof.
  destruct (Z.geb_spec m n); [discriminate|].
  destruct root as [x|]; [|discriminate].
  rewrite GetInclusionProof_at_eq.
  destruct (n =? 1); [intros [= <-]; cbn; auto|]. cbv zeta.
  destruct (m <? flp2 n).
  - destruct (Right x); [|discriminate].
    destruct (GetInclusionProof (Left x) (flp2 n) m); cbn [bind];
      [|discriminate ..].
    intros [= <-]. cbn. auto.
  - destruct (Left x); [|discriminate].
    destruct (GetInclusionProof (Right x) _ _); cbn [bind];
      [|discriminate ..].
    intros [= <-]. cbn. auto.
Qed.

(** X15. [genInclusionProof] on any tree value, as one read from a file
    may be: a proof it returns has the index [files[name]] and the tree
    size [len(files)], with the index below the size; an error it returns
    is "filename not found in tree", exactly for a name that is no key of
    the map, or one of the two errors of the descent behind the prefix
    "error calculating proof: ". *)
Theorem genInclusionProof_outcome (t : tree) (name : string) :
  match genInclusionProof t name with
  | Ok ip =>
      StringMap.find name (Files t) = Some (LeafIndex ip) /\
      TreeSize ip = u64 (Z.of_nat (StringMap.cardinal (Files t))) /\
      LeafIndex ip < TreeSize ip
  | Err e =>
      (StringMap.find name (Files t) = None /\
       e = errors_New "filename not found in tree"%string) \/
      (StringMap.find name (Files t) <> None /\
       (e = errors_New
              "error calculating proof: given leaf index is impossible"%string \/
        e = errors_New
              "error calculating proof: given number of leaves is incorrect"%string))
  | Panic => StringMap.find name (Files t) <> None
  end.
Proof.
  unfold genInclusionProof.
  destruct (StringMap.find name (Files t)) as [leafN|];
    [|left; split; reflexivity].
  cbv zeta.
  destruct (GetInclusionProof (Root t) _ leafN) as [ip|e|] eqn:E.
  - destruct (GetInclusionProof_fields _ _ _ _ E) as (-> & -> & Hlt).
    repeat split. exact Hlt.
  - right. split; [discriminate|].
    destruct (descent_errors _ _ _ _ E) as [-> | ->];
      [left | right]; reflexivity.
  - discriminate.
Qed.

(** ** The end of the loop of [gen] *)

Lemma gen_outer_app ls :
  forall leaves files rest,
  exists files',
    gen_outer (map from_leafCh ls ++ rest) leaves files =
    gen_outer rest (leaves ++ ls) files'.
Proof.
  induction ls as [|leaf ls IH]; intros leaves files rest.
  - exists files. rewrite app_nil_r. reflexivity.
  - cbn [map app gen_outer].
    destruct (IH (leaves ++ [leaf])
                 (StringMap.add (Name leaf)
                    (u64 (Z.of_nat (length leaves))) files) rest)
      as [files' H].
    exists files'. rewrite H, <- app_assoc. reflexivity.
Qed.

Lemma gen_outer_Ok rs :
  forall leaves files leaves' files',
    gen_outer rs leaves files = Some (Ok (leaves', files')) ->
    exists ls rest,
      rs = map from_leafCh ls ++ from_errCh None :: rest /\
      leaves' = leaves ++ ls.
Proof.
  induction rs as [|[[err|]|leaf] rs IH]; intros leaves files leaves' files' H;
    cbn [gen_outer] in H.
  - discriminate.
  - discriminate.
  - injection H as <- <-. exists [], rs. rewrite app_nil_r.
    split; reflexivity.
  - destruct (IH _ _ _ _ H) as (ls & rest & -> & ->).
    exists (leaf :: ls), rest. rewrite <- app_assoc. split; reflexivity.
Qed.

(** X16. The loop of [gen] ends at the first value it receives from
    [errCh]: an error received there is what [gen] returns, whatever was
    received before and whatever would come after; while only leaves are
    received the loop does not end; and a tree that [gen] makes is built
    from exactly the leaves received before the nil, in that order. *)
Theorem gen_first_errCh (ls : list Node) (rest : list received)
    (abs : result string) (startTime : Z) :
  (forall e,
     gen None (map from_leafCh ls ++ from_errCh (Some e) :: rest)
         abs startTime = Some (Err e)) /\
  gen None (map from_leafCh ls) abs startTime = None /\
  (forall rs t,
     gen None rs abs startTime = Some (Ok t) ->
     exists ls' rest',
       rs = map from_leafCh ls' ++ from_errCh None :: rest' /\
       Root t = CreateTree ls' /\
       abs = Ok (Path t) /\ CreatedAt t = startTime).
Proof.
  split; [|split].
  - intros e. unfold gen.
    destruct (gen_outer_app ls [] (StringMap.empty Z)
                (from_errCh (Some e) :: rest)) as [files' ->].
    reflexivity.
  - unfold gen.
    destruct (gen_outer_app ls [] (StringMap.empty Z) []) as [files' H].
    rewrite app_nil_r in H. rewrite H. reflexivity.
  - intros rs t. unfold gen.
    destruct (gen_outer rs [] (StringMap.empty Z))
      as [[[leaves' files']|e|]|] eqn:E; try discriminate.
    destruct abs as [absPath|e|]; try discriminate.
    destruct (CreateTree leaves') as [root|] eqn:Hroot; [|discriminate].
    intros [= <-]. cbn [Root Path CreatedAt].
    destruct (gen_outer_Ok _ _ _ _ _ E) as (ls' & rest' & -> & ->).
    cbn [app] in Hroot. exists ls', rest'. rewrite Hroot. repeat split.
Qed.

(** ** The header of the files *)

Lemma bytes_Equal_refl (a : bytes) : bytes_Equal a a = true.
Proof. apply bytes_Equal_eq. reflexivity. Qed.

Lemma io_ReadFull_app (a b : bytes) (fl : option error) :
  io_ReadFull {| content := a ++ b; failure := fl |} (length a) =
  Ok (a, {| content := b; failure := fl |}).
Proof.
  unfold io_ReadFull. cbn [content failure]. rewrite length_app.
  destruct (Nat.leb_spec (length a) (length a + length b)); [|lia].
  rewrite firstn_app, Nat.sub_diag, firstn_all, firstn_O, app_nil_r.
  rewrite skipn_app, Nat.sub_diag, skipn_all. reflexivity.
Qed.

(** X17. The header of a tree or proof file: what [writeTree] writes is
    the eight bytes "merkdir", 1 and then the encoding, and [readTree] on
    such a file hands the decoder exactly the bytes after the header; a
    file of eight bytes or more that starts otherwise is refused as
    "invalid file header", and a shorter one with an end-of-file error,
    in both cases before anything is decoded. *)
Theorem file_header_checked (A : Type) (Encode : A -> result bytes)
    (Decode : Reader -> result A) (t : A) (f : Reader) :
  length fileHeader = 8%nat /\
  (forall file,
     writeTree Encode t None None = Ok file ->
     exists enc,
       Encode t = Ok enc /\ file = fileHeader ++ enc /\
       readTree Decode (Ok (bytes_Reader file)) = Decode (bytes_Reader enc)) /\
  ((8 <= length (content f))%nat ->
   firstn 8 (content f) <> fileHeader ->
   readTree Decode (Ok f) = Err (errors_New "invalid file header"%string)) /\
  ((length (content f) < 8)%nat -> failure f = None ->
   readTree Decode (Ok f) =
   Err (if (length (content f) =? 0)%nat then io_EOF
        else io_ErrUnexpectedEOF)).
Proof.
  split; [reflexivity|]. split; [|split].
  - intros file. unfold writeTree.
    destruct (Encode t) as [enc|e|]; cbn [bind]; [|discriminate ..].
    intros Hfile. exists enc.
    assert (E : file = fileHeader ++ enc) by congruence.
    split; [reflexivity|]. split; [exact E|]. subst file.
    unfold readTree, bytes_Reader. cbn [bind].
    rewrite io_ReadFull_app. cbn [bind].
    rewrite bytes_Equal_refl. reflexivity.
  - intros Hlen Hne. unfold readTree, io_ReadFull. cbn [bind].
    change (length fileHeader) with 8%nat.
    destruct (Nat.leb_spec 8 (length (content f))); [|lia].
    cbn [bind].
    destruct (bytes_Equal (firstn 8 (content f)) fileHeader) eqn:E;
      [|reflexivity].
    apply bytes_Equal_eq in E. contradiction.
  - intros Hlen Hf. unfold readTree, io_ReadFull. cbn [bind].
    change (length fileHeader) with 8%nat.
    destruct (Nat.leb_spec 8 (length (content f))); [lia|].
    rewrite Hf. destruct (content f); reflexivity.
Qed.


(** ** The generated path against RFC 9162, section 2.1.3.1 *)

(** [rfc_k n] is the [k] of the RFC: a power of two with [k < n <= 2k]. *)
Lemma rfc_k_spec (n : nat) :
  (2 <= n)%nat ->
  exists j, rfc_k n = (2 ^ j)%nat /\ (rfc_k n < n <= 2 * rfc_k n)%nat.
Proof.
  intros Hn. unfold rfc_k.
  assert (H1 : 0 < Z.of_nat n - 1) by lia.
  destruct (Z.log2_spec _ H1) as [Hlo Hhi].
  pose proof (Z.log2_nonneg (Z.of_nat n - 1)) as Hj.
  rewrite Z.pow_succ_r in Hhi by exact Hj.
  assert (Hp : 0 < 2 ^ Z.log2 (Z.of_nat n - 1))
    by (apply Z.pow_pos_nonneg; lia).
  exists (Z.to_nat (Z.log2 (Z.of_nat n - 1))). split; [|lia].
  rewrite Z2Nat.inj_pow by lia. reflexivity.
Qed.

Lemma rfc_k_split_at (leaves : list Node) :
  2 <= Z.of_nat (length leaves) < 2 ^ 64 ->
  rfc_k (length (map Hash leaves)) = split_at leaves.
Proof.
  intros Hn. unfold rfc_k, split_at. rewrite length_map.
  unfold u64. rewrite Z.mod_small by lia.
  rewrite flp2_eq by exact Hn. reflexivity.
Qed.

Lemma rfc_MTH_step (hs : list bytes) :
  (2 <= length hs)%nat ->
  rfc_MTH hs =
  blake3_Sum256 ([x01] ++ rfc_MTH (firstn (rfc_k (length hs)) hs)
                       ++ rfc_MTH (skipn (rfc_k (length hs)) hs)).
Proof.
  destruct hs as [|a [|b hs]]; cbn [length]; intros H; try lia.
  apply rfc_MTH_equation_3.
Qed.

Lemma rfc_PATH_step (m : nat) (hs : list bytes) :
  (2 <= length hs)%nat ->
  rfc_PATH m hs =
  if (m <? rfc_k (length hs))%nat then
    rfc_PATH m (firstn (rfc_k (length hs)) hs)
      ++ [rfc_MTH (skipn (rfc_k (length hs)) hs)]
  else
    rfc_PATH (m - rfc_k (length hs)) (skipn (rfc_k (length hs)) hs)
      ++ [rfc_MTH (firstn (rfc_k (length hs)) hs)].
Proof.
  destruct hs as [|a [|b hs]]; cbn [length]; intros H; try lia.
  apply rfc_PATH_equation_3.
Qed.

Lemma built_rfc leaves root :
  1 <= Z.of_nat (length leaves) < 2 ^ 64 ->
  CreateTree leaves = Some root ->
  Hash root = rfc_MTH (map Hash leaves) /\
  forall m leaf, nth_error leaves m = Some leaf ->
    GetInclusionProof (Some root) (Z.of_nat (length leaves)) (Z.of_nat m) =
      Ok {| LeafIndex := Z.of_nat m; TreeSize := Z.of_nat (length leaves);
            ProofNonce := Nonce leaf;
            Proof_ := rfc_PATH m (map Hash leaves) |}.
Proof.
  revert leaves root. apply CreateTree_built_ind.
  - intros leaf. cbn [map]. rewrite rfc_MTH_equation_2.
    split; [reflexivity|]. intros m leaf' H.
    destruct m as [|m]; [|destruct m; discriminate H].
    injection H as <-.
    rewrite GetInclusionProof_Some, GetInclusionProof_at_eq by (cbn; lia).
    rewrite rfc_PATH_equation_2. reflexivity.
  - intros leaves lnode rnode Hn El Er [IHlh IHlp] [IHrh IHrp].
    destruct (split_at_bounds leaves Hn) as [Hk Hkb].
    assert (Hml : (2 <= length (map Hash leaves))%nat)
      by (rewrite length_map; lia).
    pose proof (rfc_k_split_at leaves Hn) as Hrk.
    split.
    + rewrite (rfc_MTH_step _ Hml), Hrk, firstn_map, skipn_map.
      rewrite <- IHlh, <- IHrh. reflexivity.
    + intros m leaf Hm.
      assert (Hlt : (m < length leaves)%nat)
        by (apply nth_error_Some; congruence).
      destruct (nth_error_split leaves (split_at leaves) m leaf Hm)
        as [Hfst Hskp].
      rewrite (rfc_PATH_step m _ Hml), Hrk, firstn_map, skipn_map.
      rewrite <- IHlh, <- IHrh.
      rewrite GetInclusionProof_Some, GetInclusionProof_at_eq by lia.
      destruct (Z.eqb_spec (Z.of_nat (length leaves)) 1) as [E1|_]; [lia|].
      cbv zeta. rewrite <- Hk. cbn [Left Right internal].
      destruct (Z.ltb_spec (Z.of_nat m) (Z.of_nat (split_at leaves)))
        as [Hlo|Hhi].
      * destruct (Nat.ltb_spec m (split_at leaves)); [|lia].
        specialize (IHlp m leaf (Hfst ltac:(lia))).
        rewrite length_firstn, Nat.min_l in IHlp by lia.
        rewrite IHlp. reflexivity.
      * destruct (Nat.ltb_spec m (split_at leaves)); [lia|].
        unfold u64. rewrite !Z.mod_small by lia.
        specialize (IHrp (m - split_at leaves)%nat leaf (Hskp ltac:(lia))).
        rewrite length_skipn in IHrp.
        rewrite !Nat2Z.inj_sub in IHrp by lia.
        rewrite IHrp. reflexivity.
Qed.

(** X18. On a tree built from [n] leaves, [1 <= n < 2^64], the root hash
    is the Merkle tree hash of RFC 9162 over the leaves' hashes, and the
    proof [GetInclusionProof] returns for the [m]-th leaf carries exactly
    the RFC's inclusion path [PATH(m, D_n)], innermost sibling first. *)
Theorem GetInclusionProof_rfc_PATH (leaves : list Node) (root : Node)
    (m : nat) (leaf : Node) :
  Z.of_nat (length leaves) < 2 ^ 64 ->
  CreateTree leaves = Some root ->
  nth_error leaves m = Some leaf ->
  Hash root = rfc_MTH (map Hash leaves) /\
  GetInclusionProof (Some root) (Z.of_nat (length leaves)) (Z.of_nat m) =
    Ok {| LeafIndex := Z.of_nat m; TreeSize := Z.of_nat (length leaves);
          ProofNonce := Nonce leaf;
          Proof_ := rfc_PATH m (map Hash leaves) |}.
Proof.
  intros Hn Hroot Hm.
  assert (Hlt : (m < length leaves)%nat) by (apply nth_error_Some; congruence).
  destruct (built_rfc leaves root ltac:(lia) Hroot) as [Hh Hp].
  split; [exact Hh | exact (Hp m leaf Hm)].
Qed.


(** ** Two leaves under one name *)

(** X19. [gen] does not check that names are distinct. When the last
    leaf received has the name of an earlier one, the tree [gen] makes has
    fewer entries in [Files] than leaves, the name is mapped to the last
    index, and [genInclusionProof] and [verifyFile] for that name fail in
    the descent with "given leaf index is impossible". *)
Theorem gen_duplicate_name (ls : list Node) (last : Node)
    (rest : list received) (absPath : string) (startTime : Z)
    (open : result Reader) :
  Z.of_nat (length (ls ++ [last])) < 2 ^ 64 ->
  In (Name last) (map Name ls) ->
  exists t,
    gen None (map from_leafCh (ls ++ [last]) ++ from_errCh None :: rest)
        (Ok absPath) startTime = Some (Ok t) /\
    (StringMap.cardinal (Files t) < length (ls ++ [last]))%nat /\
    StringMap.find (Name last) (Files t) = Some (Z.of_nat (length ls)) /\
    genInclusionProof t (Name last) =
      Err (errors_New
             "error calculating proof: given leaf index is impossible"%string) /\
    verifyFile (Ok t) (Name last) open =
      Err (errors_New
             "error finding leaf in tree: given leaf index is impossible"%string).
Proof.
  intros Hlen Hdup.
  destruct (gen_made (ls ++ [last]) rest absPath startTime Hlen)
    as (files & root & Hgen & Hroot & Hidx).
  destruct Hidx as (Hkeys & Hidx & Hle & Hcard).
  rewrite length_app in *. cbn [length] in *.
  assert (Hlt : (StringMap.cardinal files < length ls + 1)%nat).
  { destruct (Nat.eq_dec (StringMap.cardinal files) (length ls + 1))
      as [E|]; [|lia].
    apply Hcard in E. rewrite map_app in E. cbn [map] in E.
    apply NoDup_snoc in E. tauto. }
  assert (Hnth : nth_error (map Name (ls ++ [last])) (length ls) =
                 Some (Name last)).
  { rewrite map_app, nth_error_app2 by (rewrite length_map; lia).
    rewrite length_map, Nat.sub_diag. reflexivity. }
  assert (Hfind : StringMap.find (Name last) files =
                  Some (Z.of_nat (length ls))).
  { assert (Hin : StringMap.In (Name last) files).
    { apply Hkeys. apply nth_error_In with (length ls). exact Hnth. }
    apply StringMapFacts.in_find_iff in Hin.
    destruct (StringMap.find (Name last) files) as [v|] eqn:E; [|congruence].
    destruct (Hidx _ _ E) as (i & -> & Hi & Hlast).
    assert (Hil : (i < length (map Name (ls ++ [last])))%nat)
      by (apply nth_error_Some; rewrite Hi; discriminate).
    rewrite length_map, length_app in Hil. cbn [length] in Hil.
    destruct (Nat.eq_dec i (length ls)) as [->|Hne]; [reflexivity|].
    exfalso. apply (Hlast (length ls)); [lia | exact Hnth]. }
  assert (Hu : u64 (Z.of_nat (StringMap.cardinal (elt:=Z) files)) =
               Z.of_nat (StringMap.cardinal (elt:=Z) files))
    by (unfold u64; apply Z.mod_small; lia).
  eexists. split; [exact Hgen|]. cbn [Files].
  split; [exact Hlt|]. split; [exact Hfind|]. split.
  - unfold genInclusionProof. cbn [Files Root]. rewrite Hfind. cbv zeta.
    rewrite Hu. unfold GetInclusionProof.
    destruct (Z.geb_spec (Z.of_nat (length ls))
                (Z.of_nat (StringMap.cardinal files))); [|lia].
    reflexivity.
  - unfold verifyFile. cbn [Files Root]. rewrite Hfind, Hu.
    unfold GetLeaf_ptr.
    destruct (Z.geb_spec (Z.of_nat (length ls))
                (Z.of_nat (StringMap.cardinal files))); [|lia].
    reflexivity.
Qed.


(** ** What a verified proof proves *)

Lemma app_inj_length_r {A : Type} (a a' b b' : list A) :
  length b = length b' -> a ++ b = a' ++ b' -> a = a' /\ b = b'.
Proof.
  intros Hlen H. apply app_inj_length; [|exact H].
  apply (f_equal (@length A)) in H. rewrite !length_app in H. lia.
Qed.

(** The length of an accepted path is fixed by the counters. *)
Lemma fold_length_unique p1 :
  forall p2 fn sn r1 r2 s1 s2,
    fold_path p1 (mkState fn sn r1) = Ok s1 -> st_sn s1 = 0 ->
    fold_path p2 (mkState fn sn r2) = Ok s2 -> st_sn s2 = 0 ->
    length p1 = length p2.
Proof.
  induction p1 as [|p p1 IH]; intros [|q p2] fn sn r1 r2 s1 s2 H1 Z1 H2 Z2.
  - reflexivity.
  - injection H1 as <-. cbn [st_sn] in Z1. subst sn.
    cbn [fold_path] in H2. rewrite fold_step_shape in H2. discriminate.
  - injection H2 as <-. cbn [st_sn] in Z2. subst sn.
    cbn [fold_path] in H1. rewrite fold_step_shape in H1. discriminate.
  - cbn [fold_path] in H1, H2. rewrite fold_step_shape in H1, H2.
    destruct (sn =? 0); [discriminate|].
    cbn [length]. f_equal.
    destruct ((Z.land fn 1 =? 1) || (fn =? sn)); cbn [bind] in H1, H2;
      exact (IH _ _ _ _ _ _ _ H1 Z1 H2 Z2).
Qed.

Lemma digest_sized_length (x y : bytes) :
  digest_sized -> length (blake3_Sum256 x) = length (blake3_Sum256 y).
Proof.
  intros Hd. pose proof (Hd x). pose proof (Hd y). lia.
Qed.

Lemma fold_inputs_cons p path fn sn r :
  fold_inputs (p :: path) (mkState fn sn r) =
  if sn =? 0 then []
  else if (Z.land fn 1 =? 1) || (fn =? sn) then
    ([x01] ++ p ++ r)
      :: fold_inputs path
           (mkState (Z.shiftr (fst (shift_while fn sn)) 1)
                    (Z.shiftr (snd (shift_while fn sn)) 1) (node_hash p r))
  else
    ([x01] ++ r ++ p)
      :: fold_inputs path
           (mkState (Z.shiftr fn 1) (Z.shiftr sn 1) (node_hash r p)).
Proof.
  cbn [fold_inputs]. rewrite fold_step_shape. cbn [st_fn st_sn st_r].
  destruct (sn =? 0); [reflexivity|].
  destruct ((Z.land fn 1 =? 1) || (fn =? sn)); reflexivity.
Qed.

(** Two paths of one length folded from the same counters to the same
    hash: the same paths from the same hash, or a collision between what
    the two folds hashed. *)
Lemma fold_path_binding :
  digest_sized ->
  forall p1 p2 fn sn r1 r2 s1 s2,
    length p1 = length p2 -> length r1 = length r2 ->
    fold_path p1 (mkState fn sn r1) = Ok s1 ->
    fold_path p2 (mkState fn sn r2) = Ok s2 ->
    st_r s1 = st_r s2 ->
    (r1 = r2 /\ p1 = p2) \/
    collision_between (fold_inputs p1 (mkState fn sn r1))
                      (fold_inputs p2 (mkState fn sn r2)).
Proof.
  intros Hd.
  induction p1 as [|p p1 IH]; intros [|q p2] fn sn r1 r2 s1 s2 Hlen Hr H1 H2 Heq;
    try discriminate Hlen.
  - injection H1 as <-. injection H2 as <-. left. split; [exact Heq|reflexivity].
  - injection Hlen as Hlen.
    rewrite !fold_inputs_cons.
    cbn [fold_path] in H1, H2. rewrite fold_step_shape in H1, H2.
    destruct (sn =? 0); [discriminate|].
    destruct ((Z.land fn 1 =? 1) || (fn =? sn)); cbn [bind] in H1, H2;
      rewrite !node_hash_eq in H1, H2; rewrite !node_hash_eq;
      (destruct (IH _ _ _ _ _ _ _ Hlen (digest_sized_length _ _ Hd) H1 H2 Heq)
        as [[Hh ->]|Hc];
       [|right; revert Hc; apply collision_between_incl;
         intros x Hx; right; exact Hx]).
    + destruct (list_eq_dec byte_eq_dec ([x01] ++ p ++ r1)
                            ([x01] ++ q ++ r2)) as [E|Hne].
      * apply app_inv_head in E.
        apply app_inj_length_r in E; [|exact Hr].
        destruct E as [-> ->]. left. split; reflexivity.
      * right. eexists _, _.
        split; [left; reflexivity|]. split; [left; reflexivity|].
        split; [exact Hne | exact Hh].
    + destruct (list_eq_dec byte_eq_dec ([x01] ++ r1 ++ p)
                            ([x01] ++ r2 ++ q)) as [E|Hne].
      * apply app_inv_head in E.
        apply app_inj_length in E; [|exact Hr].
        destruct E as [-> ->]. left. split; reflexivity.
      * right. eexists _, _.
        split; [left; reflexivity|]. split; [left; reflexivity|].
        split; [exact Hne | exact Hh].
Qed.

(** X20. Soundness of verification. Let a tree be built from [n] leaves
    whose hashes, like the digest, have [Blake3Size] bytes. If
    [CalcInclusionProof], for a proof with index [m] and tree size [n] and
    for some file, returns the root hash of that tree, then the file
    hashes, with the proof's nonce, to the hash of the [m]-th leaf, and
    the path of the proof is the one [GetInclusionProof] generates for
    [m]; or else a collision of the digest function is found in what was
    hashed: a string the verifier's loop hashed on the given path, from
    the hash of the file, and a different string it hashes on the
    generated path, from the hash of the leaf, have the same digest. *)
Theorem inclusion_sound (leaves : list Node) (m : nat) (leaf root : Node)
    (proof : InclusionProof) (reader : Reader) :
  digest_sized ->
  Forall hash_sized leaves ->
  Z.of_nat (length leaves) < 2 ^ 64 ->
  CreateTree leaves = Some root ->
  nth_error leaves m = Some leaf ->
  LeafIndex proof = Z.of_nat m ->
  TreeSize proof = Z.of_nat (length leaves) ->
  CalcInclusionProof proof reader = Ok (Hash root) ->
  exists ip,
    GetInclusionProof (Some root) (Z.of_nat (length leaves)) (Z.of_nat m)
      = Ok ip /\
    ((HashLeaf reader (ProofNonce proof) = Ok (Hash leaf) /\
      Proof_ proof = Proof_ ip) \/
     collision_between
       (fold_inputs (Proof_ proof)
          (mkState (Z.of_nat m) (Z.of_nat (length leaves) - 1)
             (blake3_Sum256
                ([x00] ++ slice_bytes (ProofNonce proof)
                       ++ content reader))))
       (fold_inputs (Proof_ ip)
          (mkState (Z.of_nat m) (Z.of_nat (length leaves) - 1)
             (Hash leaf)))).
Proof.
  intros Hd Hsized Hn Hroot Hm Hidx Hsize Hcalc.
  assert (Hlt : (m < length leaves)%nat) by (apply nth_error_Some; congruence).
  destruct (built_path_folds leaves root m leaf ltac:(lia) Hroot Hm)
    as (path & Hip & Hgen).
  destruct (CalcInclusionProof_Ok _ _ _ Hcalc)
    as (Hf & _ & s & Hfold & Hsn & Hr).
  rewrite Hidx, Hsize in Hfold.
  unfold u64 in Hfold. rewrite Z.mod_small in Hfold by lia.
  pose proof (fold_length_unique _ _ _ _ _ _ _ _ Hfold Hsn Hgen eq_refl)
    as Hlen.
  assert (Hleaf : hash_sized leaf).
  { rewrite Forall_forall in Hsized. apply Hsized.
    apply nth_error_In with m. exact Hm. }
  assert (Hrl : length (blake3_Sum256
                          ([x00] ++ slice_bytes (ProofNonce proof)
                                 ++ content reader)) =
                length (Hash leaf)).
  { unfold hash_sized in Hleaf.
    pose proof (Hd ([x00] ++ slice_bytes (ProofNonce proof)
                          ++ content reader)).
    lia. }
  eexists. split; [exact Hip|]. cbn [Proof_].
  destruct (fold_path_binding Hd _ _ _ _ _ _ _ _ Hlen Hrl Hfold Hgen Hr)
    as [[Hh Hp]|Hc]; [left | right; exact Hc].
  split; [|exact Hp].
  unfold HashLeaf, io_Copy. rewrite Hf. f_equal. exact Hh.
Qed.

(** X21. [CalcInclusionProof] hashes the nonce and the file as one byte
    string and checks no length of the nonce: bytes moved from the start
    of the file to the end of the proof's nonce leave every outcome as it
    is, so a proof for a file also verifies, with a longer nonce, each
    of the file's suffixes. *)
Theorem nonce_boundary (m n : Z) (nonce a b : bytes) (path : list bytes) :
  CalcInclusionProof
    {| LeafIndex := m; TreeSize := n;
       ProofNonce := Some (nonce ++ a); Proof_ := path |} (bytes_Reader b) =
  CalcInclusionProof
    {| LeafIndex := m; TreeSize := n;
       ProofNonce := Some nonce; Proof_ := path |} (bytes_Reader (a ++ b)).
Proof.
  unfold CalcInclusionProof, HashLeaf, io_Copy, Write, blake3_New.
  cbn [ProofNonce slice_bytes content failure bytes_Reader].
  rewrite <- !app_assoc. reflexivity.
Qed.


(** ** The tree in the DOT language *)

Lemma getDot_eq {W : Type} {writer : io_Writer W}
    (short_slice : bytes -> result bytes) (n : Node) (w : W) :
  getDot short_slice n w =
  and_then
    match Left n with
    | Some lnode =>
        and_then (write_edge short_slice n lnode w) (getDot short_slice lnode)
    | None => (w, Ok tt)
    end
    (fun w =>
       match Right n with
       | Some rnode =>
           and_then (write_edge short_slice n rnode w)
                    (getDot short_slice rnode)
       | None => (w, Ok tt)
       end).
Proof. destruct n; reflexivity. Qed.

Lemma edges_of_eq (n : Node) :
  edges_of n =
  match Left n with
  | Some lnode => (n, lnode) :: edges_of lnode
  | None => []
  end ++
  match Right n with
  | Some rnode => (n, rnode) :: edges_of rnode
  | None => []
  end.
Proof. destruct n; reflexivity. Qed.

Lemma descendants_eq (n : Node) :
  descendants n =
  match Left n with
  | Some lnode => lnode :: descendants lnode
  | None => []
  end ++
  match Right n with
  | Some rnode => rnode :: descendants rnode
  | None => []
  end.
Proof. destruct n; reflexivity. Qed.

(** The children of the edges are the nodes below, in order, and each
    edge joins a node to a child of it. *)
Lemma edges_of_descendants (n : Node) :
  map snd (edges_of n) = descendants n /\
  forall p c, In (p, c) (edges_of n) -> Left p = Some c \/ Right p = Some c.
Proof.
  induction n as [h name lnode rnode nonce IHl IHr] using Node_children_ind.
  rewrite edges_of_eq, descendants_eq. cbn [Left Right].
  set (node := mkNode h name lnode rnode nonce) in *.
  split.
  - rewrite map_app. f_equal.
    + destruct lnode as [ln|]; [|reflexivity].
      cbn [map snd]. f_equal. apply (IHl ln eq_refl).
    + destruct rnode as [rn|]; [|reflexivity].
      cbn [map snd]. f_equal. apply (IHr rn eq_refl).
  - intros p c Hin. apply in_app_or in Hin. destruct Hin as [Hin|Hin].
    + destruct lnode as [ln|]; [|destruct Hin].
      destruct Hin as [[= <- <-]|Hin]; [left; reflexivity|].
      apply (proj2 (IHl ln eq_refl)), Hin.
    + destruct rnode as [rn|]; [|destruct Hin].
      destruct Hin as [[= <- <-]|Hin]; [right; reflexivity|].
      apply (proj2 (IHr rn eq_refl)), Hin.
Qed.

Lemma dotNodeName_sized (short_slice : bytes -> result bytes) (n : Node) :
  hash_sized n ->
  dotNodeName short_slice n = Ok (dot_name n).
Proof.
  unfold hash_sized, Blake3Size, dotNodeName, dot_name. intros H.
  destruct (Nat.leb_spec 3 (length (Hash n))); [|lia].
  cbn [bind]. destruct (0 <? String.length (Name n))%nat; reflexivity.
Qed.

Lemma write_edge_sized (short_slice : bytes -> result bytes)
    (n child : Node) (w : list string) :
  hash_sized n -> hash_sized child ->
  write_edge short_slice n child w = (w ++ [edge_text (n, child)], Ok tt).
Proof.
  intros Hn Hc. unfold write_edge.
  rewrite (dotNodeName_sized short_slice n Hn).
  rewrite (dotNodeName_sized short_slice child Hc).
  reflexivity.
Qed.

Lemma getDot_built (short_slice : bytes -> result bytes) leaves root :
  digest_sized ->
  1 <= Z.of_nat (length leaves) < 2 ^ 64 ->
  CreateTree leaves = Some root ->
  Forall hash_sized leaves -> Forall childless leaves ->
  (forall w : list string,
     getDot short_slice root w =
     (w ++ map edge_text (edges_of root), Ok tt)) /\
  length (edges_of root) = (2 * (length leaves - 1))%nat.
Proof.
  intros Hd. revert leaves root.
  apply (CreateTree_built_ind
           (fun leaves root =>
              Forall hash_sized leaves -> Forall childless leaves ->
              (forall w : list string,
                 getDot short_slice root w =
                 (w ++ map edge_text (edges_of root), Ok tt)) /\
              length (edges_of root) = (2 * (length leaves - 1))%nat)).
  - intros leaf _ Hc. inversion Hc as [|? ? [Hl Hr] _]; subst.
    rewrite edges_of_eq, Hl, Hr. split; [|reflexivity].
    intros w. rewrite getDot_eq, Hl, Hr, app_nil_r. reflexivity.
  - intros leaves lnode rnode Hn El Er IHl IHr Hs Hc.
    destruct (split_at_bounds leaves Hn) as [_ Hkb].
    destruct (Forall_split hash_sized (split_at leaves) leaves Hs)
      as [Hsl Hsr].
    destruct (Forall_split childless (split_at leaves) leaves Hc)
      as [Hcl Hcr].
    pose proof (CreateTree_hash_sized _ _ Hd Hsl El) as Hzl.
    pose proof (CreateTree_hash_sized _ _ Hd Hsr Er) as Hzr.
    assert (Hzn : hash_sized (internal lnode rnode)) by apply Hd.
    destruct (IHl Hsl Hcl) as [Hrunl Hlenl].
    destruct (IHr Hsr Hcr) as [Hrunr Hlenr].
    rewrite edges_of_eq. cbn [Left Right internal].
    fold (internal lnode rnode).
    split.
    + intros w. rewrite getDot_eq. cbn [Left Right internal].
      fold (internal lnode rnode).
      rewrite (write_edge_sized short_slice _ _ w Hzn Hzl).
      cbn [and_then]. rewrite Hrunl. cbn [and_then].
      rewrite (write_edge_sized short_slice _ _ _ Hzn Hzr).
      cbn [and_then]. rewrite Hrunr.
      rewrite map_app. cbn [map]. rewrite <- !app_assoc. reflexivity.
    + rewrite length_app. cbn [length].
      rewrite Hlenl, Hlenr, length_firstn, length_skipn. lia.
Qed.

(** X22. [DotGraph] on a tree built from [n >= 1] childless leaves, when
    hashes have [Blake3Size] bytes and the writer does not fail: it
    returns nil, and what it writes is the line [digraph "<root hash in
    hexadecimal>" {], then one line ["parent" -> "child"] for each edge of
    the tree, depth first (the edge to the left child, the left subtree,
    the edge to the right child, the right subtree), with each node under
    its file name if it has one and under the first three bytes of its
    hash in hexadecimal if not, then [}]. There are [2 (n - 1)] such
    lines, one for each node but the root: their children are the nodes
    below the root, in that order, and each line joins a node to a child
    of it. *)
Theorem DotGraph_built (short_slice : bytes -> result bytes)
    (leaves : list Node) (root : Node) :
  digest_sized ->
  Forall hash_sized leaves -> Forall childless leaves ->
  1 <= Z.of_nat (length leaves) < 2 ^ 64 ->
  CreateTree leaves = Some root ->
  DotGraph short_slice (Some root) ([] : list string) =
    ([digraph_line (Hash root)] ++ map edge_text (edges_of root)
       ++ ["}"%string], Ok tt) /\
  length (edges_of root) = (2 * (length leaves - 1))%nat /\
  map snd (edges_of root) = descendants root /\
  (forall p c, In (p, c) (edges_of root) ->
               Left p = Some c \/ Right p = Some c).
Proof.
  intros Hd Hs Hc Hn Hroot.
  destruct (getDot_built short_slice leaves root Hd Hn Hroot Hs Hc)
    as [Hrun Hlen].
  split; [|split; [exact Hlen | apply edges_of_descendants]].
  unfold DotGraph. cbn [io_Write chunks_Writer app].
  rewrite Hrun. cbn [and_then]. rewrite <- app_assoc. reflexivity.
Qed.


End Further.

(** * The properties on the sample data *)

#[local] Existing Instance sample_digest.

Lemma sample_leaves_made :
  CreateLeaf "c"%string (bytes_Reader [x63])
             (Some [x33]) Panic = Ok leaf_c /\
  CreateTree sample_leaves = Some sample_tree.
Proof. split; reflexivity. Qed.

Lemma round_trip_witness :
  exists root ip,
    CreateTree sample_leaves = Some root /\
    GetInclusionProof (Some root) (Z.of_nat (length sample_leaves))
                      (Z.of_nat 2) = Ok ip /\
    CalcInclusionProof ip (bytes_Reader [x63]) = Ok (Hash root).
Proof.
  apply (round_trip sample_leaves 2 leaf_c
                    (bytes_Reader [x63]));
    [cbn; lia | reflexivity | reflexivity].
Defined.

Lemma CalcInclusionProof_rfc_fold_witness :
  CalcInclusionProof sample_proof
                     (bytes_Reader [x63]) = Ok (Hash sample_tree) <->
  rfc_fold (LeafIndex sample_proof)
           (TreeSize sample_proof - 1) [x00; x33; x63]
           (Proof_ sample_proof) (Ok (Hash sample_tree)).
Proof.
  apply (CalcInclusionProof_rfc_fold sample_proof
           (bytes_Reader [x63]) [x00; x33; x63] (Ok (Hash sample_tree)));
    [cbn; lia | cbn; lia | reflexivity].
Defined.

Lemma CreateTree_spec_witness :
  (forall fuel, (length sample_leaves < fuel)%nat ->
     CreateTree_fuel fuel sample_leaves =
     CreateTree sample_leaves) /\
  exists lnode rnode,
    CreateTree (firstn 2 sample_leaves) = Some lnode /\
    CreateTree (skipn 2 sample_leaves) = Some rnode /\
    CreateTree sample_leaves =
    Some (mkNode (sample_digest ([x01] ++ Hash lnode ++ Hash rnode))
                 EmptyString (Some lnode) (Some rnode) None).
Proof.
  apply (CreateTree_spec sample_leaves).
  cbn. lia.
Defined.

Lemma GetLeaf_CreateTree_witness :
  exists root,
    CreateTree sample_leaves = Some root /\
    GetLeaf (Some root) (Z.of_nat (length sample_leaves)) (Z.of_nat 1)
      = Ok leaf_b /\
    exists ip,
      GetInclusionProof (Some root) (Z.of_nat (length sample_leaves))
                        (Z.of_nat 1) = Ok ip /\
      ProofNonce ip = Nonce leaf_b.
Proof.
  apply (GetLeaf_CreateTree sample_leaves 1 leaf_b);
    [cbn; lia | reflexivity].
Defined.



Lemma tree_size_mismatch_witness :
  GetInclusionProof (Some two_leaf_tree) 4 0 = Err TreeSizeMismatch /\
  GetLeaf (Some two_leaf_tree) 4 0 = Err TreeSizeMismatch /\
  kind_of TreeSizeMismatch = KTreeSizeMismatch.
Proof.
  apply (tree_size_mismatch two_leaf_tree 4 0).
  apply (mismatch_below_left two_leaf_tree 4 0 leaf_a leaf_b);
    [lia | lia | reflexivity | reflexivity | reflexivity |].
  apply (mismatch_left leaf_a (flp2 4) 0);
    [vm_compute; discriminate | reflexivity | reflexivity | reflexivity].
Defined.

Lemma descent_never_panics_witness :
  (GetInclusionProof (Some sample_tree) 5 1 <> Panic /\
   GetLeaf (Some sample_tree) 5 1 <> Panic) /\
  well_formed sample_tree.
Proof.
  destruct (descent_never_panics sample_tree 5 1
              sample_leaves) as [H1 H2].
  split.
  - apply H1. repeat constructor.
  - apply H2; [repeat constructor | reflexivity].
Defined.

(** ** The further properties on the sample data *)

Lemma proof_length_witness :
  Z.of_nat (length (Proof_ sample_proof)) <= Z.log2_up 3 /\
  (2 <= 3 -> 1 <= Z.of_nat (length (Proof_ sample_proof))) /\
  (forall e, 0 <= e -> 3 = 2 ^ e ->
             Z.of_nat (length (Proof_ sample_proof)) = e).
Proof.
  apply (proof_length (Some sample_tree) 3 2 sample_proof);
    [lia | reflexivity].
Defined.

Lemma CreateLeaf_round_trip_witness :
  exists root ip,
    CreateTree sample_leaves = Some root /\
    GetInclusionProof (Some root) (Z.of_nat (length sample_leaves))
                      (Z.of_nat 2) = Ok ip /\
    ProofNonce ip = Nonce leaf_c /\ ProofNonce ip <> None /\
    CalcInclusionProof ip (bytes_Reader (content (bytes_Reader [x63])))
      = Ok (Hash root).
Proof.
  apply (CreateLeaf_round_trip "c"%string (bytes_Reader [x63])
           (Some [x33]) Panic sample_leaves 2 leaf_c);
    [cbn; lia | reflexivity | reflexivity].
Defined.

Lemma CreateLeaf_errors_witness :
  (@None bytes = None /\
   Ok [x33] = Err (errors_New "unexpected EOF"%string)) \/
  ((@None bytes <> None \/ exists b, Ok [x33] = Ok b) /\
   failure failing_reader = Some (errors_New "unexpected EOF"%string)).
Proof.
  apply (proj1 (CreateLeaf_errors "c"%string failing_reader None
                  (Ok [x33])) (errors_New "unexpected EOF"%string)).
  reflexivity.
Defined.

Lemma CreateLeaf_tree_descents_witness :
  GetInclusionProof (Some sample_tree) 5 1 <> Panic /\
  GetLeaf_ptr (Some sample_tree) 5 1 <> Panic /\
  GetLeaf_ptr (Some sample_tree) 5 1 <> Ok None.
Proof.
  apply (CreateLeaf_tree_descents sample_leaves sample_tree 5 1);
    [|reflexivity].
  constructor;
    [exists "a"%string, (bytes_Reader [x61]), (Some [x11]), Panic;
     reflexivity|].
  constructor;
    [exists "b"%string, (bytes_Reader [x62]), (Some [x22]), Panic;
     reflexivity|].
  constructor;
    [exists "c"%string, (bytes_Reader [x63]), (Some [x33]), Panic;
     reflexivity|].
  constructor.
Defined.

Lemma path_length_checked_witness :
  ((exists h, CalcInclusionProof sample_proof (bytes_Reader [x63]) = Ok h) \/
   CalcInclusionProof sample_proof (bytes_Reader [x63])
     = Err ProofSizeMismatch) /\
  ((exists h, CalcInclusionProof sample_proof (bytes_Reader [x63]) = Ok h) ->
   Z.of_nat (length (Proof_ sample_proof))
     <= Z.log2_up (TreeSize sample_proof) /\
   (Proof_ sample_proof = [] <-> TreeSize sample_proof = 1)).
Proof.
  apply (path_length_checked sample_proof (bytes_Reader [x63]));
    [reflexivity | cbn; lia | cbn; lia].
Defined.

Lemma content_binding_witness : @collision zero_digest.
Proof.
  apply (@content_binding zero_digest single_proof
           (bytes_Reader [x61]) (bytes_Reader [x62]) (repeat x00 32));
    [reflexivity | reflexivity | discriminate].
Defined.

Lemma leaf_node_separation_witness : @collision zero_digest.
Proof.
  apply (@leaf_node_separation zero_digest (bytes_Reader []) None [] []).
  reflexivity.
Defined.

Lemma generated_proof_no_error_witness :
  exists h, CalcInclusionProof sample_proof (bytes_Reader [x64]) = Ok h.
Proof.
  apply (generated_proof_no_error sample_leaves 2 sample_tree sample_proof
           (bytes_Reader [x64]));
    [cbn; lia | reflexivity | reflexivity | reflexivity].
Defined.

Lemma root_hash_of_leaf_hashes_witness :
  Hash sample_tree = Hash anonymous_tree.
Proof.
  apply (root_hash_of_leaf_hashes sample_leaves anonymous_leaves
           sample_tree anonymous_tree);
    reflexivity.
Defined.

Lemma root_binds_leaf_hashes_witness :
  map Hash [zero_leaf "a"%string; zero_leaf "b"%string] =
  map Hash [zero_leaf "x"%string; zero_leaf "y"%string] \/
  @collision_between zero_digest
    (node_inputs (@internal zero_digest (zero_leaf "a"%string)
                                        (zero_leaf "b"%string)))
    (node_inputs (@internal zero_digest (zero_leaf "x"%string)
                                        (zero_leaf "y"%string))).
Proof.
  apply (@root_binds_leaf_hashes zero_digest
           [zero_leaf "a"%string; zero_leaf "b"%string]
           [zero_leaf "x"%string; zero_leaf "y"%string]
           (@internal zero_digest (zero_leaf "a"%string)
                                  (zero_leaf "b"%string))
           (@internal zero_digest (zero_leaf "x"%string)
                                  (zero_leaf "y"%string)));
    [intros x; reflexivity
    | repeat constructor | repeat constructor
    | reflexivity | reflexivity | reflexivity | reflexivity].
Defined.

Lemma GetInclusionProof_rfc_PATH_witness :
  Hash sample_tree = rfc_MTH (map Hash sample_leaves) /\
  GetInclusionProof (Some sample_tree) (Z.of_nat (length sample_leaves))
                    (Z.of_nat 2) =
    Ok {| LeafIndex := Z.of_nat 2;
          TreeSize := Z.of_nat (length sample_leaves);
          ProofNonce := Nonce leaf_c;
          Proof_ := rfc_PATH 2 (map Hash sample_leaves) |}.
Proof.
  apply (GetInclusionProof_rfc_PATH sample_leaves sample_tree 2 leaf_c);
    [cbn; lia | reflexivity | reflexivity].
Defined.

Lemma sample_names_distinct : NoDup (map Name sample_leaves).
Proof.
  repeat constructor; cbn; intuition discriminate.
Defined.

Lemma gen_outer_files_witness :
  exists files,
    gen_outer (map from_leafCh sample_leaves ++ from_errCh None :: [])
              [] (StringMap.empty Z) = Some (Ok (sample_leaves, files)) /\
    indexes files sample_leaves /\
    (NoDup (map Name sample_leaves) ->
     forall m leaf, nth_error sample_leaves m = Some leaf ->
       StringMap.find (Name leaf) files = Some (Z.of_nat m)).
Proof.
  apply (gen_outer_files sample_leaves []). cbn. lia.
Defined.

Lemma gen_inclusion_verify_witness :
  exists t root ip,
    gen None (map from_leafCh sample_leaves ++ from_errCh None :: [])
        (Ok "/srv/files"%string) 0 = Some (Ok t) /\
    Root t = Some root /\
    genInclusionProof t (Name leaf_c) = Ok ip /\
    LeafIndex ip = Z.of_nat 2 /\
    TreeSize ip = Z.of_nat (length sample_leaves) /\
    GetLeaf_ptr (Root t) (TreeSize ip) (LeafIndex ip) = Ok (Some leaf_c) /\
    CalcInclusionProof ip (bytes_Reader [x63]) = Ok (Hash root) /\
    verifyInclusion (Ok ip) (Ok (bytes_Reader [x63]))
                    (Some (Ok (Hash root))) false =
      Ok (Println "OK: proof and file match given root hash"%string).
Proof.
  apply (gen_inclusion_verify sample_leaves [] "/srv/files"%string 0 2
           leaf_c (bytes_Reader [x63]) false);
    [cbn; lia | exact sample_names_distinct | reflexivity | reflexivity].
Defined.

Lemma gen_verifyFile_witness :
  exists t,
    gen None (map from_leafCh sample_leaves ++ from_errCh None :: [])
        (Ok "/srv/files"%string) 0 = Some (Ok t) /\
    (verifyFile (Ok t) (Name leaf_b) (Ok (bytes_Reader [x62])) =
       Ok (Println "OK: file is still verified by this Merkle tree"%string)
     <-> HashLeaf (bytes_Reader [x62]) (Nonce leaf_b) = Ok (Hash leaf_b)) /\
    (verifyFile (Ok t) (Name leaf_b) (Ok (bytes_Reader [x62])) =
       Ok (Println
             "NOT OK: file has changed and is not part of the Merkle tree"%string)
     <-> exists h, HashLeaf (bytes_Reader [x62]) (Nonce leaf_b) = Ok h /\
                   h <> Hash leaf_b) /\
    (forall name open,
       ~ In name (map Name sample_leaves) ->
       verifyFile (Ok t) name open =
       Err (errors_New
              "file with that name not found in Merkle tree"%string)).
Proof.
  apply (gen_verifyFile sample_leaves [] "/srv/files"%string 0 1
           leaf_b (bytes_Reader [x62]));
    [cbn; lia | exact sample_names_distinct | reflexivity].
Defined.

Lemma gen_duplicate_name_witness :
  exists t,
    gen None (map from_leafCh ([leaf_a; leaf_b] ++ [leaf_a_again])
                ++ from_errCh None :: [])
        (Ok "/srv/files"%string) 0 = Some (Ok t) /\
    (StringMap.cardinal (Files t)
     < length ([leaf_a; leaf_b] ++ [leaf_a_again]))%nat /\
    StringMap.find (Name leaf_a_again) (Files t)
      = Some (Z.of_nat (length [leaf_a; leaf_b])) /\
    genInclusionProof t (Name leaf_a_again) =
      Err (errors_New
             "error calculating proof: given leaf index is impossible"%string) /\
    verifyFile (Ok t) (Name leaf_a_again) (Ok (bytes_Reader [x64])) =
      Err (errors_New
             "error finding leaf in tree: given leaf index is impossible"%string).
Proof.
  apply (gen_duplicate_name [leaf_a; leaf_b] leaf_a_again []
           "/srv/files"%string 0 (Ok (bytes_Reader [x64])));
    [cbn; lia | left; reflexivity].
Defined.

Lemma gen_first_errCh_witness :
  exists ls' rest',
    map from_leafCh sample_leaves ++ from_errCh None :: [] =
      map from_leafCh ls' ++ from_errCh None :: rest' /\
    Some sample_tree = CreateTree ls' /\
    Ok "/srv/files"%string = Ok "/srv/files"%string /\ 0 = 0.
Proof.
  apply (proj2 (proj2 (gen_first_errCh [] [] (Ok "/srv/files"%string) 0))
           (map from_leafCh sample_leaves ++ from_errCh None :: [])
           {| Path := "/srv/files"%string;
              Files :=
                StringMap.add "c"%string 2
                  (StringMap.add "b"%string 1
                     (StringMap.add "a"%string 0 (StringMap.empty Z)));
              CreatedAt := 0; Root := Some sample_tree |}).
  reflexivity.
Defined.

Lemma file_header_checked_witness :
  readTree (fun f => Ok (content f))
           (Ok (bytes_Reader [x6d; x65; x72; x6b; x64; x69; x72; x02; xa4])) =
  Err (errors_New "invalid file header"%string).
Proof.
  apply (proj1 (proj2 (proj2
           (file_header_checked bytes (fun b => Ok b)
              (fun f => Ok (content f)) []
              (bytes_Reader
                 [x6d; x65; x72; x6b; x64; x69; x72; x02; xa4])))));
    [cbn; lia | discriminate].
Defined.

Lemma inclusion_sound_witness :
  exists ip,
    GetInclusionProof (Some zero_tree) (Z.of_nat (length zero_leaves))
                      (Z.of_nat 0) = Ok ip /\
    ((@HashLeaf zero_digest (bytes_Reader [x61]) (ProofNonce zero_proof) =
        Ok (Hash (zero_leaf "a"%string)) /\
      Proof_ zero_proof = Proof_ ip) \/
     @collision_between zero_digest
       (@fold_inputs zero_digest (Proof_ zero_proof)
          (mkState (Z.of_nat 0) (Z.of_nat (length zero_leaves) - 1)
             (zero_digest
                ([x00] ++ slice_bytes (ProofNonce zero_proof)
                       ++ content (bytes_Reader [x61])))))
       (@fold_inputs zero_digest (Proof_ ip)
          (mkState (Z.of_nat 0) (Z.of_nat (length zero_leaves) - 1)
             (Hash (zero_leaf "a"%string))))).
Proof.
  apply (@inclusion_sound zero_digest zero_leaves 0 (zero_leaf "a"%string)
           zero_tree zero_proof (bytes_Reader [x61]));
    [intros x; reflexivity | repeat constructor | cbn; lia
    | reflexivity | reflexivity | reflexivity | reflexivity | reflexivity].
Defined.

Lemma DotGraph_built_witness :
  @DotGraph (list string) chunks_Writer (fun _ => Panic)
    (Some zero_tree) [] =
    ([digraph_line (Hash zero_tree)] ++ map edge_text (edges_of zero_tree)
       ++ ["}"%string], Ok tt) /\
  length (edges_of zero_tree) = (2 * (length zero_leaves - 1))%nat /\
  map snd (edges_of zero_tree) = descendants zero_tree /\
  (forall p c, In (p, c) (edges_of zero_tree) ->
               Left p = Some c \/ Right p = Some c).
Proof.
  apply (@DotGraph_built zero_digest (fun _ => Panic) zero_leaves zero_tree);
    [intros x; reflexivity | repeat constructor | repeat constructor
    | cbn; lia | reflexivity].
Defined.

(** What [DotGraph] writes for [zero_tree], entry by entry. *)
Example DotGraph_zero_tree :
  fst (@DotGraph (list string) chunks_Writer (fun _ => Panic)
         (Some zero_tree) []) =
  [digraph_line (repeat x00 32);
   edge_line "000000"%string "a"%string;
   edge_line "000000"%string "b"%string;
   "}"%string].
Proof. reflexivity. Qed.
